(** * Hot-reload: change detection and reload coordination

    A shallow embedding of [src/hot-reload.ts] and the properties its
    specification states about it.

    Conventions of the embedding:
    - JavaScript objects used as dictionaries ([statCache], [pluginNames],
      [pluginReloaders], [localStorage]) are finite maps; keys are assumed
      not to collide with properties inherited from [Object.prototype].
    - An [async] method is a state transformer that may throw: awaiting a
      host call applies the host call's effect in place.  The points where
      other code may interleave are the [await]s; properties that must
      survive interleaving are stated for arbitrary pre-states of the
      step that follows the [await].
    - The host application is a record of what the program reads ([App])
      and an interface of operations the program is parametric in
      ([HostApi]).
    - [debounce] belongs to the host API; module [Debounce] models it from
      the specification.
    - The serialized queue appears twice: module [TaskQueue] is the promise
      chain of [taskQueue()]; the methods of the plugin see the queue as the
      list of submitted actions, started one at a time in order of
      submission, which is what the promise chain is proved to do.
    - Everything the program does to the outside world (console, notices,
      [localStorage], host lifecycle calls) is appended to a chronological
      [trace], together with a few markers for internal calls. *)

From Stdlib Require Import ZArith Lia Ascii String List.
From stdpp Require Import base option list gmap sets strings.

Local Open Scope string_scope.
Local Open Scope list_scope.

(** ** JavaScript string primitives used by the program *)

Module JS.

(** [s.split(sep)] for a one-character separator: never empty. *)
Fixpoint split (sep : ascii) (s : string) : list string :=
  match s with
  | EmptyString => [EmptyString]
  | String c s' =>
      if Ascii.eqb c sep then EmptyString :: split sep s'
      else match split sep s' with
           | seg :: rest => String c seg :: rest
           | [] => [String c EmptyString]
           end
  end.

(** [s.startsWith(p)] *)
Fixpoint startsWith (p s : string) : bool :=
  match p, s with
  | EmptyString, _ => true
  | String a p', String b s' => Ascii.eqb a b && startsWith p' s'
  | String _ _, EmptyString => false
  end.

(** [a.pop()]: the last element (if any) and the shortened array. *)
Definition pop {A} (l : list A) : option A * list A :=
  (last l, removelast l).

(** [s.endsWith(suffix)]: the last [suffix.length] characters of [s] are
    [suffix]. *)
Definition endsWith (suffix s : string) : bool :=
  let n := String.length s in
  let k := String.length suffix in
  (k <=? n)%nat && String.eqb (substring (n - k) k s) suffix.

Definition slash : ascii := "/"%char.

(** The double-quote character, for message templates. *)
Definition dquote : string := String (ascii_of_nat 34) EmptyString.

End JS.

(** ** Data model *)

Inductive FileType := file | folder.

(** [Stat] of the host's data adapter. *)
Record Stat := mkStat {
  stat_type : FileType;
  ctime : Z;
  mtime : Z;
  size : Z
}.

(** The fields of a [PluginManifest] that the program reads. *)
Record PluginManifest := mkManifest {
  id : string;
  dir : string
}.

(** A settings tab of the host, with the scroll offsets of its container. *)
Record SettingTab := mkTab {
  tab_id : string;
  scrollTop : Z;
  scrollLeft : Z
}.

(** [class HotReloadSettings] *)
Record HotReloadSettings := mkSettings {
  shouldReopenActiveSettingsTab : bool;
  shouldShowReloadNotice : bool
}.

Definition defaultSettings : HotReloadSettings := mkSettings true true.

#[global] Instance FileType_eq_dec : EqDecision FileType.
Proof. solve_decision. Defined.
#[global] Instance Stat_eq_dec : EqDecision Stat.
Proof. solve_decision. Defined.
#[global] Instance SettingTab_eq_dec : EqDecision SettingTab.
Proof. solve_decision. Defined.

(** The actions handed to the serialized queue:
    [() => this.getPluginNames()] and
    [() => this.reload(plugin).catch(console.error)]. *)
Inductive task :=
| TGetPluginNames
| TReload (plugin : string).

#[global] Instance task_eq_dec : EqDecision task.
Proof. solve_decision. Defined.

Definition error := string.

Inductive outcome (A : Type) :=
| Returned (a : A)
| Thrown (e : error).
Arguments Returned {A} a.
Arguments Thrown {A} e.

(** What the program does that can be observed from outside, plus markers
    ([CallRequestReload], [DebounceCreated], [Enqueued]) for internal calls. *)
Inductive event :=
| CallRequestReload (plugin : string)
| DebounceCreated (t : task) (timeout : Z)
| Enqueued (t : task)
| HostDisable (plugin : string)
| HostEnable (plugin : string)
| HostOpenTab (plugin : string)
| HostScrollTo (tab : SettingTab) (left top : Z)
| HostStartWatch (path : string)
| LsSet (key value : string)
| LsRemove (key : string)
| PatchInstalled (plugin : string)
| PatchRemoved (plugin : string)
| ConsoleDebug (args : list string)
| ConsoleError (e : error)
| NoticeShown (message : string).

#[global] Instance event_eq_dec : EqDecision event.
Proof. solve_decision. Defined.

(** ** The host application

    The part of [App] that the program reads, as a record; the host's own
    operations are an interface ([HostApi]) the program is parametric in. *)

Record App := mkApp {
  manifests : list (string * PluginManifest);  (* app.plugins.manifests *)
  pluginFolder : string;                       (* app.plugins.getPluginFolder() *)
  hostEnabled : gset string;                   (* app.plugins.enabledPlugins *)
  activeTab : option SettingTab;               (* app.setting.activeTab *)
  settingShown : bool;                         (* app.setting.containerEl.isShown() *)
  watchers : gset string;                      (* app.vault.adapter.watchers *)
  fs_stat : string -> option Stat;             (* app.vault.adapter.stat *)
  fs_exists : string -> bool;                  (* app.vault.exists *)
  fs_symlink : string -> bool;                 (* lstatSync(..).isSymbolicLink() *)
  watchNeeded : bool;                          (* !Platform.isMacOS && !Platform.isWin *)
  apiVersion16 : bool                          (* requireApiVersion("1.6") *)
}.

Definition set_hostEnabled (v : gset string) (a : App) : App :=
  mkApp (manifests a) (pluginFolder a) v (activeTab a) (settingShown a)
    (watchers a) (fs_stat a) (fs_exists a) (fs_symlink a) (watchNeeded a)
    (apiVersion16 a).
Definition set_activeTab (v : option SettingTab) (a : App) : App :=
  mkApp (manifests a) (pluginFolder a) (hostEnabled a) v (settingShown a)
    (watchers a) (fs_stat a) (fs_exists a) (fs_symlink a) (watchNeeded a)
    (apiVersion16 a).
Definition set_watchers (v : gset string) (a : App) : App :=
  mkApp (manifests a) (pluginFolder a) (hostEnabled a) (activeTab a)
    (settingShown a) v (fs_stat a) (fs_exists a) (fs_symlink a) (watchNeeded a)
    (apiVersion16 a).

(** The host's operations.  The lifecycle and settings-panel calls are
    asynchronous, may fail, and may change anything in [App];
    [startWatchPath] registers a watcher.  [localStorage] is not part of
    [App]: the host's operations are taken not to write the debug flag. *)
Class HostApi := {
  disablePlugin : string -> App -> outcome unit * App;
  enablePlugin : string -> App -> outcome unit * App;
  openTabById : string -> App -> outcome (option SettingTab) * App;
  scrollTo : SettingTab -> Z -> Z -> App -> outcome unit * App;
  startWatchPath : string -> gset string -> gset string
}.

(** ** The debounced trigger *)

Module Debounce.

(** Modelled from the spec: [debounce] is imported from the host API package
    and is not part of the sources.  Both use sites call
    [debounce(cb, timeout, true)]; the specification reads this as a
    leading-edge trigger with two states: idle --call--> fire and cool down;
    cooling down --call--> nothing; cooling down --timeout--> idle. *)
Inductive dstate :=
| Idle
| CoolingDown (until : Z).

(** Modelled from the spec: the object returned by [debounce], which is not
    part of the sources: the wrapped callback, the cooldown and the state of
    the trigger. *)
Record Debouncer := mkDebouncer {
  d_action : task;     (* the wrapped callback *)
  d_timeout : Z;       (* cooldown, in milliseconds *)
  d_state : dstate
}.

(** Modelled from the spec: [debounce(cb, timeout, true)] returns a trigger
    that starts idle. *)
Definition debounce (cb : task) (timeout : Z) : Debouncer :=
  mkDebouncer cb timeout Idle.

(** Modelled from the spec: the cooldown timer running out. *)
Definition expire (now : Z) (s : dstate) : dstate :=
  match s with
  | Idle => Idle
  | CoolingDown until => if (until <=? now)%Z then Idle else CoolingDown until
  end.

(** Modelled from the spec: one call of the trigger at time [now]; the
    boolean tells whether the wrapped callback fires. *)
Definition call (now : Z) (d : Debouncer) : bool * Debouncer :=
  match expire now (d_state d) with
  | Idle => (true, mkDebouncer (d_action d) (d_timeout d)
                     (CoolingDown (now + d_timeout d)))
  | CoolingDown until => (false, mkDebouncer (d_action d) (d_timeout d)
                                   (CoolingDown until))
  end.


End Debounce.

Export Debounce.

#[global] Instance dstate_eq_dec : EqDecision dstate.
Proof. solve_decision. Defined.
#[global] Instance Debouncer_eq_dec : EqDecision Debouncer.
Proof. solve_decision. Defined.

(** ** The plugin instance and its world *)

Record state := mkState {
  (* fields of [class HotReload] *)
  settings : HotReloadSettings;
  statCache : gmap string Stat;
  reindexer : Debouncer;                    (* the field [reindexPlugins] *)
  pluginReloaders : gmap string Debouncer;
  pluginNames : gmap string string;         (* directory name -> id *)
  enabledPlugins : gset string;
  queue : list task;                        (* submitted to [run], not started *)
  (* the world around it *)
  app : App;
  localStorage : gmap string string;
  now : Z;                                  (* clock, in milliseconds *)
  trace : list event
}.

Definition set_statCache (v : gmap string Stat) (st : state) : state :=
  mkState (settings st) v (reindexer st) (pluginReloaders st) (pluginNames st)
    (enabledPlugins st) (queue st) (app st) (localStorage st) (now st) (trace st).
Definition set_reindexer (v : Debouncer) (st : state) : state :=
  mkState (settings st) (statCache st) v (pluginReloaders st) (pluginNames st)
    (enabledPlugins st) (queue st) (app st) (localStorage st) (now st) (trace st).
Definition set_pluginReloaders (v : gmap string Debouncer) (st : state) : state :=
  mkState (settings st) (statCache st) (reindexer st) v (pluginNames st)
    (enabledPlugins st) (queue st) (app st) (localStorage st) (now st) (trace st).
Definition set_pluginNames (v : gmap string string) (st : state) : state :=
  mkState (settings st) (statCache st) (reindexer st) (pluginReloaders st) v
    (enabledPlugins st) (queue st) (app st) (localStorage st) (now st) (trace st).
Definition set_enabledPlugins (v : gset string) (st : state) : state :=
  mkState (settings st) (statCache st) (reindexer st) (pluginReloaders st)
    (pluginNames st) v (queue st) (app st) (localStorage st) (now st) (trace st).
Definition set_queue (v : list task) (st : state) : state :=
  mkState (settings st) (statCache st) (reindexer st) (pluginReloaders st)
    (pluginNames st) (enabledPlugins st) v (app st) (localStorage st) (now st)
    (trace st).
Definition set_app (v : App) (st : state) : state :=
  mkState (settings st) (statCache st) (reindexer st) (pluginReloaders st)
    (pluginNames st) (enabledPlugins st) (queue st) v (localStorage st) (now st)
    (trace st).
Definition set_localStorage (v : gmap string string) (st : state) : state :=
  mkState (settings st) (statCache st) (reindexer st) (pluginReloaders st)
    (pluginNames st) (enabledPlugins st) (queue st) (app st) v (now st) (trace st).
Definition set_now (v : Z) (st : state) : state :=
  mkState (settings st) (statCache st) (reindexer st) (pluginReloaders st)
    (pluginNames st) (enabledPlugins st) (queue st) (app st) (localStorage st) v
    (trace st).
Definition set_settings (v : HotReloadSettings) (st : state) : state :=
  mkState v (statCache st) (reindexer st) (pluginReloaders st)
    (pluginNames st) (enabledPlugins st) (queue st) (app st) (localStorage st)
    (now st) (trace st).
Definition emits (tr : list event) (st : state) : state :=
  mkState (settings st) (statCache st) (reindexer st) (pluginReloaders st)
    (pluginNames st) (enabledPlugins st) (queue st) (app st) (localStorage st)
    (now st) (trace st ++ tr).
Definition emit (e : event) (st : state) : state := emits [e] st.

(** A freshly constructed plugin instance in a given world. *)
Definition construct (a : App) (ls : gmap string string) (t0 : Z) : state :=
  mkState defaultSettings ∅ (debounce TGetPluginNames 250) ∅ ∅ ∅ [] a ls t0 [].

(** *** Computations that may throw *)

Definition M (A : Type) : Type := state -> outcome A * state.

Definition ret {A} (a : A) : M A := fun st => (Returned a, st).

Definition bind {A B} (m : M A) (k : A -> M B) : M B :=
  fun st =>
    match m st with
    | (Returned a, st1) => k a st1
    | (Thrown e, st1) => (Thrown e, st1)
    end.

#[global] Instance M_ret : MRet M := @ret.
#[global] Instance M_bind : MBind M := fun A B k m => bind m k.

(** A total state change, as a computation. *)
Definition lift (f : state -> state) : M unit := fun st => (Returned tt, f st).

Definition gets {A} (f : state -> A) : M A := fun st => (Returned (f st), st).

(** [try { body } finally { fin }]: [fin] runs on both exits of [body]; a
    throw from [fin] replaces the outcome of [body]. *)
Definition try_finally {A} (body : M A) (fin : M unit) : M A :=
  fun st =>
    let '(r, st1) := body st in
    match fin st1 with
    | (Returned _, st2) => (r, st2)
    | (Thrown e, st2) => (Thrown e, st2)
    end.

(** [p.catch(handler)] *)
Definition catch (body : M unit) (handler : error -> M unit) : M unit :=
  fun st =>
    match body st with
    | (Returned a, st1) => (Returned a, st1)
    | (Thrown e, st1) => handler e st1
    end.

(** A call into the host, recorded in the trace before it runs. *)
Definition host {A} (e : event) (op : App -> outcome A * App) : M A :=
  fun st =>
    let '(r, a) := op (app st) in
    (r, set_app a (emit e st)).

(** ** The methods of [class HotReload] *)

Section HotReload.

Context `{HostApi}.

(** [this.run(action)]: the action joins the serialized queue
    (see [TaskQueue] for the promise chain behind it). *)
Definition run (t : task) (st : state) : state :=
  set_queue (queue st ++ [t]) (emit (Enqueued t) st).

(** Calling the debounced [reindexPlugins]. *)
Definition reindexPlugins (st : state) : state :=
  let '(fires, d) := call (now st) (reindexer st) in
  let st1 := set_reindexer d st in
  if fires then run (d_action d) st1 else st1.

(** [watch(path)] *)
Definition watch (path : string) (st : state) : state :=
  if decide (path ∈ watchers (app st)) then st
  else match fs_stat (app st) path with
       | Some s =>
           match stat_type s with
           | folder =>
               if watchNeeded (app st) || fs_symlink (app st) path
               then set_app (set_watchers
                               (startWatchPath path (watchers (app st))) (app st))
                      (emit (HostStartWatch path) st)
               else st
           | file => st
           end
       | None => st
       end.

(** [requestReload(plugin)] *)
Definition requestReload (plugin : string) (st : state) : state :=
  if decide (plugin ∈ enabledPlugins st) then
    let '(reloader, st1) :=
      match pluginReloaders st !! plugin with
      | Some d => (d, st)
      | None =>
          let d := debounce (TReload plugin) 750 in
          (d, set_pluginReloaders (<[plugin := d]> (pluginReloaders st))
                (emit (DebounceCreated (TReload plugin) 750) st))
      end in
    let '(fires, d) := call (now st1) reloader in
    let st2 := set_pluginReloaders (<[plugin := d]> (pluginReloaders st1)) st1 in
    if fires then run (d_action d) st2 else st2
  else st.

(** [app.plugins.manifests[plugin]] *)
Definition manifest_of (plugin : string) (a : App) : option PluginManifest :=
  snd <$> find (fun kv => bool_decide (fst kv = plugin)) (manifests a).

(** The body of the loop of [checkVersion] after [await stat(path)]:
    compare with the cached value, then overwrite it. *)
Definition checkFile (plugin path : string) (stat : option Stat)
    (st : state) : state :=
  match stat with
  | Some s =>
      let changed :=
        match statCache st !! path with
        | Some old => negb (bool_decide (mtime s = mtime old))
        | None => false
        end in
      let st1 :=
        if changed then requestReload plugin (emit (CallRequestReload plugin) st)
        else st in
      set_statCache (<[path := s]> (statCache st1)) st1
  | None => st
  end.

Definition trackedFiles : list string := ["main.js"; "styles.css"].

(** [checkVersion(plugin)] *)
Definition checkVersion (plugin : string) (st : state) : state :=
  match manifest_of plugin (app st) with
  | Some m =>
      if bool_decide (dir m = "") then
        set_pluginNames (delete plugin (pluginNames st)) st
      else
        foldl (fun st file =>
                 let path := dir m +:+ "/" +:+ file in
                 checkFile plugin path (fs_stat (app st) path) st)
              st trackedFiles
  | None =>
      (* Deleted plugin, stop watching *)
      set_pluginNames (delete plugin (pluginNames st)) st
  end.

(** [checkVersions()]: one version check per known extension. *)
Definition checkVersions (st : state) : state :=
  foldl (fun st plugin => checkVersion plugin st) st
        (snd <$> map_to_list (pluginNames st)).

(** [dir.split("/").pop()] *)
Definition basename (d : string) : string :=
  default "" (fst (JS.pop (JS.split JS.slash d))).

(** One iteration of the loop of [getPluginNames]. *)
Definition scanManifest
    (acc : gmap string string * gset string * state) (m : PluginManifest)
    : gmap string string * gset string * state :=
  let '(plugins, enabled, st) := acc in
  let st1 := watch (dir m) st in
  let plugins1 := <[basename (dir m) := id m]> plugins in
  let enabled1 :=
    if fs_exists (app st1) (dir m +:+ "/.git")
       || fs_exists (app st1) (dir m +:+ "/.hotreload")
    then {[id m]} ∪ enabled else enabled in
  (plugins1, enabled1, st1).

(** [getPluginNames()] *)
Definition getPluginNames (st : state) : state :=
  let '(plugins, enabled, st1) :=
    foldl scanManifest (∅, ∅, st) (snd <$> manifests (app st)) in
  checkVersions (set_enabledPlugins enabled (set_pluginNames plugins st1)).

(** The value of [dir && this.pluginNames[dir]] when it is truthy. *)
Definition knownPlugin (d : option string) (st : state) : option string :=
  match d with
  | Some d =>
      if bool_decide (d = "") then None
      else match pluginNames st !! d with
           | Some plugin => if bool_decide (plugin = "") then None else Some plugin
           | None => None
           end
  | None => None
  end.

(** [onFileChange(filename)] *)
Definition onFileChange (filename : string) (st : state) : state :=
  if negb (JS.startsWith (pluginFolder (app st) +:+ "/") filename) then st else
  let path := JS.split JS.slash filename in
  let '(base, path) := JS.pop path in
  let '(dir, path) := JS.pop path in
  if bool_decide (length path = 1) && bool_decide (dir = Some "plugins")
  then watch filename st else
  if negb (bool_decide (length path = 2)) then st else
  let plugin := knownPlugin dir st in
  if bool_decide (base = Some "manifest.json")
     || bool_decide (base = Some ".hotreload")
     || bool_decide (base = Some ".git")
     || negb (bool_decide (is_Some plugin))
  then reindexPlugins st else
  if negb (bool_decide (base = Some "main.js"))
     && negb (bool_decide (base = Some "styles.css"))
  then st else
  match plugin with
  | Some plugin => checkVersion plugin st
  | None => st
  end.

(** [showNotice(message)] *)
Definition showNotice (message : string) (st : state) : state :=
  let st1 := emit (ConsoleDebug [message]) st in
  if shouldShowReloadNotice (settings st1)
  then emit (NoticeShown message) st1 else st1.

Definition debugKey : string := "debug-plugin".

(** [localStorage.setItem] and [localStorage.removeItem] *)
Definition setItem (k v : string) (st : state) : state :=
  set_localStorage (<[k := v]> (localStorage st)) (emit (LsSet k v) st).
Definition removeItem (k : string) (st : state) : state :=
  set_localStorage (delete k (localStorage st)) (emit (LsRemove k) st).

(** [preventSourcemapStripping(app, plugin)]: patches the adapter's [read]
    and returns the function that removes the patch, if the host is recent
    enough. *)
Definition preventSourcemapStripping (plugin : string) : M (option (M unit)) :=
  fun st =>
    if apiVersion16 (app st)
    then (Returned (Some (lift (emit (PatchRemoved plugin)))),
          emit (PatchInstalled plugin) st)
    else (Returned None, st).

(** The message of a finished reload. *)
Definition reloadedMessage (plugin : string) : string :=
  "Plugin " +:+ JS.dquote +:+ plugin +:+ JS.dquote +:+ " has been reloaded".

(** The [try] block of [reload]: enable the extension and, if its settings
    tab was the active one and no tab is active now, reopen it and scroll
    it back. *)
Definition enableAndReopen (plugin : string)
    (settingTabScrollTop settingTabScrollLeft : Z) (isSettingTabActive : bool)
    : M unit :=
  host (HostEnable plugin) (enablePlugin plugin);;
  reopen ← gets (fun st =>
    isSettingTabActive && settingShown (app st)
    && bool_decide (activeTab (app st) = None)
    && shouldReopenActiveSettingsTab (settings st));
  if reopen : bool then
    settingTab ← host (HostOpenTab plugin) (openTabById plugin);
    match settingTab with
    | Some t =>
        host (HostScrollTo t settingTabScrollLeft settingTabScrollTop)
             (scrollTo t settingTabScrollLeft settingTabScrollTop)
    | None => mret tt
    end
  else mret tt.

(** The [finally] block of [reload]. *)
Definition restoreDebug (oldDebug : option string) (uninstall : option (M unit))
    : M unit :=
  (* Restore previous setting *)
  lift (match oldDebug with
        | None => removeItem debugKey
        | Some v => setItem debugKey v
        end);;
  match uninstall with
  | Some u => u
  | None => mret tt
  end.

(** [reload(plugin)] *)
Definition reload (plugin : string) : M unit :=
  fun st =>
  (* Don't reload disabled plugins *)
  if decide (plugin ∈ hostEnabled (app st)) then
    let '(settingTabScrollTop, settingTabScrollLeft, isSettingTabActive) :=
      match activeTab (app st) with
      | Some t => if bool_decide (tab_id t = plugin)
                  then (scrollTop t, scrollLeft t, true)
                  else (0%Z, 0%Z, false)
      | None => (0%Z, 0%Z, false)
      end in
    (host (HostDisable plugin) (disablePlugin plugin);;
     lift (emit (ConsoleDebug ["disabled"; plugin]));;
     (* Ensure sourcemaps are loaded *)
     oldDebug ← gets (fun st => localStorage st !! debugKey);
     lift (setItem debugKey "1");;
     uninstall ← preventSourcemapStripping plugin;
     try_finally
       (enableAndReopen plugin settingTabScrollTop settingTabScrollLeft
                        isSettingTabActive)
       (restoreDebug oldDebug uninstall);;
     lift (showNotice (reloadedMessage plugin))) st
  else (Returned tt, st).

(** The action a reloader submits to the queue:
    [() => this.reload(plugin).catch(console.error)]. *)
Definition reloadSlot (plugin : string) : M unit :=
  catch (reload plugin) (fun e => lift (emit (ConsoleError e))).

(** Running a queued action. *)
Definition runTask (t : task) : M unit :=
  match t with
  | TGetPluginNames => lift getPluginNames
  | TReload plugin => reloadSlot plugin
  end.

(** The queue starts its oldest action, if any. *)
Definition runNext (st : state) : option (outcome unit) * state :=
  match queue st with
  | [] => (None, st)
  | t :: rest =>
      let '(r, st1) := runTask t (set_queue rest st) in
      (Some r, st1)
  end.

(** What can happen to a running plugin instance. *)
Inductive input :=
| LayoutReady (s : HotReloadSettings) (* [onLayoutReady]: first scan, settings *)
| FileEvent (filename : string)       (* a raw file-system event *)
| ScanCommand                         (* the user runs "scan-for-changes" *)
| QueueSlot                           (* the queue starts its next action *)
| Elapse (ms : Z)                     (* time passes *)
| HostChange (f : App -> App)         (* the host or the disk changes *)
| SettingsChange (s : HotReloadSettings).

Definition step (i : input) (st : state) : state :=
  match i with
  | LayoutReady s =>
      let st1 := set_settings s (getPluginNames st) in
      watch (pluginFolder (app st1)) st1
  | FileEvent filename => onFileChange filename st
  | ScanCommand => reindexPlugins st
  | QueueSlot => snd (runNext st)
  | Elapse ms => set_now (now st + Z.max 0 ms) st
  | HostChange f => set_app (f (app st)) st
  | SettingsChange s => set_settings s st
  end.

Definition steps (inputs : list input) (st : state) : state :=
  foldl (fun st i => step i st) st inputs.

End HotReload.

(** ** Code around the class: settings and the sourcemap patch *)

(** The object [loadData()] resolves to, as far as the program reads it:
    [None] stands for [null] (nothing was saved yet); of a saved object the
    two preferences, each of which may be missing.  The values are taken to
    be booleans, as [saveSettings] writes them. *)
Record SavedData := mkSaved {
  saved_shouldReopenActiveSettingsTab : option bool;
  saved_shouldShowReloadNotice : option bool
}.

(** [Object.assign(new HotReloadSettings(), await this.loadData())] of
    [loadSettings]. *)
Definition loadSettings (data : option SavedData) : HotReloadSettings :=
  match data with
  | None => defaultSettings
  | Some d =>
      mkSettings
        (default (shouldReopenActiveSettingsTab defaultSettings)
                 (saved_shouldReopenActiveSettingsTab d))
        (default (shouldShowReloadNotice defaultSettings)
                 (saved_shouldShowReloadNotice d))
  end.

(** What [saveSettings] hands to [saveData]: the settings object. *)
Definition saveSettings (s : HotReloadSettings) : SavedData :=
  mkSaved (Some (shouldReopenActiveSettingsTab s)) (Some (shouldShowReloadNotice s)).

(** The two toggles of [HotReloadSettingTab.display]. *)
Inductive toggle := ReopenToggle | NoticeToggle.

(** [onChange] of a toggle: set the preference, then save; the new settings
    and the data saved. *)
Definition onChange (t : toggle) (value : bool) (s : HotReloadSettings)
    : HotReloadSettings * SavedData :=
  let s' := match t with
            | ReopenToggle => mkSettings value (shouldShowReloadNotice s)
            | NoticeToggle => mkSettings (shouldReopenActiveSettingsTab s) value
            end in
  (s', saveSettings s').

(** The marker appended to the source of an extension. *)
Definition nosourcemap : string := String (ascii_of_nat 10) "/* nosourcemap */".

(** The [read] that [preventSourcemapStripping(app, pluginName)] installs on
    the adapter, over the [read] it replaces: the text a read resolves to, or
    its rejection. *)
Definition patchedRead (pluginName : string) (old : string -> outcome string)
    (path : string) : outcome string :=
  let res := old path in
  if negb (JS.endsWith ("/" +:+ pluginName +:+ "/main.js") path) then res
  else match res with
       | Returned txt => Returned (txt +:+ nosourcemap)
       | Thrown e => Thrown e
       end.

(** ** The serialized task queue, at the level of promises

    [taskQueue()] keeps one promise, [last], and chains every submitted
    action behind it.  The model is the fragment of the promise semantics
    the function relies on: a heap of promises with their reactions, a
    microtask queue, and the three things that can happen: a call of the
    queue, a microtask, and the completion of the asynchronous work of an
    action that returned a promise.  The promise derived by [finally] is
    dropped by the source and is not represented; resolving a promise with
    a thenable subscribes to it at once. *)

Module TaskQueue.

Definition val := nat.

Inductive settlement :=
| Fulfilled (v : val)
| Rejected (e : val).

(** What an action does when the queue calls it. *)
Inductive behaviour :=
| Throws (e : val)        (* throws before returning *)
| Returns (v : val)       (* returns a value that is not a promise *)
| ReturnsPromise.         (* returns a promise that its own work settles later *)

Inductive reaction :=
| OnFinally (target : nat) (a : behaviour)
    (* [() => { try { res(action()) } catch (e) { rej(e) } }] of the
       executor of promise [target], registered by [last.finally] *)
| Adopt (target : nat).
    (* [res(thenable)]: [target] follows the promise it was resolved with *)

Inductive job :=
| RunFinally (target : nat) (a : behaviour)
| RunAdopt (target : nat) (o : settlement).

Record promise := mkPromise {
  p_state : option settlement;      (* [None]: pending *)
  p_reactions : list reaction;
  p_external : bool                 (* created by an action, not by the queue *)
}.

Inductive qevent :=
| Submitted (p : nat) (a : behaviour)     (* [run(action)] returned promise [p] *)
| Started (p : nat) (returned : option nat)  (* the action behind [p] was called *)
| Settled (p : nat) (o : settlement).     (* promise [p] settled *)

Record machine := mkMachine {
  heap : list promise;
  jobs : list job;          (* microtasks, oldest first *)
  last : nat;               (* the variable [last] of the closure *)
  log : list qevent         (* chronological *)
}.

#[global] Instance settlement_eq_dec : EqDecision settlement.
Proof. solve_decision. Defined.
#[global] Instance behaviour_eq_dec : EqDecision behaviour.
Proof. solve_decision. Defined.
#[global] Instance qevent_eq_dec : EqDecision qevent.
Proof. solve_decision. Defined.

(** [let last = Promise.resolve()] *)
Definition taskQueue : machine :=
  mkMachine [mkPromise (Some (Fulfilled 0)) [] false] [] 0 [].

Definition note (e : qevent) (m : machine) : machine :=
  mkMachine (heap m) (jobs m) (last m) (log m ++ [e]).

(** A new pending promise. *)
Definition alloc (external : bool) (m : machine) : nat * machine :=
  (length (heap m),
   mkMachine (heap m ++ [mkPromise None [] external]) (jobs m) (last m) (log m)).

Definition to_job (o : settlement) (r : reaction) : job :=
  match r with
  | OnFinally target a => RunFinally target a
  | Adopt target => RunAdopt target o
  end.

(** Settling a pending promise schedules its reactions; settling a settled
    promise does nothing. *)
Definition settle (p : nat) (o : settlement) (m : machine) : machine :=
  match heap m !! p with
  | Some c =>
      match p_state c with
      | None =>
          mkMachine (<[p := mkPromise (Some o) [] (p_external c)]> (heap m))
                    (jobs m ++ map (to_job o) (p_reactions c))
                    (last m) (log m ++ [Settled p o])
      | Some _ => m
      end
  | None => m
  end.

(** [p.finally(cb)] and [p.then(..)]: a reaction on a settled promise is
    scheduled at once, on a pending one it is stored. *)
Definition subscribe (p : nat) (r : reaction) (m : machine) : machine :=
  match heap m !! p with
  | Some c =>
      match p_state c with
      | Some o => mkMachine (heap m) (jobs m ++ [to_job o r]) (last m) (log m)
      | None =>
          mkMachine
            (<[p := mkPromise None (p_reactions c ++ [r]) (p_external c)]> (heap m))
            (jobs m) (last m) (log m)
      end
  | None => m
  end.

(** The closure returned by [taskQueue()]:
    [!action ? last : last = new Promise((res, rej) => last.finally(..))]. *)
Definition run (action : option behaviour) (m : machine) : nat * machine :=
  match action with
  | None => (last m, m)
  | Some a =>
      let '(p, m1) := alloc false m in
      let m2 := subscribe (last m) (OnFinally p a) m1 in
      (p, mkMachine (heap m2) (jobs m2) p (log m2 ++ [Submitted p a]))
  end.

(** One microtask. *)
Definition exec (j : job) (m : machine) : machine :=
  match j with
  | RunFinally p a =>
      match a with
      | Throws e => settle p (Rejected e) (note (Started p None) m)
      | Returns v => settle p (Fulfilled v) (note (Started p None) m)
      | ReturnsPromise =>
          let '(q, m1) := alloc true m in
          subscribe q (Adopt p) (note (Started p (Some q)) m1)
      end
  | RunAdopt p o => settle p o m
  end.

Definition tick (m : machine) : machine :=
  match jobs m with
  | [] => m
  | j :: rest => exec j (mkMachine (heap m) rest (last m) (log m))
  end.

(** The asynchronous work behind promise [q] finishes with outcome [o]. *)
Definition complete (q : nat) (o : settlement) (m : machine) : machine :=
  match heap m !! q with
  | Some c => if p_external c then settle q o m else m
  | None => m
  end.

Inductive input :=
| Call (action : option behaviour)
| Complete (q : nat) (o : settlement)
| Microtask.

Definition step (i : input) (m : machine) : machine :=
  match i with
  | Call action => snd (run action m)
  | Complete q o => complete q o m
  | Microtask => tick m
  end.

Definition steps (inputs : list input) (m : machine) : machine :=
  foldl (fun m i => step i m) m inputs.

(** Running microtasks until the queue of microtasks is empty, at most
    [fuel] of them. *)
Fixpoint drain (fuel : nat) (m : machine) : machine :=
  match fuel with
  | 0 => m
  | S fuel' => match jobs m with
               | [] => m
               | _ :: _ => drain fuel' (tick m)
               end
  end.

(** Projections of the log. *)
Definition submitted (l : list qevent) : list nat :=
  omap (fun e => match e with Submitted p _ => Some p | _ => None end) l.
Definition started (l : list qevent) : list nat :=
  omap (fun e => match e with Started p _ => Some p | _ => None end) l.
(** *** The queue as a chain of actions

    The promises the queue has handed out, in submission order, fall into
    the settled ones, at most one whose action has been called and is not
    settled yet, and the ones still waiting behind it. *)

Inductive front :=
| Free                                        (* no action is under way *)
| Awaiting (p q : nat)                        (* [p] follows the pending [q] *)
| Adopting (p q : nat) (o : settlement).      (* [q] settled, [p] not yet *)

Record view := mkView {
  v_next : nat;                               (* the next fresh promise *)
  v_done : list (nat * settlement);
  v_front : front;
  v_waiting : list (nat * behaviour);
  v_log : list qevent
}.

Definition front_ids (f : front) : list nat :=
  match f with
  | Free => []
  | Awaiting p _ | Adopting p _ _ => [p]
  end.

Definition chain (v : view) : list nat :=
  (fst <$> v_done v) ++ front_ids (v_front v) ++ (fst <$> v_waiting v).

(** The reaction by which the first waiting action hangs on its
    predecessor. *)
Definition hook (ws : list (nat * behaviour)) : list reaction :=
  match ws with
  | [] => []
  | (w, a) :: _ => [OnFinally w a]
  end.

Definition view_jobs (v : view) : list job :=
  match v_front v with
  | Free => to_job (Fulfilled 0) <$> hook (v_waiting v)
  | Awaiting _ _ => []
  | Adopting p _ o => [RunAdopt p o]
  end.

(** What an input does to the chain. *)
Definition astep (i : input) (v : view) : view :=
  match i with
  | Call None => v
  | Call (Some a) =>
      mkView (S (v_next v)) (v_done v) (v_front v)
             (v_waiting v ++ [(v_next v, a)])
             (v_log v ++ [Submitted (v_next v) a])
  | Complete x o =>
      match v_front v with
      | Awaiting p q =>
          if decide (x = q)
          then mkView (v_next v) (v_done v) (Adopting p q o) (v_waiting v)
                      (v_log v ++ [Settled q o])
          else v
      | _ => v
      end
  | Microtask =>
      match v_front v with
      | Free =>
          match v_waiting v with
          | [] => v
          | (w, a) :: rest =>
              match a with
              | Throws e =>
                  mkView (v_next v) (v_done v ++ [(w, Rejected e)]) Free rest
                         (v_log v ++ [Started w None; Settled w (Rejected e)])
              | Returns x =>
                  mkView (v_next v) (v_done v ++ [(w, Fulfilled x)]) Free rest
                         (v_log v ++ [Started w None; Settled w (Fulfilled x)])
              | ReturnsPromise =>
                  mkView (S (v_next v)) (v_done v) (Awaiting w (v_next v)) rest
                         (v_log v ++ [Started w (Some (v_next v))])
              end
          end
      | Awaiting _ _ => v
      | Adopting p q o =>
          mkView (v_next v) (v_done v ++ [(p, o)]) Free (v_waiting v)
                 (v_log v ++ [Settled p o])
      end
  end.

Definition view0 : view := mkView 1 [] Free [] [].

(** The promises of the waiting actions: pending, each holding the hook of
    the next. *)
Fixpoint waiting_ok (h : list promise) (ws : list (nat * behaviour)) : Prop :=
  match ws with
  | [] => True
  | (w, _) :: rest =>
      h !! w = Some (mkPromise None (hook rest) false) /\ waiting_ok h rest
  end.

(** The machine is in the state the chain describes. *)
Record Repr (m : machine) (v : view) : Prop := mkRepr {
  r_next : length (heap m) = v_next v;
  r_log : log m = v_log v;
  r_last : last m = List.last (chain v) 0;
  r_jobs : jobs m = view_jobs v;
  r_zero : heap m !! 0 = Some (mkPromise (Some (Fulfilled 0)) [] false);
  r_done : forall p o, (p, o) ∈ v_done v ->
             heap m !! p = Some (mkPromise (Some o) [] false);
  r_front :
    match v_front v with
    | Free => True
    | Awaiting p q =>
        heap m !! p = Some (mkPromise None (hook (v_waiting v)) false)
        /\ heap m !! q = Some (mkPromise None [Adopt p] true)
    | Adopting p q o =>
        heap m !! p = Some (mkPromise None (hook (v_waiting v)) false)
        /\ heap m !! q = Some (mkPromise (Some o) [] true)
    end;
  r_waiting : waiting_ok (heap m) (v_waiting v);
  r_ext : forall x c, heap m !! x = Some c -> p_external c = true ->
            is_Some (p_state c) \/ exists p, v_front v = Awaiting p x
}.

(** The chain is made of distinct promises that exist; the promise an
    action returned is not one of the queue's. *)
Definition wf (v : view) : Prop :=
  NoDup (0 :: chain v)
  /\ (forall x, x ∈ chain v -> x < v_next v)
  /\ 0 < v_next v
  /\ match v_front v with
     | Free => True
     | Awaiting _ q | Adopting _ q _ => q < v_next v /\ q ∉ 0 :: chain v
     end.

(** The future of an action settles as the action itself does. *)
Definition outcome_ok (l : list qevent) (a : behaviour) (p : nat)
    (o : settlement) : Prop :=
  match a with
  | Throws e => o = Rejected e
  | Returns x => o = Fulfilled x
  | ReturnsPromise => exists q, Started p (Some q) ∈ l /\ Settled q o ∈ l
  end.

(** Whenever an action is called, the futures of all actions called before
    it have settled, and so have the promises those actions returned. *)
Definition Gate (l : list qevent) : Prop :=
  forall l1 p r l2, l = l1 ++ Started p r :: l2 ->
    forall p', p' ∈ started l1 ->
      exists o, Settled p' o ∈ l1
                /\ forall q, Started p' (Some q) ∈ l1 -> Settled q o ∈ l1.

(** Every future settles as its own action does. *)
Definition Iso (l : list qevent) : Prop :=
  forall p a o, Submitted p a ∈ l -> Settled p o ∈ l -> outcome_ok l a p o.

(** The promises an event mentions. *)
Definition event_ids (e : qevent) : list nat :=
  match e with
  | Submitted p _ => [p]
  | Started p None => [p]
  | Started p (Some q) => [p; q]
  | Settled p _ => [p]
  end.

(** What the log of a chain looks like. *)
Record LogInv (v : view) : Prop := mkLogInv {
  l_sub : submitted (v_log v) = chain v;
  l_start : started (v_log v) = (fst <$> v_done v) ++ front_ids (v_front v);
  l_done : forall p o, (p, o) ∈ v_done v ->
             Settled p o ∈ v_log v
             /\ forall q, Started p (Some q) ∈ v_log v -> Settled q o ∈ v_log v;
  l_front :
    match v_front v with
    | Free => True
    | Awaiting p q =>
        Started p (Some q) ∈ v_log v /\ Submitted p ReturnsPromise ∈ v_log v
    | Adopting p q o =>
        Started p (Some q) ∈ v_log v /\ Submitted p ReturnsPromise ∈ v_log v
        /\ Settled q o ∈ v_log v
    end;
  l_waiting : forall w a, (w, a) ∈ v_waiting v -> Submitted w a ∈ v_log v;
  l_gate : Gate (v_log v);
  l_iso : Iso (v_log v);
  l_ids : forall e x, e ∈ v_log v -> x ∈ event_ids e -> x < v_next v
}.

(** The microtasks still to run before the queue is quiet. *)
Definition pendingTicks (v : view) : nat :=
  2 * length (v_waiting v)
  + match v_front v with Adopting _ _ _ => 1 | _ => 0 end.

(** [x] is before [y] in [l]. *)
Definition before (l : list nat) (x y : nat) : Prop :=
  exists l1 l2 l3, l = l1 ++ x :: l2 ++ y :: l3.

(** The promises that have settled, in order. *)
Definition settledIds (l : list qevent) : list nat :=
  omap (fun e => match e with Settled p _ => Some p | _ => None end) l.

(** The actions under way: called, and their future not settled. *)
Definition underWay (l : list qevent) : list nat :=
  filter (fun p => p ∉ settledIds l) (started l).

(** The action does not return a promise. *)
Definition synchronous (a : behaviour) : bool :=
  match a with ReturnsPromise => false | _ => true end.


(** A run with three actions: the first throws, the second returns a
    promise that is later rejected, the third returns a value. *)
Definition demo : list input :=
  [Call (Some (Throws 7)); Call (Some ReturnsPromise); Call (Some (Returns 1));
   Microtask; Microtask; Microtask; Complete 4 (Rejected 9);
   Microtask; Microtask; Microtask].

End TaskQueue.

(** ** A concrete host and concrete worlds

    A small host that behaves as the real one is described: disabling an
    extension closes its settings tab, enabling it adds it back; any of the
    three fallible calls can be told to fail. *)

Definition testHost (failDisable failEnable failOpen : option error) : HostApi := {|
  disablePlugin p a :=
    match failDisable with
    | Some e => (Thrown e, a)
    | None => (Returned tt, set_activeTab None (set_hostEnabled (hostEnabled a ∖ {[p]}) a))
    end;
  enablePlugin p a :=
    match failEnable with
    | Some e => (Thrown e, a)
    | None => (Returned tt, set_hostEnabled ({[p]} ∪ hostEnabled a) a)
    end;
  openTabById p a :=
    match failOpen with
    | Some e => (Thrown e, a)
    | None => (Returned (Some (mkTab p 0 0)), set_activeTab (Some (mkTab p 0 0)) a)
    end;
  scrollTo t left top a :=
    (Returned tt, set_activeTab (Some (mkTab (tab_id t) top left)) a);
  startWatchPath path w := {[path]} ∪ w
|}.

Definition okHost : HostApi := testHost None None None.

Definition fooDir : string := ".obsidian/plugins/foo".
Definition fooMain : string := ".obsidian/plugins/foo/main.js".
Definition statAt (t : Z) : Stat := mkStat file 0 t 10.

(** A vault with one extension, [foo], opted in through a [.hotreload]
    marker and enabled in the host; [main.js] was last modified at [t]. *)
Definition fooApp (t : Z) : App := {|
  manifests := [("foo", mkManifest "foo" fooDir)];
  pluginFolder := ".obsidian/plugins";
  hostEnabled := {["foo"]};
  activeTab := None;
  settingShown := false;
  watchers := ∅;
  fs_stat := fun path =>
    if bool_decide (path = fooMain) then Some (statAt t)
    else if bool_decide (path = fooDir) then Some (mkStat folder 0 0 0)
    else None;
  fs_exists := fun path => bool_decide (path = fooDir +:+ "/.hotreload");
  fs_symlink := fun _ => false;
  watchNeeded := true;
  apiVersion16 := true
|}.

(** The same vault after [foo] has been uninstalled. *)
Definition emptyApp : App := {|
  manifests := [];
  pluginFolder := ".obsidian/plugins";
  hostEnabled := ∅;
  activeTab := None;
  settingShown := false;
  watchers := ∅;
  fs_stat := fun _ => None;
  fs_exists := fun _ => false;
  fs_symlink := fun _ => false;
  watchNeeded := true;
  apiVersion16 := true
|}.

(** The plugin instance after its first scan of [fooApp 100]
    (see [fooState_scanned]). *)
Definition fooState : state := {|
  settings := defaultSettings;
  statCache := {[fooMain := statAt 100]};
  reindexer := debounce TGetPluginNames 250;
  pluginReloaders := ∅;
  pluginNames := {["foo" := "foo"]};
  enabledPlugins := {["foo"]};
  queue := [];
  app := set_watchers {[fooDir]} (fooApp 100);
  localStorage := ∅;
  now := 0;
  trace := [HostStartWatch fooDir]
|}.

(** A vault where [foo] is gone from the manifests while the plugin still
    knows it and holds a cached stat of its [main.js]. *)
Definition staleState : state :=
  set_app emptyApp fooState.


(** The vault of [foo] with its settings tab open and scrolled. *)
Definition fooTabState : state :=
  set_app (mkApp [("foo", mkManifest "foo" fooDir)] ".obsidian/plugins" {["foo"]}
             (Some (mkTab "foo" 30 5)) true {[fooDir]}
             (fs_stat (fooApp 100)) (fs_exists (fooApp 100)) (fun _ => false)
             true true)
          fooState.

(** ** Observations on states and traces *)

(** The events appended to the trace between two states. *)
Definition newEvents (st st' : state) : list event :=
  drop (length (trace st)) (trace st').

(** The extensions for which [requestReload] was called, in order. *)
Definition reloadRequests (tr : list event) : list string :=
  omap (fun e => match e with CallRequestReload p => Some p | _ => None end) tr.

(** The reloaders created by [debounce] for an extension. *)
Definition reloadersCreated (plugin : string) (tr : list event) : nat :=
  length (filter (fun e => e = DebounceCreated (TReload plugin) 750) tr).

(** The actions submitted to the queue, in order. *)
Definition enqueued (tr : list event) : list task :=
  omap (fun e => match e with Enqueued t => Some t | _ => None end) tr.

(** The notices shown to the user, in order. *)
Definition notices (tr : list event) : list string :=
  omap (fun e => match e with NoticeShown msg => Some msg | _ => None end) tr.

(** The writes to the debug flag, in order. *)
Definition isDebugWrite (e : event) : bool :=
  match e with
  | LsSet k _ | LsRemove k => bool_decide (k = debugKey)
  | _ => false
  end.
Definition debugWrites (tr : list event) : list event :=
  filter (fun e => isDebugWrite e = true) tr.

(** The write that puts the debug flag back to a previous value. *)
Definition restoreWrite (old : option string) : event :=
  match old with
  | Some v => LsSet debugKey v
  | None => LsRemove debugKey
  end.

(** A tracked file really changed: it has a cached stat, and the cached
    modification time differs from the new one. *)
Definition realChange (cache : gmap string Stat) (path : string) (s : Stat) : Prop :=
  exists old, cache !! path = Some old /\ mtime old <> mtime s.

#[global] Instance realChange_dec cache path s : Decision (realChange cache path s).
Proof.
  unfold realChange. destruct (cache !! path) as [old|] eqn:E.
  - destruct (decide (mtime old = mtime s)) as [Heq|Hne].
    + right. intros (o & Ho & Hd). congruence.
    + left. eauto.
  - right. intros (o & Ho & _). congruence.
Defined.

(** The requests one tracked file gives rise to. *)
Definition requestsFor (plugin : string) (cache : gmap string Stat)
    (path : string) (stat : option Stat) : list string :=
  match stat with
  | Some s => if decide (realChange cache path s) then [plugin] else []
  | None => []
  end.

(** [st'] has the world and the opt-in set of [st]; its mapping has no new
    entries and its cache no fewer paths. *)
Definition extends (st st' : state) : Prop :=
  app st' = app st /\ enabledPlugins st' = enabledPlugins st
  /\ (forall d p, pluginNames st' !! d = Some p -> pluginNames st !! d = Some p)
  /\ (forall path, is_Some (statCache st !! path) -> is_Some (statCache st' !! path)).

(** The marker test of the scan. *)
Definition optedIn (a : App) (m : PluginManifest) : bool :=
  fs_exists a (dir m +:+ "/.git") || fs_exists a (dir m +:+ "/.hotreload").



(** [c] occurs in [s]. *)
Fixpoint occurs (c : ascii) (s : string) : bool :=
  match s with
  | EmptyString => false
  | String a s' => Ascii.eqb a c || occurs c s'
  end.

(** A single path segment. *)
Definition segment (s : string) : Prop := occurs JS.slash s = false.

(** The calls into the host's lifecycle and settings panel. *)
Definition isHostCall (e : event) : bool :=
  match e with
  | HostDisable _ | HostEnable _ | HostOpenTab _ | HostScrollTo _ _ _ => true
  | _ => false
  end.

(** A computation that only calls into the host: it changes [App] and
    appends host calls to the trace, nothing else. *)
Definition hostOnly {A} (m : M A) : Prop :=
  forall st, exists a tr,
    snd (m st) = set_app a (emits tr st)
    /\ Forall (fun e => isHostCall e = true) tr.

(** The events of a reload of an extension the host has enabled: [trb] are
    the host calls of the [try] block, [r] its outcome. *)
Definition reloadEvents (plugin : string) (api16 show : bool)
    (old : option string) (trb : list event) (r : outcome unit) : list event :=
  [HostDisable plugin; ConsoleDebug ["disabled"; plugin]; LsSet debugKey "1"]
  ++ (if api16 then [PatchInstalled plugin] else [])
  ++ trb
  ++ [restoreWrite old]
  ++ (if api16 then [PatchRemoved plugin] else [])
  ++ match r with
     | Returned _ =>
         ConsoleDebug [reloadedMessage plugin]
         :: (if show then [NoticeShown (reloadedMessage plugin)] else [])
     | Thrown _ => []
     end.


(** The trace records one creation for each stored reloader and none for
    the others, and a stored reloader wraps the reload of its own key with
    the cooldown of the use site. *)
Definition reloadersInv (st : state) : Prop :=
  forall plugin,
    reloadersCreated plugin (trace st)
      = match pluginReloaders st !! plugin with Some _ => 1 | None => 0 end
    /\ (forall d, pluginReloaders st !! plugin = Some d ->
          d_action d = TReload plugin /\ d_timeout d = 750%Z).

(** No reloader is created in these events. *)
Definition noCreation (tr : list event) : Prop :=
  Forall (fun e => forall t z, e <> DebounceCreated t z) tr.

(** [st'] has the reloaders of [st] and created none. *)
Definition quiet (st st' : state) : Prop :=
  pluginReloaders st' = pluginReloaders st
  /\ exists tr, trace st' = trace st ++ tr /\ noCreation tr.

(** The state [st] with another [localStorage], another [App] and more
    events. *)
Definition shaped (st : state) (ls : gmap string string) (a : App)
    (tr : list event) : state :=
  mkState (settings st) (statCache st) (reindexer st) (pluginReloaders st)
    (pluginNames st) (enabledPlugins st) (queue st) a ls (now st)
    (trace st ++ tr).

(** The cached stat of every cached path that still exists has the
    modification time the file has now. *)
Definition upToDate (st : state) : Prop :=
  forall path old s,
    statCache st !! path = Some old -> fs_stat (app st) path = Some s ->
    mtime s = mtime old.

(** [st'] differs from [st] in the plugin's cache and mapping at most. *)
Definition calm (st st' : state) : Prop :=
  app st' = app st /\ trace st' = trace st /\ queue st' = queue st
  /\ pluginReloaders st' = pluginReloaders st
  /\ enabledPlugins st' = enabledPlugins st.

(** The watchers started, in order. *)
Definition watchesStarted (tr : list event) : list string :=
  omap (fun e => match e with HostStartWatch p => Some p | _ => None end) tr.

(** [path] is a folder. *)
Definition isFolder (a : App) (path : string) : Prop :=
  exists s, fs_stat a path = Some s /\ stat_type s = folder.

(** [a'] is [a] with other watchers. *)
Definition watchersOnly (a a' : App) : Prop := a' = set_watchers (watchers a') a.



(** Between [st] and [st'] the only actions submitted to the queue are
    reloads of [plugin], and they are at the end of the queue. *)
Definition submitsOwn (plugin : string) (st st' : state) : Prop :=
  exists tr, trace st' = trace st ++ tr
             /\ Forall (fun t => t = TReload plugin) (enqueued tr)
             /\ queue st' = queue st ++ enqueued tr.

(** The steps of a reload that change which code of the extension is
    loaded, and how. *)
Definition isLifecycle (e : event) : bool :=
  match e with
  | HostDisable _ | HostEnable _ | PatchInstalled _ | PatchRemoved _ => true
  | _ => false
  end.
Definition lifecycle (tr : list event) : list event :=
  filter (fun e => isLifecycle e = true) tr.

(** The calls into the host's settings panel. *)
Definition isTabCall (e : event) : bool :=
  match e with
  | HostOpenTab _ | HostScrollTo _ _ _ => true
  | _ => false
  end.
Definition tabCalls (tr : list event) : list event :=
  filter (fun e => isTabCall e = true) tr.

(** What the [try] block of a reload does in the settings panel, for the
    active tab [tab] captured before the extension was disabled. *)
Definition tabRestore (plugin : string) (reopen : bool) (tab : option SettingTab)
    (rest : list event) : Prop :=
  rest = []
  \/ (reopen = true
      /\ exists t, tab = Some t /\ tab_id t = plugin
         /\ (rest = [HostOpenTab plugin]
             \/ exists t', rest = [HostOpenTab plugin;
                                   HostScrollTo t' (scrollLeft t) (scrollTop t)])).

(** A path the version checker looks at: a tracked file in some directory. *)
Definition trackedPath (path : string) : Prop :=
  exists d file, file ∈ trackedFiles /\ path = d +:+ "/" +:+ file.

(** [c'] is [c] after stats of tracked paths were stored, one after the
    other. *)
Definition grows (c c' : gmap string Stat) : Prop :=
  exists l : list (string * Stat),
    Forall (fun kv => trackedPath (fst kv)) l
    /\ c' = foldl (fun c kv => <[fst kv := snd kv]> c) c l.

(** * Properties *)

Lemma fooState_scanned :
  getPluginNames (H := okHost) (construct (fooApp 100) ∅ 0) = fooState.
Proof. vm_compute. reflexivity. Qed.

(** ** Traces only grow *)

Lemma newEvents_app st st' tr :
  trace st' = trace st ++ tr -> newEvents st st' = tr.
Proof. unfold newEvents. intros ->. by rewrite drop_app_length. Qed.

Lemma newEvents_same st st' : trace st' = trace st -> newEvents st st' = [].
Proof. unfold newEvents. intros ->. apply drop_all. Qed.

Lemma reloadRequests_app tr1 tr2 :
  reloadRequests (tr1 ++ tr2) = reloadRequests tr1 ++ reloadRequests tr2.
Proof. apply omap_app. Qed.

(** ** The gate of [requestReload] and what it leaves alone *)

Section RequestReload.

Lemma requestReload_closed plugin st :
  plugin ∉ enabledPlugins st -> requestReload plugin st = st.
Proof. intros Hn. unfold requestReload. by rewrite decide_False. Qed.

Lemma requestReload_trace plugin st :
  exists tr, trace (requestReload plugin st) = trace st ++ tr
             /\ reloadRequests tr = [].
Proof.
  unfold requestReload. case_decide; [|exists []; by rewrite app_nil_r].
  destruct (pluginReloaders st !! plugin) as [d|]; cbn -[call];
    destruct (call _ _) as [[] d']; cbn.
  - by exists [Enqueued (d_action d')].
  - exists []. by rewrite app_nil_r.
  - exists [DebounceCreated (TReload plugin) 750; Enqueued (d_action d')].
    by rewrite <- app_assoc.
  - by exists [DebounceCreated (TReload plugin) 750].
Qed.

Lemma requestReload_frame plugin st :
  let st' := requestReload plugin st in
  app st' = app st /\ statCache st' = statCache st
  /\ pluginNames st' = pluginNames st /\ enabledPlugins st' = enabledPlugins st
  /\ localStorage st' = localStorage st /\ now st' = now st
  /\ settings st' = settings st /\ reindexer st' = reindexer st.
Proof.
  unfold requestReload. case_decide; [|done].
  destruct (pluginReloaders st !! plugin) as [d|]; cbn -[call];
    destruct (call _ _) as [[] d']; done.
Qed.

End RequestReload.

(** ** The version checker *)

Section CheckVersion.

Lemma checkFile_frame plugin path stat st :
  let st' := checkFile plugin path stat st in
  app st' = app st /\ pluginNames st' = pluginNames st
  /\ enabledPlugins st' = enabledPlugins st
  /\ localStorage st' = localStorage st /\ now st' = now st
  /\ settings st' = settings st /\ reindexer st' = reindexer st.
Proof.
  destruct stat as [s|]; [|done]. cbn.
  destruct (match statCache st !! path with Some _ => _ | None => _ end); [|done].
  cbn. by destruct (requestReload_frame plugin (emit (CallRequestReload plugin) st))
    as (-> & _ & -> & -> & -> & -> & -> & ->).
Qed.

Lemma changed_realChange (cache : gmap string Stat) path s :
  match cache !! path with
  | Some old => negb (bool_decide (mtime s = mtime old))
  | None => false
  end = bool_decide (realChange cache path s).
Proof.
  destruct (cache !! path) as [old|] eqn:E.
  - destruct (decide (mtime s = mtime old)) as [Heq|Hne].
    + rewrite (bool_decide_eq_true_2 (mtime s = mtime old)) by done. symmetry.
      apply bool_decide_eq_false_2. intros (o & Ho & Hd). congruence.
    + rewrite (bool_decide_eq_false_2 (mtime s = mtime old)) by done. symmetry.
      apply bool_decide_eq_true_2. exists old. split; congruence.
  - symmetry. apply bool_decide_eq_false_2. intros (o & Ho & _). congruence.
Qed.

(** One tracked file, from whatever state the plugin is in when the stat
    arrives. *)
Lemma checkFile_spec plugin path s st :
  let st' := checkFile plugin path (Some s) st in
  reloadRequests (newEvents st st') = requestsFor plugin (statCache st) path (Some s)
  /\ statCache st' = <[path := s]> (statCache st)
  /\ (exists tr, trace st' = trace st ++ tr).
Proof.
  cbn. rewrite changed_realChange. unfold requestsFor.
  destruct (decide (realChange (statCache st) path s)) as [Hc|Hc].
  - rewrite bool_decide_eq_true_2 by done. cbn.
    destruct (requestReload_trace plugin (emit (CallRequestReload plugin) st))
      as (tr & Htr & Hreq).
    destruct (requestReload_frame plugin (emit (CallRequestReload plugin) st))
      as (_ & Hc' & _).
    cbn in Htr. rewrite <- app_assoc in Htr. split_and!.
    + erewrite newEvents_app by (cbn; exact Htr).
      rewrite reloadRequests_app, Hreq. done.
    + by rewrite Hc'.
    + eauto.
  - rewrite bool_decide_eq_false_2 by done. cbn. split_and!; [|done|].
    + by erewrite newEvents_app by (cbn; symmetry; apply app_nil_r).
    + exists []. by rewrite app_nil_r.
Qed.

Lemma trackedPaths_distinct d : d +:+ "/main.js" <> d +:+ "/styles.css".
Proof. induction d as [|c d IH]; cbn; [done|]. intros [=]. done. Qed.

End CheckVersion.

Section CheckVersionWhole.

Lemma requestsFor_ext plugin (c1 c2 : gmap string Stat) path stat :
  c1 !! path = c2 !! path ->
  requestsFor plugin c1 path stat = requestsFor plugin c2 path stat.
Proof.
  intros E. destruct stat as [s|]; [|done]. cbn.
  destruct (decide (realChange c1 path s)) as [H1|H1],
           (decide (realChange c2 path s)) as [H2|H2]; try done;
    unfold realChange in *; rewrite E in *; done.
Qed.

Lemma checkFile_opt plugin path stat st :
  let st' := checkFile plugin path stat st in
  (exists tr, trace st' = trace st ++ tr
              /\ reloadRequests tr = requestsFor plugin (statCache st) path stat)
  /\ statCache st' = match stat with
                     | Some s => <[path := s]> (statCache st)
                     | None => statCache st
                     end.
Proof.
  destruct stat as [s|].
  - destruct (checkFile_spec plugin path s st) as (Hreq & Hc & tr & Htr).
    split; [|done]. exists tr. split; [done|].
    by rewrite (newEvents_app _ _ _ Htr) in Hreq.
  - cbn. split; [|done]. exists []. by rewrite app_nil_r.
Qed.

Lemma checkVersion_unfold plugin m st :
  manifest_of plugin (app st) = Some m -> dir m <> "" ->
  checkVersion plugin st =
    let p1 := dir m +:+ "/" +:+ "main.js" in
    let p2 := dir m +:+ "/" +:+ "styles.css" in
    let st1 := checkFile plugin p1 (fs_stat (app st) p1) st in
    checkFile plugin p2 (fs_stat (app st) p2) st1.
Proof.
  intros Hm Hd. unfold checkVersion. rewrite Hm.
  rewrite bool_decide_eq_false_2 by done. cbn.
  by destruct (checkFile_frame plugin (dir m +:+ "/" +:+ "main.js")
                 (fs_stat (app st) (dir m +:+ "/" +:+ "main.js")) st) as (-> & _).
Qed.

End CheckVersionWhole.

(** C3. For an extension with a manifest entry (one that names its
    directory) and each of its two tracked files, [checkVersion] requests a
    reload exactly when the file has a cached stat whose modification time
    differs from the stat just read; in every other case where the stat
    succeeds, also when nothing was cached, it only updates the cache.  The
    comparison is made against the cache as it was before the new stat is
    stored.  The first conjunct is the step that follows [await stat(path)],
    from any state; the others describe a whole call. *)
Theorem checkVersion_requests_reload_iff_mtime_differs plugin m st :
  manifest_of plugin (app st) = Some m -> dir m <> "" ->
  let path file := dir m +:+ "/" +:+ file in
  let st' := checkVersion plugin st in
  (forall file s st0,
      let st1 := checkFile plugin (path file) (Some s) st0 in
      reloadRequests (newEvents st0 st1)
        = (if decide (realChange (statCache st0) (path file) s)
           then [plugin] else [])
      /\ statCache st1 = <[path file := s]> (statCache st0))
  /\ reloadRequests (newEvents st st')
       = requestsFor plugin (statCache st) (path "main.js")
                     (fs_stat (app st) (path "main.js"))
         ++ requestsFor plugin (statCache st) (path "styles.css")
                        (fs_stat (app st) (path "styles.css"))
  /\ (forall file, file ∈ trackedFiles ->
        statCache st' !! path file
          = match fs_stat (app st) (path file) with
            | Some s => Some s
            | None => statCache st !! path file
            end)
  /\ (forall p, p <> path "main.js" -> p <> path "styles.css" ->
        statCache st' !! p = statCache st !! p).
Proof.
  intros Hm Hd path st'. split.
  { intros file s st0.
    destruct (checkFile_spec plugin (path file) s st0) as (H1 & H2 & _).
    split; [exact H1|exact H2]. }
  subst st'. rewrite (checkVersion_unfold _ _ _ Hm Hd). cbn zeta.
  change (dir m +:+ "/" +:+ "main.js") with (path "main.js").
  change (dir m +:+ "/" +:+ "styles.css") with (path "styles.css").
  set (s1 := fs_stat (app st) (path "main.js")).
  set (s2 := fs_stat (app st) (path "styles.css")).
  destruct (checkFile_opt plugin (path "main.js") s1 st)
    as ((tr1 & Ht1 & Hr1) & Hc1).
  set (st1 := checkFile plugin (path "main.js") s1 st) in *.
  destruct (checkFile_opt plugin (path "styles.css") s2 st1)
    as ((tr2 & Ht2 & Hr2) & Hc2).
  set (st2 := checkFile plugin (path "styles.css") s2 st1) in *.
  assert (Hne : path "main.js" <> path "styles.css")
    by apply trackedPaths_distinct.
  assert (Hpre : statCache st1 !! path "styles.css"
                 = statCache st !! path "styles.css").
  { rewrite Hc1. destruct s1; [|done]. by rewrite lookup_insert_ne. }
  split_and!.
  - rewrite (newEvents_app st st2 (tr1 ++ tr2)).
    + rewrite reloadRequests_app, Hr1, Hr2.
      by rewrite (requestsFor_ext _ _ _ _ _ Hpre).
    + by rewrite Ht2, Ht1, app_assoc.
  - intros file Hin. unfold trackedFiles in Hin.
    apply elem_of_cons in Hin as [->|Hin];
      [|apply elem_of_cons in Hin as [->|Hin]; [|by apply elem_of_nil in Hin]].
    + rewrite Hc2, Hc1. fold s1.
      destruct s2; [rewrite lookup_insert_ne by done|];
        (destruct s1; [by rewrite lookup_insert_eq|done]).
    + rewrite Hc2. fold s2.
      destruct s2; [by rewrite lookup_insert_eq|]. exact Hpre.
  - intros p Hp1 Hp2. rewrite Hc2, Hc1.
    destruct s2; [rewrite lookup_insert_ne by done|];
      (destruct s1; [by rewrite lookup_insert_ne|done]).
Qed.

(** The theorem above at a concrete change: [main.js] of [foo] goes from
    modification time 100 to 200. *)
Lemma checkVersion_requests_reload_iff_mtime_differs_witness :
  manifest_of "foo" (fooApp 200) = Some (mkManifest "foo" fooDir)
  /\ fooDir <> ""
  /\ reloadRequests
       (newEvents (set_app (fooApp 200) fooState)
                  (checkVersion "foo" (set_app (fooApp 200) fooState)))
     = ["foo"].
Proof.
  split; [reflexivity|]. split; [discriminate|].
  destruct (checkVersion_requests_reload_iff_mtime_differs
              "foo" (mkManifest "foo" fooDir) (set_app (fooApp 200) fooState)
              eq_refl ltac:(discriminate)) as (_ & Hreq & _).
  rewrite Hreq. vm_compute. reflexivity.
Defined.

(** ** What a version check or a rescan can change *)

Section Frames.

Context `{HostApi}.

Lemma extends_refl st : extends st st.
Proof. by repeat split. Qed.

Lemma extends_trans st1 st2 st3 :
  extends st1 st2 -> extends st2 st3 -> extends st1 st3.
Proof.
  intros (A1 & E1 & N1 & C1) (A2 & E2 & N2 & C2). split_and!.
  - congruence.
  - congruence.
  - eauto.
  - eauto.
Qed.

Lemma checkFile_extends plugin path stat st :
  extends st (checkFile plugin path stat st).
Proof.
  destruct (checkFile_frame plugin path stat st) as (A & N & E & _).
  destruct (checkFile_opt plugin path stat st) as (_ & C).
  split_and!; [done|done|by rewrite N|].
  intros p Hp. rewrite C. destruct stat as [s|]; [|done].
  destruct (decide (path = p)) as [->|Hne].
  - rewrite lookup_insert_eq. eauto.
  - by rewrite lookup_insert_ne.
Qed.

Lemma checkVersion_extends plugin st : extends st (checkVersion plugin st).
Proof.
  assert (Hdel : extends st (set_pluginNames (delete plugin (pluginNames st)) st)).
  { split_and!; try done. cbn. intros d p Hd.
    apply lookup_delete_Some in Hd. tauto. }
  unfold checkVersion. destruct (manifest_of plugin (app st)) as [m|]; [|done].
  case_bool_decide; [done|]. cbn.
  eapply extends_trans; apply checkFile_extends.
Qed.

Lemma foldl_checkVersion_extends ps st :
  extends st (foldl (fun st plugin => checkVersion plugin st) st ps).
Proof.
  revert st. induction ps as [|p ps IH]; intros st; cbn.
  - apply extends_refl.
  - eapply extends_trans; [apply checkVersion_extends|apply IH].
Qed.

Lemma checkVersions_extends st : extends st (checkVersions st).
Proof. apply foldl_checkVersion_extends. Qed.

(** [watch] registers a watcher and nothing else. *)
Lemma watch_frame path st :
  let st' := watch path st in
  manifests (app st') = manifests (app st)
  /\ fs_exists (app st') = fs_exists (app st)
  /\ fs_stat (app st') = fs_stat (app st)
  /\ statCache st' = statCache st /\ pluginNames st' = pluginNames st
  /\ enabledPlugins st' = enabledPlugins st
  /\ pluginReloaders st' = pluginReloaders st /\ queue st' = queue st.
Proof.
  unfold watch. case_decide; [done|].
  destruct (fs_stat (app st) path) as [[[] ? ? ?]|]; try done. cbn.
  by destruct (watchNeeded (app st) || fs_symlink (app st) path).
Qed.

Lemma scan_spec ms st :
  let '(plugins, enabled, st1) := foldl scanManifest (∅, ∅, st) ms in
  (forall d p, plugins !! d = Some p ->
               exists m, m ∈ ms /\ basename (dir m) = d /\ id m = p)
  /\ (forall p, p ∈ enabled <-> exists m, m ∈ ms /\ id m = p
                                          /\ optedIn (app st) m = true)
  /\ manifests (app st1) = manifests (app st)
  /\ fs_exists (app st1) = fs_exists (app st)
  /\ statCache st1 = statCache st.
Proof.
  induction ms as [|m ms IH] using rev_ind.
  - cbn. split_and!; try done.
    intros p. split; [set_solver|]. intros (m & Hm & _). by apply elem_of_nil in Hm.
  - rewrite foldl_app. cbn [foldl].
    destruct (foldl scanManifest (∅, ∅, st) ms) as [[plugins enabled] st1].
    destruct IH as (IHp & IHe & IHm & IHx & IHc).
    destruct (watch_frame (dir m) st1) as (Wm & Wx & _ & Wc & _).
    cbn in Wm, Wx, Wc. unfold scanManifest. split_and!.
    + intros d p Hd. destruct (decide (basename (dir m) = d)) as [<-|Hne].
      * rewrite lookup_insert_eq in Hd. injection Hd as <-.
        exists m. split; [|done].
        apply elem_of_app; right. by apply list_elem_of_singleton.
      * rewrite lookup_insert_ne in Hd by done.
        destruct (IHp _ _ Hd) as (m' & Hin & Hb & Hi).
        exists m'. split; [apply elem_of_app; by left|done].
    + intros p. fold (optedIn (app (watch (dir m) st1)) m).
      assert (Ho : optedIn (app (watch (dir m) st1)) m = optedIn (app st) m).
      { unfold optedIn. by rewrite Wx, IHx. }
      rewrite Ho. split.
      * intros Hp. destruct (optedIn (app st) m) eqn:Eo.
        -- apply elem_of_union in Hp as [Hp|Hp].
           ++ apply elem_of_singleton in Hp as ->. exists m.
              split; [apply elem_of_app; right; apply list_elem_of_singleton; done|done].
           ++ destruct (proj1 (IHe p) Hp) as (m' & Hin & Hi & Hy). exists m'.
              split; [apply elem_of_app; by left|done].
        -- destruct (proj1 (IHe p) Hp) as (m' & Hin & Hi & Hy). exists m'.
           split; [apply elem_of_app; by left|done].
      * intros (m' & Hin & Hi & Hy).
        apply elem_of_app in Hin as [Hin|Hin].
        -- assert (Hpe : p ∈ enabled) by (apply IHe; eauto).
           destruct (optedIn (app st) m); [apply elem_of_union; by right|done].
        -- apply list_elem_of_singleton in Hin as ->. rewrite Hy.
           apply elem_of_union. left. by apply elem_of_singleton.
    + congruence.
    + congruence.
    + congruence.
Qed.

(** After a rescan: the mapping is drawn from the current manifests, the
    opt-in set is the set of ids with a marker, and every path that was
    cached still is. *)
Lemma getPluginNames_spec st :
  let st' := getPluginNames st in
  (forall d p, pluginNames st' !! d = Some p ->
     exists m, m ∈ (snd <$> manifests (app st)) /\ basename (dir m) = d /\ id m = p)
  /\ (forall p, p ∈ enabledPlugins st' <->
        exists m, m ∈ (snd <$> manifests (app st)) /\ id m = p
                  /\ optedIn (app st) m = true)
  /\ (forall path, is_Some (statCache st !! path) -> is_Some (statCache st' !! path)).
Proof.
  unfold getPluginNames.
  pose proof (scan_spec (snd <$> manifests (app st)) st) as Hs.
  destruct (foldl scanManifest (∅, ∅, st) (snd <$> manifests (app st)))
    as [[plugins enabled] st1].
  destruct Hs as (Hp & He & Hm & Hx & Hc).
  destruct (checkVersions_extends
              (set_enabledPlugins enabled (set_pluginNames plugins st1)))
    as (A & E & N & C).
  split_and!.
  - intros d p Hd. apply N in Hd. cbn in Hd. eauto.
  - intros p. rewrite E. cbn. apply He.
  - intros path Hpath. apply C. cbn. by rewrite Hc.
Qed.

End Frames.

(** ** Uninstalled extensions *)


(** The key that [checkVersion] deletes is the extension id, while the
    mapping is keyed by directory name: an extension living in a directory of
    another name keeps its entry. *)
Example checkVersion_deletes_by_id :
  let st := set_pluginNames {["foo-dev" := "foo"]} staleState in
  pluginNames (checkVersion "foo" st) !! "foo-dev" = Some "foo".
Proof. vm_compute. reflexivity. Qed.

Section Uninstalled.

Context `{HostApi}.


End Uninstalled.


(** ** Extensions that are not opted in *)

Section OptIn.

Context `{HostApi}.

Lemma checkFile_closed plugin path stat st :
  plugin ∉ enabledPlugins st ->
  let st' := checkFile plugin path stat st in
  queue st' = queue st /\ pluginReloaders st' = pluginReloaders st
  /\ reindexer st' = reindexer st
  /\ enqueued (newEvents st st') = []
  /\ enabledPlugins st' = enabledPlugins st /\ app st' = app st.
Proof.
  intros Hn. destruct stat as [s|]; cbn.
  2:{ split_and!; try done. by rewrite newEvents_same. }
  destruct (match statCache st !! path with Some _ => _ | None => _ end); cbn.
  - rewrite requestReload_closed by done. cbn. split_and!; try done.
    by rewrite (newEvents_app _ _ [CallRequestReload plugin]).
  - split_and!; try done. by rewrite newEvents_same.
Qed.

(** C10. For an extension id that is not in the opt-in set,
    [requestReload] returns at once and changes nothing; hence a version
    check of that extension, whatever the stats say, submits nothing to the
    queue and creates or fires no reloader.  The opt-in set is the one
    recorded by the last scan: the ids whose directory held a [.git] or a
    [.hotreload] marker. *)
Theorem requestReload_needs_opt_in plugin st :
  plugin ∉ enabledPlugins st ->
  requestReload plugin st = st
  /\ (let st' := checkVersion plugin st in
      queue st' = queue st /\ pluginReloaders st' = pluginReloaders st
      /\ reindexer st' = reindexer st /\ enqueued (newEvents st st') = [])
  /\ (forall st0, plugin ∈ enabledPlugins (getPluginNames st0) <->
        exists m, m ∈ (snd <$> manifests (app st0)) /\ id m = plugin
                  /\ optedIn (app st0) m = true).
Proof.
  intros Hn. split; [by apply requestReload_closed|]. split.
  - unfold checkVersion. destruct (manifest_of plugin (app st)) as [m|].
    2:{ cbn. split_and!; try done. by rewrite newEvents_same. }
    case_bool_decide.
    { cbn. split_and!; try done. by rewrite newEvents_same. }
    cbn [foldl trackedFiles].
    set (p1 := dir m +:+ "/" +:+ "main.js").
    set (p2 := dir m +:+ "/" +:+ "styles.css").
    destruct (checkFile_closed plugin p1 (fs_stat (app st) p1) st Hn)
      as (Q1 & R1 & I1 & E1 & O1 & A1).
    destruct (checkFile_opt plugin p1 (fs_stat (app st) p1) st)
      as ((tr1 & T1 & _) & _).
    set (st1 := checkFile plugin p1 (fs_stat (app st) p1) st) in *.
    assert (Hn1 : plugin ∉ enabledPlugins st1) by (by rewrite O1).
    destruct (checkFile_closed plugin p2 (fs_stat (app st1) p2) st1 Hn1)
      as (Q2 & R2 & I2 & E2 & O2 & A2).
    destruct (checkFile_opt plugin p2 (fs_stat (app st1) p2) st1)
      as ((tr2 & T2 & _) & _).
    set (st2 := checkFile plugin p2 (fs_stat (app st1) p2) st1) in *.
    split_and!; try congruence.
    rewrite (newEvents_app _ _ _ T1) in E1.
    rewrite (newEvents_app _ _ _ T2) in E2.
    rewrite (newEvents_app st st2 (tr1 ++ tr2)).
    + unfold enqueued in *. by rewrite omap_app, E1, E2.
    + by rewrite T2, T1, app_assoc.
  - intros st0. by destruct (getPluginNames_spec st0) as (_ & He & _).
Qed.

End OptIn.

(** The theorem above for [foo] without its marker: the change of
    [main.js] from 100 to 200 submits nothing. *)
Lemma requestReload_needs_opt_in_witness :
  let st := set_enabledPlugins ∅ (set_app (fooApp 200) fooState) in
("foo" ∉ enabledPlugins st)
  /\ requestReload "foo" st = st
  /\ queue (checkVersion "foo" st) = queue st.
Proof.
  intros st.
  assert (Hn : "foo" ∉ enabledPlugins st) by (cbn; set_solver).
  destruct (requestReload_needs_opt_in (H := okHost) "foo" st Hn)
    as (H1 & (H2 & _) & _).
  split; [exact Hn|]. split; [exact H1|exact H2].
Defined.

(** ** Reloading an extension that the host has disabled *)

Section ReloadDisabled.

Context `{HostApi}.

Lemma reload_skips_disabled plugin st :
  plugin ∉ hostEnabled (app st) -> reload plugin st = (Returned tt, st).
Proof. intros Hn. unfold reload. by rewrite decide_False. Qed.

(** C8. For an extension id that is not in the host's set of enabled
    plugins, [reload] returns without doing anything: the state, the trace
    included, is unchanged, so nothing was disabled, enabled, written to the
    debug flag or shown. *)
Theorem reload_disabled_is_noop plugin st :
  plugin ∉ hostEnabled (app st) ->
  reload plugin st = (Returned tt, st).
Proof. intros Hn. unfold reload. by rewrite decide_False. Qed.

End ReloadDisabled.

Lemma reload_disabled_is_noop_witness :
  ("foo" ∉ hostEnabled (app staleState))
  /\ reload (H := okHost) "foo" staleState = (Returned tt, staleState).
Proof.
  assert (Hn : "foo" ∉ hostEnabled (app staleState)) by (cbn; set_solver).
  split; [exact Hn|]. exact (reload_disabled_is_noop (H := okHost) "foo" staleState Hn).
Defined.

(** ** Paths *)

Section Paths.

Lemma append_assoc (a b c : string) : (a +:+ b) +:+ c = a +:+ (b +:+ c).
Proof.
  induction a as [|x a IH]; [done|].
  change (String x ((a +:+ b) +:+ c) = String x (a +:+ b +:+ c)).
  by rewrite IH.
Qed.

Lemma split_nonempty sep s : JS.split sep s <> [].
Proof.
  destruct s as [|c s]; cbn; [done|].
  destruct (Ascii.eqb c sep); [done|]. by destruct (JS.split sep s).
Qed.

Lemma split_segment sep s : occurs sep s = false -> JS.split sep s = [s].
Proof.
  induction s as [|c s IH]; cbn; [done|].
  intros Ho. apply orb_false_iff in Ho as [Hc Hs].
  rewrite Hc, (IH Hs). done.
Qed.

Lemma append_nil (s : string) : "" +:+ s = s.
Proof. reflexivity. Qed.

Lemma append_cons c (a s : string) : String c a +:+ s = String c (a +:+ s).
Proof. reflexivity. Qed.






End Paths.

(** ** The change event router *)

Section Router.

Context `{HostApi}.





End Router.



(** ** The reload orchestrator *)

Section Reload.

Context `{HostApi}.

Lemma emits_nil st : emits [] st = st.
Proof. destruct st. unfold emits. cbn. by rewrite app_nil_r. Qed.

Lemma hostOnly_ret {A} (a : A) : hostOnly (mret a).
Proof.
  intros st. exists (app st), []. split; [|constructor].
  cbn. rewrite emits_nil. by destruct st.
Qed.

Lemma hostOnly_gets {A} (f : state -> A) : hostOnly (gets f).
Proof.
  intros st. exists (app st), []. split; [|constructor].
  cbn. rewrite emits_nil. by destruct st.
Qed.

Lemma hostOnly_host {A} e (op : App -> outcome A * App) :
  isHostCall e = true -> hostOnly (host e op).
Proof.
  intros He st. unfold host. destruct (op (app st)) as [r a].
  exists a, [e]. split; [done|]. by repeat constructor.
Qed.

Lemma hostOnly_bind {A B} (m : M A) (k : A -> M B) :
  hostOnly m -> (forall a, hostOnly (k a)) -> hostOnly (m ≫= k).
Proof.
  intros Hm Hk st. destruct (Hm st) as (a1 & tr1 & E1 & F1).
  unfold mbind, M_bind, bind. destruct (m st) as [[x|e] st1]; cbn in *.
  - destruct (Hk x st1) as (a2 & tr2 & E2 & F2).
    exists a2, (tr1 ++ tr2). split; [|by apply Forall_app].
    rewrite E2, E1. unfold set_app, emits. cbn. by rewrite app_assoc.
  - exists a1, tr1. done.
Qed.

Lemma enableAndReopen_hostOnly plugin sTop sLeft active :
  hostOnly (enableAndReopen plugin sTop sLeft active).
Proof.
  unfold enableAndReopen.
  apply hostOnly_bind; [by apply hostOnly_host|]. intros _.
  apply hostOnly_bind; [apply hostOnly_gets|]. intros [].
  - apply hostOnly_bind; [by apply hostOnly_host|]. intros [t|].
    + by apply hostOnly_host.
    + apply hostOnly_ret.
  - apply hostOnly_ret.
Qed.

(** The scroll offsets and the flag captured at the start of a reload. *)
Lemma reload_unfold plugin st :
  plugin ∈ hostEnabled (app st) ->
  reload plugin st =
    let '(sTop, sLeft, active) :=
      match activeTab (app st) with
      | Some t => if bool_decide (tab_id t = plugin)
                  then (scrollTop t, scrollLeft t, true)
                  else (0%Z, 0%Z, false)
      | None => (0%Z, 0%Z, false)
      end in
    match disablePlugin plugin (app st) with
    | (Thrown e, a1) => (Thrown e, set_app a1 (emit (HostDisable plugin) st))
    | (Returned _, a1) =>
        let st2 := emit (ConsoleDebug ["disabled"; plugin])
                        (set_app a1 (emit (HostDisable plugin) st)) in
        let old := localStorage st !! debugKey in
        let st3 := setItem debugKey "1" st2 in
        let st4 := if apiVersion16 a1
                   then emit (PatchInstalled plugin) st3 else st3 in
        let '(r, st5) := enableAndReopen plugin sTop sLeft active st4 in
        let st6 := match old with
                   | None => removeItem debugKey st5
                   | Some v => setItem debugKey v st5
                   end in
        let st7 := if apiVersion16 a1
                   then emit (PatchRemoved plugin) st6 else st6 in
        match r with
        | Returned _ => (Returned tt, showNotice (reloadedMessage plugin) st7)
        | Thrown e => (Thrown e, st7)
        end
    end.
Proof.
  intros He. unfold reload. rewrite decide_True by done.
  destruct (match activeTab (app st) with Some _ => _ | None => _ end)
    as [[sTop sLeft] active].
  unfold mbind, M_bind, bind, host, lift, gets, try_finally, restoreDebug,
    preventSourcemapStripping, mret, M_ret, ret.
  destruct (disablePlugin plugin (app st)) as [[[]|e] a1]; [|done].
  cbn -[enableAndReopen showNotice setItem removeItem emit].
  change (app (setItem debugKey "1"
                 (emit (ConsoleDebug ["disabled"; plugin])
                    (set_app a1 (emit (HostDisable plugin) st))))) with a1.
  change (localStorage (emit (ConsoleDebug ["disabled"; plugin])
                          (set_app a1 (emit (HostDisable plugin) st))))
    with (localStorage st).
  unfold mbind, M_bind, bind, lift.
  destruct (apiVersion16 a1);
    destruct (enableAndReopen _ _ _ _ _) as [[[]|e] st5];
    destruct (localStorage st !! debugKey); reflexivity.
Qed.

Lemma debugWrites_app tr1 tr2 :
  debugWrites (tr1 ++ tr2) = debugWrites tr1 ++ debugWrites tr2.
Proof. apply filter_app. Qed.


Lemma hostCalls_quiet tr :
  Forall (fun e => isHostCall e = true) tr ->
  debugWrites tr = [] /\ notices tr = []
  /\ (forall msg, ConsoleDebug msg ∉ tr) /\ (forall e, ConsoleError e ∉ tr).
Proof.
  induction 1 as [|e tr He Htr (IH1 & IH2 & IH3 & IH4)].
  - split_and!; try done; intros ? Hin; by apply elem_of_nil in Hin.
  - split_and!.
    + unfold debugWrites in *. rewrite filter_cons, IH1.
      destruct e; try discriminate He; done.
    + unfold notices in *. cbn. rewrite IH2. by destruct e.
    + intros msg Hin. apply elem_of_cons in Hin as [<-|Hin]; [done|].
      by apply (IH3 msg).
    + intros x Hin. apply elem_of_cons in Hin as [<-|Hin]; [done|].
      by apply (IH4 x).
Qed.

Lemma restore_localStorage (ls : gmap string string) k v :
  match ls !! k with
  | Some old => <[k := old]> (<[k := v]> ls)
  | None => delete k (<[k := v]> ls)
  end = ls.
Proof.
  destruct (ls !! k) as [old|] eqn:E.
  - rewrite insert_insert_eq. by apply insert_id.
  - by apply delete_insert_id.
Qed.

Lemma shaped_emit e st ls a tr :
  emit e (shaped st ls a tr) = shaped st ls a (tr ++ [e]).
Proof. unfold emit, emits, shaped. cbn. by rewrite <- app_assoc. Qed.

Lemma shaped_emits tr' st ls a tr :
  emits tr' (shaped st ls a tr) = shaped st ls a (tr ++ tr').
Proof. unfold emits, shaped. cbn. by rewrite <- app_assoc. Qed.

Lemma shaped_set_app a' st ls a tr :
  set_app a' (shaped st ls a tr) = shaped st ls a' tr.
Proof. reflexivity. Qed.

Lemma shaped_setItem k v st ls a tr :
  setItem k v (shaped st ls a tr) = shaped st (<[k:=v]> ls) a (tr ++ [LsSet k v]).
Proof. unfold setItem. by rewrite shaped_emit. Qed.

Lemma shaped_removeItem k st ls a tr :
  removeItem k (shaped st ls a tr) = shaped st (delete k ls) a (tr ++ [LsRemove k]).
Proof. unfold removeItem. by rewrite shaped_emit. Qed.

Lemma shaped_showNotice msg st ls a tr :
  showNotice msg (shaped st ls a tr)
  = shaped st ls a
      (tr ++ ConsoleDebug [msg]
          :: (if shouldShowReloadNotice (settings st)
              then [NoticeShown msg] else [])).
Proof.
  unfold showNotice. rewrite !shaped_emit.
  change (settings (shaped st ls a (tr ++ [ConsoleDebug [msg]])))
    with (settings st).
  destruct (shouldShowReloadNotice (settings st)).
  - by rewrite <- app_assoc.
  - done.
Qed.

Lemma shaped_shaped st ls a tr ls' a' tr' :
  shaped (shaped st ls a tr) ls' a' tr' = shaped st ls' a' (tr ++ tr').
Proof. unfold shaped. cbn. by rewrite <- app_assoc. Qed.

Lemma shaped_localStorage st ls a tr : localStorage (shaped st ls a tr) = ls.
Proof. reflexivity. Qed.

Lemma shaped_settings st ls a tr : settings (shaped st ls a tr) = settings st.
Proof. reflexivity. Qed.

Lemma emit_shaped e st : emit e st = shaped st (localStorage st) (app st) [e].
Proof. reflexivity. Qed.

Lemma emits_shaped tr st : emits tr st = shaped st (localStorage st) (app st) tr.
Proof. reflexivity. Qed.

Create Rewrite HintDb shaped.
#[local] Hint Rewrite shaped_emit shaped_emits shaped_set_app shaped_setItem
  shaped_removeItem shaped_showNotice shaped_shaped shaped_localStorage
  shaped_settings emit_shaped emits_shaped : shaped.

Lemma reload_events plugin st :
  plugin ∈ hostEnabled (app st) ->
  exists a' tr,
    snd (reload plugin st) = set_app a' (emits tr st)
    /\ match disablePlugin plugin (app st) with
       | (Thrown e, _) =>
           fst (reload plugin st) = Thrown e /\ tr = [HostDisable plugin]
       | (Returned _, a1) =>
           exists trb,
             Forall (fun e => isHostCall e = true) trb
             /\ tr = reloadEvents plugin (apiVersion16 a1)
                     (shouldShowReloadNotice (settings st))
                     (localStorage st !! debugKey) trb (fst (reload plugin st))
       end.
Proof.
  intros He. rewrite (reload_unfold _ _ He).
  destruct (match activeTab (app st) with Some _ => _ | None => _ end)
    as [[sTop sLeft] active].
  destruct (disablePlugin plugin (app st)) as [[[]|e] a1].
  2:{ exists a1, [HostDisable plugin]. done. }
  cbn zeta.
  set (st4 := if apiVersion16 a1 then _ else _).
  destruct (enableAndReopen_hostOnly plugin sTop sLeft active st4)
    as (a5 & trb & E5 & Fb).
  destruct (enableAndReopen plugin sTop sLeft active st4) as [r st5].
  cbn [fst snd] in E5. subst st5 st4.
  exists a5. eexists. split; [|exists trb; split; [exact Fb|reflexivity]].
  pose proof (restore_localStorage (localStorage st) debugKey "1") as Hls.
  unfold reloadEvents, restoreWrite.
  destruct (apiVersion16 a1), (localStorage st !! debugKey) as [old|],
    r as [[]|e]; cbn [fst snd]; autorewrite with shaped; rewrite Hls;
    destruct (shouldShowReloadNotice (settings st));
    rewrite ?app_nil_r; repeat rewrite <- app_assoc; reflexivity.
Qed.

Lemma newEvents_emits st a tr : newEvents st (set_app a (emits tr st)) = tr.
Proof. by apply newEvents_app. Qed.

Lemma reloadEvents_debugWrites plugin api16 show old trb r :
  Forall (fun e => isHostCall e = true) trb ->
  debugWrites (reloadEvents plugin api16 show old trb r)
  = [LsSet debugKey "1"; restoreWrite old].
Proof.
  intros Fb. destruct (hostCalls_quiet _ Fb) as (Hd & _).
  unfold reloadEvents. rewrite !debugWrites_app, Hd.
  by destruct api16, old, r as [[]|e], show.
Qed.


Lemma reloadSlot_unfold plugin st :
  reloadSlot plugin st =
    match reload plugin st with
    | (Returned _, st') => (Returned tt, st')
    | (Thrown e, st') => (Returned tt, emit (ConsoleError e) st')
    end.
Proof.
  unfold reloadSlot, catch. by destruct (reload plugin st) as [[[]|e] st'].
Qed.

Lemma reload_frame plugin st :
  exists a tr, snd (reload plugin st) = set_app a (emits tr st).
Proof.
  destruct (decide (plugin ∈ hostEnabled (app st))) as [He|He].
  - destruct (reload_events plugin st He) as (a & tr & E & _). eauto.
  - rewrite (reload_skips_disabled _ _ He). exists (app st), [].
    cbn. rewrite emits_nil. by destruct st.
Qed.


(** C4 does not hold as stated: when the disable step throws, the debug flag
    is never written, so the restoring write does not happen once but not
    at all. *)
Lemma reload_disable_failure_skips_restore :
  let st := fooState in
  let '(r, st') := reload (H := testHost (Some "disable failed") None None)
                          "foo" st in
  ("foo" ∈ hostEnabled (app st))
  /\ r = Thrown "disable failed"
  /\ debugWrites (newEvents st st') = []
  /\ debugWrites (newEvents st st')
       <> [LsSet debugKey "1"; restoreWrite (localStorage st !! debugKey)].
Proof. vm_compute. split_and!; [set_solver|done|done|done]. Qed.

(** C4 (amended). A reload leaves the debug flag with the value it had
    before.  When the extension is enabled in the host and the disable step
    succeeds, the flag is set and then restored exactly once, whatever the
    outcome of the enable and panel-restore steps; when the disable step
    throws, or the extension is not enabled, the flag is not written at all.
    A failure thrown inside [reload] is caught and logged by the queue slot,
    which always fulfils, and the queue goes on to its next action. *)
Theorem reload_restores_debug_flag plugin st :
  let '(r, st') := reload plugin st in
  localStorage st' = localStorage st
  /\ debugWrites (newEvents st st') =
       (if decide (plugin ∈ hostEnabled (app st)) then
          match fst (disablePlugin plugin (app st)) with
          | Returned _ =>
              [LsSet debugKey "1"; restoreWrite (localStorage st !! debugKey)]
          | Thrown _ => []
          end
        else [])
  /\ fst (reloadSlot plugin st) = Returned tt
  /\ (forall e, r = Thrown e ->
        snd (reloadSlot plugin st) = emit (ConsoleError e) st')
  /\ (forall rest, queue st = TReload plugin :: rest ->
        fst (runNext st) = Some (Returned tt)
        /\ queue (snd (runNext st)) = rest).
Proof.
  pose proof (reloadSlot_unfold plugin st) as Hslot.
  assert (Hnext : forall rest, queue st = TReload plugin :: rest ->
            fst (runNext st) = Some (Returned tt)
            /\ queue (snd (runNext st)) = rest).
  { intros rest Hq. unfold runNext. rewrite Hq. cbn [runTask].
    rewrite (reloadSlot_unfold plugin (set_queue rest st)).
    destruct (reload_frame plugin (set_queue rest st)) as (a & tr & E).
    destruct (reload plugin (set_queue rest st)) as [[[]|e] st1];
      cbn in E; subst st1; done. }
  destruct (decide (plugin ∈ hostEnabled (app st))) as [He|He].
  2:{ rewrite (reload_skips_disabled _ _ He) in *. rewrite Hslot.
      split_and!; try done. by rewrite newEvents_same. }
  destruct (reload_events plugin st He) as (a & tr & E & Hd).
  destruct (reload plugin st) as [r st']. cbn [fst snd] in E, Hd. subst st'.
  rewrite newEvents_emits, Hslot.
  destruct (disablePlugin plugin (app st)) as [[[]|e] a1]; cbn [fst].
  - destruct Hd as (trb & Fb & ->). rewrite (reloadEvents_debugWrites _ _ _ _ _ _ Fb).
    split_and!; try done.
    + by destruct r as [[]|e].
    + by intros e ->.
  - destruct Hd as (-> & ->). by split_and!; [..|intros ? [= ->]|].
Qed.

End Reload.

(** The theorem above for a reload of [foo] whose enable step fails: the
    slot fulfils, and the queue is free for its next action. *)
Lemma reload_restores_debug_flag_witness :
  let st := run (TReload "foo") fooState in
  queue st = [TReload "foo"]
  /\ fst (reloadSlot (H := testHost None (Some "enable failed") None) "foo" st)
     = Returned tt
  /\ fst (runNext (H := testHost None (Some "enable failed") None) st)
     = Some (Returned tt)
  /\ queue (snd (runNext (H := testHost None (Some "enable failed") None) st))
     = [].
Proof.
  intros st.
  generalize (reload_restores_debug_flag
                (H := testHost None (Some "enable failed") None) "foo" st).
  destruct (reload "foo" st) as [r st'].
  intros (_ & _ & H3 & _ & H5).
  destruct (H5 [] eq_refl) as [H6 H7].
  split; [reflexivity|]. split; [exact H3|]. split; [exact H6|exact H7].
Defined.


(** ** One reloader per extension *)

Section Reloaders.

Context `{HostApi}.

Lemma reloadersCreated_app p tr1 tr2 :
  reloadersCreated p (tr1 ++ tr2) = reloadersCreated p tr1 + reloadersCreated p tr2.
Proof. unfold reloadersCreated. by rewrite filter_app, length_app. Qed.

Lemma noCreation_created p tr : noCreation tr -> reloadersCreated p tr = 0.
Proof.
  unfold reloadersCreated. induction 1 as [|e tr He Htr IH]; [done|].
  rewrite filter_cons. destruct (decide _) as [->|]; [|done].
  by destruct (He (TReload p) 750%Z).
Qed.

Lemma quiet_refl st : quiet st st.
Proof. split; [done|]. exists []. split; [by rewrite app_nil_r|constructor]. Qed.

Lemma quiet_trans st1 st2 st3 : quiet st1 st2 -> quiet st2 st3 -> quiet st1 st3.
Proof.
  intros (R1 & tr1 & T1 & N1) (R2 & tr2 & T2 & N2). split; [congruence|].
  exists (tr1 ++ tr2). split; [by rewrite T2, T1, app_assoc|by apply Forall_app].
Qed.

Lemma quiet_inv st st' : quiet st st' -> reloadersInv st -> reloadersInv st'.
Proof.
  intros (R & tr & T & N) Hinv p. rewrite R, T, reloadersCreated_app.
  rewrite (noCreation_created p tr N), Nat.add_0_r. apply Hinv.
Qed.

Lemma quiet_emits a tr st : noCreation tr -> quiet st (set_app a (emits tr st)).
Proof. intros N. split; [done|]. by exists tr. Qed.

Lemma call_keeps t d :
  d_action (snd (call t d)) = d_action d /\ d_timeout (snd (call t d)) = d_timeout d.
Proof. unfold call. by destruct (expire t (d_state d)). Qed.

Lemma run_quiet t st : quiet st (run t st).
Proof.
  split; [done|]. exists [Enqueued t]. split; [done|].
  repeat constructor. discriminate.
Qed.

Lemma quiet_same st st' :
  pluginReloaders st' = pluginReloaders st -> trace st' = trace st ->
  quiet st st'.
Proof.
  intros R T. split; [done|]. exists [].
  split; [by rewrite app_nil_r|constructor].
Qed.

Lemma reindexPlugins_quiet st : quiet st (reindexPlugins st).
Proof.
  unfold reindexPlugins. destruct (call _ _) as [[] d].
  - eapply quiet_trans; [|apply run_quiet]. by apply quiet_same.
  - by apply quiet_same.
Qed.

Lemma watch_quiet path st : quiet st (watch path st).
Proof.
  unfold watch. case_decide; [apply quiet_refl|].
  destruct (fs_stat (app st) path) as [[[] ? ? ?]|]; try apply quiet_refl.
  destruct (watchNeeded (app st) || fs_symlink (app st) path);
    [|apply quiet_refl].
  apply quiet_emits. repeat constructor. discriminate.
Qed.

Lemma inv_update st st' p d0 d :
  pluginReloaders st !! p = Some d0 ->
  pluginReloaders st' = <[p:=d]> (pluginReloaders st) ->
  trace st' = trace st ->
  d_action d = TReload p -> d_timeout d = 750%Z ->
  reloadersInv st -> reloadersInv st'.
Proof.
  intros E R T Ha Ht Hinv q. rewrite R, T.
  destruct (Hinv q) as [Hc Hd]. destruct (decide (p = q)) as [<-|Hne].
  - rewrite lookup_insert_eq. rewrite E in Hc. split; [done|].
    by intros ? [= <-].
  - by rewrite lookup_insert_ne.
Qed.

Lemma inv_create st st' p d :
  pluginReloaders st !! p = None ->
  pluginReloaders st' = <[p:=d]> (pluginReloaders st) ->
  trace st' = trace st ++ [DebounceCreated (TReload p) 750] ->
  d_action d = TReload p -> d_timeout d = 750%Z ->
  reloadersInv st -> reloadersInv st'.
Proof.
  intros E R T Ha Ht Hinv q. rewrite R, T, reloadersCreated_app.
  destruct (Hinv q) as [Hc Hd]. rewrite Hc.
  unfold reloadersCreated at 1. rewrite filter_cons, filter_nil.
  destruct (decide (p = q)) as [<-|Hne].
  - rewrite lookup_insert_eq, E. rewrite decide_True by done.
    split; [done|]. by intros ? [= <-].
  - rewrite lookup_insert_ne by done. rewrite decide_False by congruence.
    split; [|done]. cbn. lia.
Qed.

Lemma requestReload_inv plugin st :
  reloadersInv st -> reloadersInv (requestReload plugin st).
Proof.
  intros Hinv. unfold requestReload. case_decide; [|done].
  destruct (pluginReloaders st !! plugin) as [d|] eqn:E.
  - (* the stored reloader is called *)
    cbn -[call]. destruct (call_keeps (now st) d) as [Ka Kt].
    destruct (call (now st) d) as [fires d']. cbn [snd] in Ka, Kt.
    destruct (proj2 (Hinv plugin) d E) as [Ha Ht].
    assert (Hstored : reloadersInv
              (set_pluginReloaders (<[plugin:=d']> (pluginReloaders st)) st)).
    { apply (inv_update st _ plugin d d'); try done; congruence. }
    destruct fires; [|done].
    eapply quiet_inv; [apply run_quiet|done].
  - (* a reloader is created, stored and called *)
    cbn -[call].
    destruct (call_keeps (now st) (debounce (TReload plugin) 750)) as [Ka Kt].
    destruct (call (now st) (debounce (TReload plugin) 750)) as [fires d'].
    cbn [snd] in Ka, Kt.
    set (st1 := set_pluginReloaders
                  (<[plugin:=debounce (TReload plugin) 750]> (pluginReloaders st))
                  (emit (DebounceCreated (TReload plugin) 750) st)).
    assert (H1 : reloadersInv st1).
    { apply (inv_create st _ plugin (debounce (TReload plugin) 750)); done. }
    assert (Hstored : reloadersInv
              (set_pluginReloaders (<[plugin:=d']> (pluginReloaders st1)) st1)).
    { apply (inv_update st1 _ plugin (debounce (TReload plugin) 750) d');
        try done. apply lookup_insert_eq. }
    destruct fires; [|done].
    eapply quiet_inv; [apply run_quiet|done].
Qed.

Lemma checkFile_inv plugin path stat st :
  reloadersInv st -> reloadersInv (checkFile plugin path stat st).
Proof.
  intros Hinv. destruct stat as [s|]; [|done]. cbn.
  destruct (match statCache st !! path with Some _ => _ | None => _ end);
    [|done].
  assert (Hreq : reloadersInv
            (requestReload plugin (emit (CallRequestReload plugin) st))).
  { apply requestReload_inv. eapply quiet_inv; [|exact Hinv].
    apply (quiet_emits (app st) [CallRequestReload plugin] st).
    repeat constructor. discriminate. }
  exact Hreq.
Qed.

Lemma checkVersion_inv plugin st :
  reloadersInv st -> reloadersInv (checkVersion plugin st).
Proof.
  intros Hinv. unfold checkVersion.
  destruct (manifest_of plugin (app st)) as [m|]; [|done].
  case_bool_decide; [done|]. cbn. by do 2 apply checkFile_inv.
Qed.

Lemma checkVersions_inv st : reloadersInv st -> reloadersInv (checkVersions st).
Proof.
  unfold checkVersions. generalize (snd <$> map_to_list (pluginNames st)).
  intros ps. revert st. induction ps as [|p ps IH]; intros st Hinv; cbn;
    [done|]. apply IH. by apply checkVersion_inv.
Qed.

Lemma scan_quiet ms acc :
  quiet (snd acc) (snd (foldl scanManifest acc ms)).
Proof.
  revert acc. induction ms as [|m ms IH]; intros [[plugins enabled] st]; cbn.
  - apply quiet_refl.
  - eapply quiet_trans; [|apply IH]. cbn. apply watch_quiet.
Qed.

Lemma getPluginNames_inv st : reloadersInv st -> reloadersInv (getPluginNames st).
Proof.
  intros Hinv. unfold getPluginNames.
  pose proof (scan_quiet (snd <$> manifests (app st)) (∅, ∅, st)) as Hq.
  destruct (foldl scanManifest (∅, ∅, st) (snd <$> manifests (app st)))
    as [[plugins enabled] st1].
  cbn in Hq. apply checkVersions_inv.
  apply (quiet_inv st1); [by apply quiet_same|]. by apply (quiet_inv st).
Qed.

Lemma onFileChange_inv filename st :
  reloadersInv st -> reloadersInv (onFileChange filename st).
Proof.
  intros Hinv. unfold onFileChange.
  destruct (negb _); [done|].
  destruct (JS.pop (JS.split JS.slash filename)) as [base path].
  destruct (JS.pop path) as [d path'].
  destruct (_ && _); [by eapply quiet_inv; [apply watch_quiet|]|].
  destruct (negb _); [done|].
  destruct (_ || _); [by eapply quiet_inv; [apply reindexPlugins_quiet|]|].
  destruct (_ && _); [done|].
  destruct (knownPlugin d st); [|done]. by apply checkVersion_inv.
Qed.

Lemma hostCalls_noCreation tr :
  Forall (fun e => isHostCall e = true) tr -> noCreation tr.
Proof.
  intros Hf. eapply Forall_impl; [exact Hf|].
  intros e He t z ->. discriminate He.
Qed.

Lemma reload_quiet plugin st : quiet st (snd (reload plugin st)).
Proof.
  destruct (decide (plugin ∈ hostEnabled (app st))) as [He|He].
  2:{ rewrite (reload_skips_disabled _ _ He). apply quiet_refl. }
  destruct (reload_events plugin st He) as (a & tr & -> & Hd).
  apply quiet_emits.
  destruct (disablePlugin plugin (app st)) as [[[]|e] a1].
  - destruct Hd as (trb & Fb & ->). unfold reloadEvents.
    repeat apply Forall_app_2; try by apply hostCalls_noCreation.
    + repeat constructor; discriminate.
    + destruct (apiVersion16 a1); repeat constructor; discriminate.
    + repeat constructor. by destruct (localStorage st !! debugKey).
    + destruct (apiVersion16 a1); repeat constructor; discriminate.
    + destruct (fst (reload plugin st)); [|constructor].
      destruct (shouldShowReloadNotice (settings st));
        repeat constructor; discriminate.
  - destruct Hd as (_ & ->). repeat constructor. discriminate.
Qed.

Lemma runNext_inv st : reloadersInv st -> reloadersInv (snd (runNext st)).
Proof.
  intros Hinv. unfold runNext. destruct (queue st) as [|t rest]; [done|].
  assert (Hq : reloadersInv (set_queue rest st)) by done.
  destruct t as [|plugin]; cbn [runTask].
  - cbn. by apply getPluginNames_inv.
  - rewrite reloadSlot_unfold.
    pose proof (reload_quiet plugin (set_queue rest st)) as Hr.
    destruct (reload plugin (set_queue rest st)) as [[[]|e] st1]; cbn in *.
    + by eapply quiet_inv.
    + eapply quiet_inv; [|exact Hq]. eapply quiet_trans; [exact Hr|].
      apply (quiet_emits (app st1) [ConsoleError e] st1).
      repeat constructor. discriminate.
Qed.

Lemma step_inv i st : reloadersInv st -> reloadersInv (step i st).
Proof.
  intros Hinv. destruct i; cbn [step]; try done.
  - assert (Hs : reloadersInv (set_settings s (getPluginNames st)))
      by by apply getPluginNames_inv.
    by eapply quiet_inv; [apply watch_quiet|].
  - by apply onFileChange_inv.
  - by eapply quiet_inv; [apply reindexPlugins_quiet|].
  - by apply runNext_inv.
Qed.

Lemma steps_inv inputs st : reloadersInv st -> reloadersInv (steps inputs st).
Proof.
  unfold steps. revert st.
  induction inputs as [|i inputs IH]; intros st Hinv; cbn; [done|].
  apply IH. by apply step_inv.
Qed.

Lemma construct_inv a ls t0 : reloadersInv (construct a ls t0).
Proof. intros p. cbn. rewrite lookup_empty. done. Qed.


End Reloaders.


(** ** The debounced triggers *)

Section Debounced.







End Debounced.



(** Two saves of [main.js] of [foo] 10 ms apart: two reload requests, one
    reload submitted, and the queue slot runs one disable/enable cycle. *)
Example two_rapid_saves_one_reload :
  let st := steps (H := okHost)
              [HostChange (fun _ => fooApp 200); FileEvent fooMain; Elapse 10;
               HostChange (fun _ => fooApp 210); FileEvent fooMain] fooState in
  reloadRequests (newEvents fooState st) = ["foo"; "foo"]
  /\ queue st = [TReload "foo"]
  /\ filter (fun e => isHostCall e = true)
             (newEvents st (snd (runNext (H := okHost) st)))
     = [HostDisable "foo"; HostEnable "foo"].
Proof. vm_compute. done. Qed.

(** ** The serialized task queue *)

Module TaskQueueFacts.

Import TaskQueue.

Lemma submitted_app l1 l2 : submitted (l1 ++ l2) = submitted l1 ++ submitted l2.
Proof. apply omap_app. Qed.

Lemma started_app l1 l2 : started (l1 ++ l2) = started l1 ++ started l2.
Proof. apply omap_app. Qed.

Lemma elem_of_submitted p l : p ∈ submitted l <-> exists a, Submitted p a ∈ l.
Proof.
  unfold submitted. rewrite list_elem_of_omap. split.
  - intros ([] & Hin & [= <-]). eauto.
  - intros (a & Hin). by exists (Submitted p a).
Qed.

Lemma elem_of_started p l : p ∈ started l <-> exists r, Started p r ∈ l.
Proof.
  unfold started. rewrite list_elem_of_omap. split.
  - intros ([] & Hin & [= <-]). eauto.
  - intros (r & Hin). by exists (Started p r).
Qed.

(** In a log that submits each promise once, a promise has one action. *)
Lemma submitted_unique l p a a' :
  NoDup (submitted l) -> Submitted p a ∈ l -> Submitted p a' ∈ l -> a = a'.
Proof.
  induction l as [|e l IH]; intros Hnd H1 H2; [by apply elem_of_nil in H1|].
  apply elem_of_cons in H1 as [<-|H1];
    apply elem_of_cons in H2 as [E2|H2].
  - by injection E2.
  - cbn in Hnd. apply NoDup_cons in Hnd as [Hn _]. destruct Hn.
    apply elem_of_submitted. eauto.
  - subst e. cbn in Hnd. apply NoDup_cons in Hnd as [Hn _]. destruct Hn.
    apply elem_of_submitted. eauto.
  - apply IH; try done. destruct e; cbn in Hnd; try done.
    by apply NoDup_cons in Hnd as [_ ?].
Qed.

(** In a log that starts each action once, an action returned one thing. *)
Lemma started_unique l p r r' :
  NoDup (started l) -> Started p r ∈ l -> Started p r' ∈ l -> r = r'.
Proof.
  induction l as [|e l IH]; intros Hnd H1 H2; [by apply elem_of_nil in H1|].
  apply elem_of_cons in H1 as [<-|H1];
    apply elem_of_cons in H2 as [E2|H2].
  - by injection E2.
  - cbn in Hnd. apply NoDup_cons in Hnd as [Hn _]. destruct Hn.
    apply elem_of_started. eauto.
  - subst e. cbn in Hnd. apply NoDup_cons in Hnd as [Hn _]. destruct Hn.
    apply elem_of_started. eauto.
  - apply IH; try done. destruct e; cbn in Hnd; try done.
    by apply NoDup_cons in Hnd as [_ ?].
Qed.

Lemma wf_init : wf view0.
Proof.
  unfold wf, view0, chain. cbn. split_and!; try done.
  - apply NoDup_singleton.
  - intros x Hx. by apply elem_of_nil in Hx.
  - lia.
Qed.

Lemma wf_step i v : wf v -> wf (astep i v).
Proof.
  intros (Hnd & Hlt & Hpos & Hq).
  destruct i as [[a|]|x o|]; cbn [astep]; try done.
  - (* a new action joins the chain *)
    unfold wf, chain in *. cbn [v_next v_done v_front v_waiting] in *.
    rewrite fmap_app. cbn [fmap list_fmap fst].
    assert (Hfresh : v_next v ∉ 0 :: ((v_done v).*1 ++ front_ids (v_front v)
                                     ++ (v_waiting v).*1)).
    { intros Hin. apply elem_of_cons in Hin as [E|Hin]; [lia|].
      apply Hlt in Hin. lia. }
    split_and!.
    + rewrite !app_assoc. rewrite app_comm_cons.
      apply NoDup_app. split_and!.
      * by rewrite <- !app_assoc.
      * intros y Hy Hy'. apply list_elem_of_singleton in Hy' as ->.
        apply Hfresh. by rewrite <- !app_assoc in Hy.
      * apply NoDup_singleton.
    + intros y Hy. rewrite !app_assoc in Hy.
      apply elem_of_app in Hy as [Hy|Hy].
      * rewrite <- !app_assoc in Hy. apply Hlt in Hy. lia.
      * apply list_elem_of_singleton in Hy as ->. lia.
    + lia.
    + destruct (v_front v) as [|p q|p q o']; [done|..];
        (destruct Hq as [Hq1 Hq2]; split; [lia|]; intros Hin;
         rewrite !app_assoc, app_comm_cons in Hin;
         apply elem_of_app in Hin as [Hin|Hin];
         [apply Hq2; by rewrite <- !app_assoc in Hin
         |apply list_elem_of_singleton in Hin; lia]).
  - (* the awaited promise settles *)
    destruct (v_front v) as [|p q|p q o'] eqn:Ef; try done;
      try (by unfold wf; rewrite Ef).
    case_decide; [|by unfold wf; rewrite Ef].
    unfold wf, chain in *. cbn [v_next v_done v_front v_waiting] in *.
    by rewrite Ef in *.
  - (* a microtask *)
    destruct (v_front v) as [|p q|p q o'] eqn:Ef.
    + destruct (v_waiting v) as [|[w a] rest] eqn:Ew;
        [by unfold wf; rewrite Ef|].
      unfold wf, chain in *. rewrite Ef, Ew in *. cbn [front_ids] in *.
      cbn [fmap list_fmap fst List.app] in Hnd, Hlt.
      destruct a as [e|x|];
        cbn [v_next v_done v_front v_waiting front_ids] in *.
      * rewrite fmap_app. cbn [fmap list_fmap fst List.app].
        rewrite <- app_assoc. cbn [List.app]. done.
      * rewrite fmap_app. cbn [fmap list_fmap fst List.app].
        rewrite <- app_assoc. cbn [List.app]. done.
      * cbn [List.app]. split_and!; try done.
        -- intros y Hy. apply Hlt in Hy. lia.
        -- lia.
        -- lia.
        -- intros Hin. apply elem_of_cons in Hin as [E|Hin]; [lia|].
           apply Hlt in Hin. lia.
    + by unfold wf; rewrite Ef.
    + unfold wf, chain in *. rewrite Ef in *.
      cbn [v_next v_done v_front v_waiting front_ids] in *.
      rewrite fmap_app. cbn [fmap list_fmap fst List.app].
      rewrite <- app_assoc. cbn [List.app]. done.
Qed.

(** *** Settling and subscribing, by the state of the promise *)

Lemma settle_pending m p o rs ext :
  heap m !! p = Some (mkPromise None rs ext) ->
  settle p o m
  = mkMachine (<[p := mkPromise (Some o) [] ext]> (heap m))
              (jobs m ++ map (to_job o) rs) (last m) (log m ++ [Settled p o]).
Proof. intros E. unfold settle. by rewrite E. Qed.

Lemma settle_settled m p o c :
  heap m !! p = Some c -> is_Some (p_state c) -> settle p o m = m.
Proof. intros E [o' Ho]. unfold settle. by rewrite E, Ho. Qed.

Lemma subscribe_pending m p r rs ext :
  heap m !! p = Some (mkPromise None rs ext) ->
  subscribe p r m
  = mkMachine (<[p := mkPromise None (rs ++ [r]) ext]> (heap m))
              (jobs m) (last m) (log m).
Proof. intros E. unfold subscribe. by rewrite E. Qed.

Lemma subscribe_settled m p r o rs ext :
  heap m !! p = Some (mkPromise (Some o) rs ext) ->
  subscribe p r m
  = mkMachine (heap m) (jobs m ++ [to_job o r]) (last m) (log m).
Proof. intros E. unfold subscribe. by rewrite E. Qed.

(** *** The promises of the waiting actions *)

Lemma waiting_ok_lookup h ws w :
  waiting_ok h ws -> w ∈ ws.*1 ->
  exists rs, h !! w = Some (mkPromise None rs false).
Proof.
  induction ws as [|[w' a] ws IH]; cbn; intros Hok Hin;
    [by apply elem_of_nil in Hin|].
  destruct Hok as [Hw Hok]. apply elem_of_cons in Hin as [->|Hin]; eauto.
Qed.

Lemma waiting_ok_insert h ws x c :
  x ∉ ws.*1 -> waiting_ok h ws -> waiting_ok (<[x:=c]> h) ws.
Proof.
  induction ws as [|[w a] ws IH]; cbn; [done|]. intros Hx [Hw Hok].
  apply not_elem_of_cons in Hx as [Hne Hx]. split; [|by apply IH].
  by rewrite list_lookup_insert_ne.
Qed.

Lemma waiting_ok_alloc h ws c : waiting_ok h ws -> waiting_ok (h ++ [c]) ws.
Proof.
  induction ws as [|[w a] ws IH]; cbn; [done|]. intros [Hw Hok].
  split; [|by apply IH]. by apply lookup_app_l_Some.
Qed.

Lemma last_cons_cons {A} (x y : A) l d : List.last (x :: y :: l) d = List.last (y :: l) d.
Proof. reflexivity. Qed.

Lemma last_elem {A} (l : list A) d : l <> [] -> List.last l d ∈ l.
Proof.
  induction l as [|x l IH]; [done|]. intros _. destruct l as [|y l].
  - apply list_elem_of_here.
  - rewrite last_cons_cons. apply list_elem_of_further. by apply IH.
Qed.

(** A new action at the end of a non-empty line of waiting ones. *)
Lemma waiting_ok_snoc h ws p a :
  ws <> [] -> NoDup ws.*1 -> p = length h -> waiting_ok h ws ->
  waiting_ok (<[List.last ws.*1 0 := mkPromise None [OnFinally p a] false]>
                (h ++ [mkPromise None [] false]))
             (ws ++ [(p, a)]).
Proof.
  intros Hne Hnd -> Hok.
  assert (Hlt : forall w, w ∈ ws.*1 -> w < length h).
  { intros w Hw. destruct (waiting_ok_lookup _ _ _ Hok Hw) as (rs & E).
    by apply lookup_lt_Some in E. }
  induction ws as [|[w b] ws IH]; [done|]. clear Hne.
  destruct Hok as [Hw Hok]. apply NoDup_cons in Hnd as [Hnw Hnd].
  destruct ws as [|[w2 b2] ws].
  - cbn. split_and!; [..|done].
    + rewrite list_lookup_insert_eq; [done|].
      rewrite length_app. cbn. apply lookup_lt_Some in Hw. lia.
    + rewrite list_lookup_insert_ne.
      * by rewrite lookup_app_r, Nat.sub_diag.
      * apply lookup_lt_Some in Hw. lia.
  - change (((w, b) :: (w2, b2) :: ws).*1) with (w :: ((w2, b2) :: ws).*1).
    change (w :: ((w2, b2) :: ws).*1) with (w :: w2 :: ws.*1).
    rewrite last_cons_cons.
    change (w2 :: ws.*1) with (((w2, b2) :: ws).*1).
    split.
    + rewrite list_lookup_insert_ne.
      * by apply lookup_app_l_Some.
      * intros E. apply Hnw. rewrite <- E. by apply last_elem.
    + apply IH; try done. intros x Hx. apply Hlt. by apply list_elem_of_further.
Qed.

Lemma hook_snoc ws x : ws <> [] -> hook (ws ++ [x]) = hook ws.
Proof. by destruct ws as [|[w a] ws]. Qed.

Lemma last_app_ne {A} (l1 l2 : list A) d :
  l2 <> [] -> List.last (l1 ++ l2) d = List.last l2 d.
Proof.
  intros Hne. induction l1 as [|x l1 IH]; [done|].
  cbn [List.app]. destruct (l1 ++ l2) as [|y l] eqn:E.
  - by destruct l1, l2.
  - rewrite last_cons_cons. exact IH.
Qed.

Lemma last_snoc' {A} (l : list A) x d : List.last (l ++ [x]) d = x.
Proof. by rewrite last_app_ne. Qed.

Lemma waiting_ok_last h ws :
  ws <> [] -> waiting_ok h ws ->
  h !! List.last ws.*1 0 = Some (mkPromise None [] false).
Proof.
  induction ws as [|[w a] ws IH]; [done|]. intros _ [Hw Hok].
  destruct ws as [|[w2 a2] ws]; [done|].
  change (((w, a) :: (w2, a2) :: ws).*1) with (w :: w2 :: ws.*1).
  rewrite last_cons_cons. by apply IH.
Qed.

Lemma elem_of_fst_done (d : list (nat * settlement)) p :
  p ∈ d.*1 -> exists o, (p, o) ∈ d.
Proof.
  intros Hin. apply list_elem_of_fmap in Hin as ([p' o] & -> & Hin). eauto.
Qed.

(** The parts of a well-formed chain are apart. *)
Lemma wf_apart v :
  wf v ->
  (forall x, x ∈ chain v -> x <> 0)
  /\ (forall x, x ∈ (v_done v).*1 -> (x ∉ front_ids (v_front v))
                                      /\ (x ∉ (v_waiting v).*1))
  /\ (forall x, x ∈ front_ids (v_front v) -> x ∉ (v_waiting v).*1)
  /\ NoDup (v_waiting v).*1.
Proof.
  intros (Hnd & _). apply NoDup_cons in Hnd as [H0 Hnd].
  unfold chain in *.
  apply NoDup_app in Hnd as (_ & Hd & Hnd).
  apply NoDup_app in Hnd as (_ & Hf & Hw).
  split_and!; try done.
  - intros x Hx ->. done.
  - intros x Hx. specialize (Hd x Hx). rewrite elem_of_app in Hd. tauto.
Qed.

(** *** The machine follows the chain *)

Lemma repr_init : Repr taskQueue view0.
Proof.
  split; try done.
  - intros p o Hin. by apply elem_of_nil in Hin.
  - intros [|x] c; cbn; [|done]. intros [= <-]. done.
Qed.

Lemma lookup_alloc_ext (h : list promise) c0 x c :
  p_external c0 = false ->
  (h ++ [c0]) !! x = Some c -> p_external c = true -> h !! x = Some c.
Proof.
  intros H0 Hx Hc. apply lookup_app_Some in Hx as [Hx|[Hlen Hx]]; [done|].
  apply list_lookup_singleton_Some in Hx as [_ <-]. congruence.
Qed.

Lemma lookup_insert_ext (h : list promise) t c0 x c :
  p_external c0 = false ->
  (<[t:=c0]> h) !! x = Some c -> p_external c = true -> h !! x = Some c.
Proof.
  intros H0 Hx Hc. destruct (decide (t = x)) as [->|Hne].
  - apply list_lookup_insert_Some in Hx as [(_ & <- & _)|(? & _)]; congruence.
  - by rewrite list_lookup_insert_ne in Hx.
Qed.

Lemma repr_call a m v :
  wf v -> Repr m v ->
  Repr (snd (run (Some a) m)) (astep (Call (Some a)) v).
Proof.
  intros Hwf HR. pose proof HR as [Rn Rl Rla Rj Rz Rd Rf Rw Re].
  destruct (wf_apart v Hwf) as (A0 & Ad & Af & Aw).
  destruct Hwf as (Hnd & Hlt & Hpos & Hq).
  unfold run, alloc. cbn [snd astep].
  assert (Hlast : List.last (chain (astep (Call (Some a)) v)) 0 = v_next v).
  { unfold chain. cbn. rewrite fmap_app, !app_assoc. cbn.
    by rewrite last_snoc'. }
  cbn [astep] in Hlast. rewrite Rn.
  set (p := v_next v) in *.
  set (c0 := mkPromise None [] false).
  assert (Hnew : (heap m ++ [c0]) !! p = Some c0).
  { subst p. rewrite <- Rn. by rewrite lookup_app_r, Nat.sub_diag. }
  assert (Hold : forall x c, heap m !! x = Some c -> x <> p).
  { intros x c E. apply lookup_lt_Some in E. subst p. lia. }
  destruct (decide (v_waiting v = [])) as [Ew|Ew].
  - (* nothing is waiting *)
    destruct (v_front v) as [|p0 q|p0 q o] eqn:Ef.
    + (* the predecessor is settled: the callback is scheduled *)
      assert (Hprev : exists o, heap m !! last m
                                = Some (mkPromise (Some o) [] false)).
      { rewrite Rla. unfold chain. rewrite Ef, Ew. cbn. rewrite app_nil_r.
        destruct (decide ((v_done v).*1 = [])) as [Ed|Ed].
        - rewrite Ed. cbn. eauto.
        - apply (last_elem _ 0) in Ed.
          apply elem_of_fst_done in Ed as (o & Ed). eauto. }
      destruct Hprev as (o & Hprev).
      rewrite (subscribe_settled _ _ _ o [] false)
        by (by apply lookup_app_l_Some).
      split; cbn [heap jobs last log v_next v_log v_done v_front v_waiting];
        try done.
      * rewrite length_app. cbn. lia.
      * by rewrite Rl.
      * rewrite Rj. unfold view_jobs. rewrite Ef, Ew. done.
      * by apply lookup_app_l_Some.
      * intros p' o' Hin. apply lookup_app_l_Some. by apply Rd.
      * rewrite Ew. cbn. done.
      * intros x c Hx Hc. apply (Re x c); [|done].
        by apply (lookup_alloc_ext _ c0).
    + (* the predecessor is under way: the callback hangs on it *)
      destruct Rf as [Rp Rq].
      assert (Ela : last m = p0).
      { rewrite Rla. unfold chain. rewrite Ef, Ew. cbn.
        by rewrite last_snoc'. }
      rewrite Ew in Rp. cbn in Rp.
      rewrite (subscribe_pending _ _ _ [] false)
        by (rewrite Ela; by apply lookup_app_l_Some).
      rewrite Ela.
      assert (Hqp : q <> p0).
      { intros ->. rewrite Rp in Rq. done. }
      assert (Hp0 : p0 <> 0).
      { intros ->. rewrite Rp in Rz. done. }
      split; cbn [heap jobs last log v_next v_log v_done v_front v_waiting];
        try done.
      * rewrite length_insert, length_app. cbn. lia.
      * by rewrite Rl.
      * rewrite Rj. unfold view_jobs. by rewrite Ef.
      * rewrite list_lookup_insert_ne by done. by apply lookup_app_l_Some.
      * intros p' o' Hin. rewrite list_lookup_insert_ne.
        -- apply lookup_app_l_Some. by apply Rd.
        -- intros ->. rewrite (Rd _ _ Hin) in Rp. done.
      * rewrite Ew. cbn. split.
        -- rewrite list_lookup_insert_eq; [done|].
           rewrite length_app. apply lookup_lt_Some in Rp. lia.
        -- rewrite list_lookup_insert_ne by done. by apply lookup_app_l_Some.
      * rewrite Ew. cbn. split; [|done].
        rewrite list_lookup_insert_ne; [done|]. by apply (Hold _ _ Rp).
      * intros x c Hx Hc. apply (Re x c); [|done].
        apply (lookup_alloc_ext _ c0); [done| |done].
        by apply (lookup_insert_ext _ p0
                    (mkPromise None ([] ++ [OnFinally p a]) false)).
    + (* the same, with the awaited promise already settled *)
      destruct Rf as [Rp Rq].
      assert (Ela : last m = p0).
      { rewrite Rla. unfold chain. rewrite Ef, Ew. cbn.
        by rewrite last_snoc'. }
      rewrite Ew in Rp. cbn in Rp.
      rewrite (subscribe_pending _ _ _ [] false)
        by (rewrite Ela; by apply lookup_app_l_Some).
      rewrite Ela.
      assert (Hqp : q <> p0).
      { intros ->. rewrite Rp in Rq. done. }
      assert (Hp0 : p0 <> 0).
      { intros ->. rewrite Rp in Rz. done. }
      split; cbn [heap jobs last log v_next v_log v_done v_front v_waiting];
        try done.
      * rewrite length_insert, length_app. cbn. lia.
      * by rewrite Rl.
      * rewrite Rj. unfold view_jobs. by rewrite Ef.
      * rewrite list_lookup_insert_ne by done. by apply lookup_app_l_Some.
      * intros p' o' Hin. rewrite list_lookup_insert_ne.
        -- apply lookup_app_l_Some. by apply Rd.
        -- intros ->. rewrite (Rd _ _ Hin) in Rp. done.
      * rewrite Ew. cbn. split.
        -- rewrite list_lookup_insert_eq; [done|].
           rewrite length_app. apply lookup_lt_Some in Rp. lia.
        -- rewrite list_lookup_insert_ne by done. by apply lookup_app_l_Some.
      * rewrite Ew. cbn. split; [|done].
        rewrite list_lookup_insert_ne; [done|]. by apply (Hold _ _ Rp).
      * intros x c Hx Hc. apply (Re x c); [|done].
        apply (lookup_alloc_ext _ c0); [done| |done].
        by apply (lookup_insert_ext _ p0
                    (mkPromise None ([] ++ [OnFinally p a]) false)).
  - (* the callback hangs on the last waiting action *)
    assert (Ela : last m = List.last (v_waiting v).*1 0).
    { rewrite Rla. unfold chain. rewrite app_assoc.
      apply last_app_ne. by destruct (v_waiting v). }
    pose proof (waiting_ok_last _ _ Ew Rw) as Rt.
    assert (Htw : List.last (v_waiting v).*1 0 ∈ (v_waiting v).*1).
    { apply last_elem. by destruct (v_waiting v). }
    set (t := List.last (v_waiting v).*1 0) in *.
    rewrite (subscribe_pending _ _ _ [] false)
      by (rewrite Ela; by apply lookup_app_l_Some).
    rewrite Ela.
    assert (Ht0 : t <> 0).
    { intros E. rewrite E in Rt. rewrite Rt in Rz. done. }
    split; cbn [heap jobs last log v_next v_log v_done v_front v_waiting];
      try done.
    + rewrite length_insert, length_app. cbn. lia.
    + by rewrite Rl.
    + rewrite Rj. unfold view_jobs.
      cbn [v_front v_waiting]. by rewrite hook_snoc.
    + rewrite list_lookup_insert_ne by done. by apply lookup_app_l_Some.
    + intros p' o' Hin. rewrite list_lookup_insert_ne.
      * apply lookup_app_l_Some. by apply Rd.
      * intros E. rewrite E in Rt. rewrite (Rd _ _ Hin) in Rt. done.
    + rewrite hook_snoc by done.
      destruct (v_front v) as [|p0 q|p0 q o] eqn:Ef; [done|..];
        (destruct Rf as [Rp Rq]; split;
         [rewrite list_lookup_insert_ne;
          [by apply lookup_app_l_Some
          |intros E; apply (Af p0); [apply list_elem_of_here|by rewrite <- E]]
         |rewrite list_lookup_insert_ne;
          [by apply lookup_app_l_Some
          |intros E; rewrite <- E in Rq; rewrite Rt in Rq; done]]).
    + subst p. rewrite <- Rn. by apply waiting_ok_snoc.
    + intros x c Hx Hc. apply (Re x c); [|done].
      apply (lookup_alloc_ext _ c0); [done| |done].
      by apply (lookup_insert_ext _ t
                  (mkPromise None ([] ++ [OnFinally p a]) false)).
Qed.
Lemma to_job_hook o ws :
  map (to_job o) (hook ws) = to_job (Fulfilled 0) <$> hook ws.
Proof. by destruct ws as [|[w a] ws]. Qed.

Lemma repr_complete x o m v :
  wf v -> Repr m v -> Repr (complete x o m) (astep (Complete x o) v).
Proof.
  intros Hwf HR. pose proof HR as [Rn Rl Rla Rj Rz Rd Rf Rw Re].
  destruct (wf_apart v Hwf) as (A0 & Ad & Af & Aw).
  unfold complete. cbn [astep].
  assert (Hidle : (forall p, v_front v = Awaiting p x -> False) ->
                  astep (Complete x o) v = v).
  { intros Hn. cbn [astep]. destruct (v_front v) as [|p q|p q o'] eqn:Ef; try done.
    case_decide; [|done]. subst. by destruct (Hn p). }
  cbn [astep] in Hidle.
  destruct (heap m !! x) as [c|] eqn:Ex.
  2:{ rewrite Hidle; [done|]. intros p Ef. rewrite Ef in Rf.
      destruct Rf as [_ Rq]. congruence. }
  destruct (p_external c) eqn:Ec.
  2:{ rewrite Hidle; [done|]. intros p Ef. rewrite Ef in Rf.
      destruct Rf as [_ Rq]. rewrite Rq in Ex. injection Ex as <-. done. }
  destruct (Re x c Ex Ec) as [Hs|(p & Ef)].
  { rewrite (settle_settled m x o c Ex Hs).
    rewrite Hidle; [done|]. intros p Ef. rewrite Ef in Rf.
    destruct Rf as [_ Rq]. rewrite Rq in Ex. injection Ex as <-.
    by destruct Hs. }
  rewrite Ef in *. destruct Rf as [Rp Rq]. rewrite decide_True by done.
  rewrite (settle_pending m x o [Adopt p] true Rq).
  split; cbn [heap jobs last log v_next v_log v_done v_front v_waiting];
    try done.
  - by rewrite length_insert.
  - by rewrite Rl.
  - rewrite Rla. unfold chain. cbn [v_done v_front v_waiting]. by rewrite Ef.
  - rewrite Rj. unfold view_jobs. by rewrite Ef.
  - rewrite list_lookup_insert_ne; [done|]. intros ->. congruence.
  - intros p' o' Hin. rewrite list_lookup_insert_ne; [by apply Rd|].
    intros ->. rewrite (Rd _ _ Hin) in Rq. done.
  - split.
    + rewrite list_lookup_insert_ne; [done|]. intros ->. congruence.
    + rewrite list_lookup_insert_eq; [done|]. by apply lookup_lt_Some in Rq.
  - apply waiting_ok_insert; [|done]. intros Hin.
    destruct (waiting_ok_lookup _ _ _ Rw Hin) as (rs & E). congruence.
  - intros x' c' Hx' Hc'. destruct (decide (x = x')) as [<-|Hne].
    + apply list_lookup_insert_Some in Hx' as [(_ & <- & _)|(? & _)]; [|done].
      left. by eexists.
    + rewrite list_lookup_insert_ne in Hx' by done.
      destruct (Re x' c' Hx' Hc') as [?|(p' & [= _ <-])]; [by left|done].
Qed.
Lemma chain_start v w a rest o :
  v_front v = Free -> v_waiting v = (w, a) :: rest ->
  ((v_done v ++ [(w, o)]).*1) ++ [] ++ rest.*1 = chain v.
Proof.
  intros Ef Ew. unfold chain. rewrite Ef, Ew, fmap_app. cbn.
  by rewrite <- app_assoc.
Qed.

Lemma chain_adopt v p q o :
  v_front v = Adopting p q o ->
  ((v_done v ++ [(p, o)]).*1) ++ [] ++ (v_waiting v).*1 = chain v.
Proof.
  intros Ef. unfold chain. rewrite Ef, fmap_app. cbn.
  by rewrite <- app_assoc.
Qed.

(** A synchronous action: called and settled in one microtask. *)
Lemma repr_sync m v w a rest o :
  wf v -> Repr m v ->
  v_front v = Free -> v_waiting v = (w, a) :: rest ->
  Repr (settle w o (note (Started w None)
                      (mkMachine (heap m) [] (last m) (log m))))
       (mkView (v_next v) (v_done v ++ [(w, o)]) Free rest
               (v_log v ++ [Started w None; Settled w o])).
Proof.
  intros Hwf HR Ef Ew. pose proof HR as [Rn Rl Rla Rj Rz Rd Rf Rw Re].
  destruct (wf_apart v Hwf) as (A0 & Ad & Af & Aw).
  rewrite Ew in Rw, Aw. destruct Rw as [Rw1 Rw2].
  cbn in Aw. apply NoDup_cons in Aw as [Aw1 Aw2].
  rewrite (settle_pending _ w o (hook rest) false) by done.
  split; cbn [heap jobs last log note v_next v_log v_done v_front v_waiting];
    try done.
  - by rewrite length_insert.
  - by rewrite Rl, <- app_assoc.
  - rewrite Rla. unfold chain at 2.
    cbn [v_done v_front v_waiting front_ids].
    by rewrite (chain_start v w a rest o).
  - unfold view_jobs. cbn [v_front v_waiting]. by rewrite to_job_hook.
  - rewrite list_lookup_insert_ne; [done|]. intros ->. congruence.
  - intros p' o' Hin. apply elem_of_app in Hin as [Hin|Hin].
    + rewrite list_lookup_insert_ne; [by apply Rd|].
      intros ->. rewrite (Rd _ _ Hin) in Rw1. done.
    + apply list_elem_of_singleton in Hin as [= -> ->].
      rewrite list_lookup_insert_eq; [done|]. by apply lookup_lt_Some in Rw1.
  - by apply waiting_ok_insert.
  - intros x c Hx Hc. rewrite Ef in Re.
    destruct (Re x c) as [?|(? & ?)]; [|done|by left|done].
    by apply (lookup_insert_ext _ w (mkPromise (Some o) [] false)).
Qed.

Lemma repr_tick m v : wf v -> Repr m v -> Repr (tick m) (astep Microtask v).
Proof.
  intros Hwf HR. pose proof HR as [Rn Rl Rla Rj Rz Rd Rf Rw Re].
  destruct (wf_apart v Hwf) as (A0 & Ad & Af & Aw).
  unfold tick. rewrite Rj. unfold view_jobs. cbn [astep].
  destruct (v_front v) as [|p q|p q o] eqn:Ef; [|done|].
  - destruct (v_waiting v) as [|[w a] rest] eqn:Ew; [done|].
    cbn [hook fmap list_fmap to_job exec].
    destruct a as [e|x|].
    + by apply (repr_sync m v w (Throws e) rest).
    + by apply (repr_sync m v w (Returns x) rest).
    + (* the action returns a promise of its own *)
      destruct Rw as [Rw1 Rw2].
      cbn in Aw. apply NoDup_cons in Aw as [Aw1 Aw2].
      unfold alloc. cbn [heap jobs last log note].
      rewrite Rn. set (q := v_next v) in *.
      set (c0 := mkPromise None [] true).
      assert (Hnew : (heap m ++ [c0]) !! q = Some c0).
      { subst q. rewrite <- Rn. by rewrite lookup_app_r, Nat.sub_diag. }
      assert (Hold : forall x c, heap m !! x = Some c -> x <> q).
      { intros x c E. apply lookup_lt_Some in E. subst q. lia. }
      rewrite (subscribe_pending _ q _ [] true) by done.
      split; cbn [heap jobs last log note v_next v_log v_done v_front v_waiting];
        try done.
      * rewrite length_insert, length_app. cbn. lia.
      * by rewrite Rl.
      * rewrite Rla. unfold chain. cbn [v_done v_front v_waiting front_ids].
        by rewrite Ef, Ew.
      * rewrite list_lookup_insert_ne; [by apply lookup_app_l_Some|].
        intros E. by apply (Hold _ _ Rz).
      * intros p' o' Hin. rewrite list_lookup_insert_ne.
        -- apply lookup_app_l_Some. by apply Rd.
        -- intros E. by apply (Hold _ _ (Rd _ _ Hin)).
      * split.
        -- rewrite list_lookup_insert_ne; [by apply lookup_app_l_Some|].
           intros E. by apply (Hold _ _ Rw1).
        -- rewrite list_lookup_insert_eq; [done|].
           by apply lookup_lt_Some in Hnew.
      * apply waiting_ok_insert; [|by apply waiting_ok_alloc].
        intros Hin. destruct (waiting_ok_lookup _ _ _ Rw2 Hin) as (rs & E).
        by apply (Hold _ _ E).
      * intros x c Hx Hc. destruct (decide (q = x)) as [<-|Hne]; [eauto|].
        rewrite list_lookup_insert_ne in Hx by done.
        apply lookup_app_Some in Hx as [Hx|[Hlen Hx]].
        -- destruct (Re x c Hx Hc) as [?|(? & ?)]; [by left|done].
        -- apply list_lookup_singleton_Some in Hx as [Hx _]. subst q. lia.
  - (* the future follows the promise its action returned *)
    destruct Rf as [Rp Rq]. cbn [exec].
    rewrite (settle_pending _ p o (hook (v_waiting v)) false) by done.
    split; cbn [heap jobs last log note v_next v_log v_done v_front v_waiting];
      try done.
    + by rewrite length_insert.
    + by rewrite Rl.
    + rewrite Rla. unfold chain at 2.
      cbn [v_done v_front v_waiting front_ids].
      by rewrite (chain_adopt v p q o).
    + unfold view_jobs. cbn [v_front v_waiting]. by rewrite to_job_hook.
    + rewrite list_lookup_insert_ne; [done|]. intros ->. congruence.
    + intros p' o' Hin. apply elem_of_app in Hin as [Hin|Hin].
      * rewrite list_lookup_insert_ne; [by apply Rd|].
        intros ->. rewrite (Rd _ _ Hin) in Rp. done.
      * apply list_elem_of_singleton in Hin as [= -> ->].
        rewrite list_lookup_insert_eq; [done|]. by apply lookup_lt_Some in Rp.
    + apply waiting_ok_insert; [|done]. apply Af. apply list_elem_of_here.
    + intros x c Hx Hc.
      destruct (Re x c) as [?|(? & ?)]; [|done|by left|done].
      by apply (lookup_insert_ext _ p (mkPromise (Some o) [] false)).
Qed.

Lemma repr_step i m v : wf v -> Repr m v -> Repr (step i m) (astep i v).
Proof.
  intros Hwf HR. destruct i as [[a|]|x o|]; cbn [step].
  - by apply repr_call.
  - done.
  - by apply repr_complete.
  - by apply repr_tick.
Qed.

(** *** The log of a chain *)

Lemma outcome_ok_mono l l' a p o :
  outcome_ok l a p o -> outcome_ok (l ++ l') a p o.
Proof.
  destruct a; cbn; try done. intros (q & H1 & H2). exists q.
  split; apply elem_of_app; by left.
Qed.

Lemma snoc_split {A} (l l1 l2 : list A) e x :
  l ++ [e] = l1 ++ x :: l2 ->
  (l2 = [] /\ l = l1 /\ e = x) \/ (exists l2', l2 = l2' ++ [e] /\ l = l1 ++ x :: l2').
Proof.
  intros E. destruct l2 as [|y l2 _] using rev_ind.
  - left. apply (app_inj_tail l l1 e x) in E as [-> ->]. done.
  - right. exists l2. rewrite app_comm_cons, app_assoc in E.
    apply app_inj_tail in E as [-> ->]. done.
Qed.

Lemma gate_snoc_other l e :
  (forall p r, e <> Started p r) -> Gate l -> Gate (l ++ [e]).
Proof.
  intros He G l1 p r l2 E p' Hp'.
  apply snoc_split in E as [(_ & _ & E)|(l2' & _ & E)].
  - by destruct (He p r).
  - by apply (G l1 p r l2').
Qed.

Lemma gate_snoc_started l p r :
  Gate l ->
  (forall p', p' ∈ started l ->
     exists o, Settled p' o ∈ l
               /\ forall q, Started p' (Some q) ∈ l -> Settled q o ∈ l) ->
  Gate (l ++ [Started p r]).
Proof.
  intros G Hall l1 p0 r0 l2 E p' Hp'.
  apply snoc_split in E as [(_ & <- & _)|(l2' & _ & E)].
  - by apply Hall.
  - by apply (G l1 p0 r0 l2').
Qed.

Lemma elem_of_snoc {A} (l : list A) e x : x ∈ l ++ [e] <-> x ∈ l \/ x = e.
Proof. rewrite elem_of_app, list_elem_of_singleton. done. Qed.

Lemma iso_snoc_other l e :
  (forall p a, e <> Submitted p a) -> (forall p o, e <> Settled p o) ->
  Iso l -> Iso (l ++ [e]).
Proof.
  intros H1 H2 I p a o Hs Ht.
  apply elem_of_snoc in Hs as [Hs|Hs]; [|by destruct (H1 p a)].
  apply elem_of_snoc in Ht as [Ht|Ht]; [|by destruct (H2 p o)].
  apply outcome_ok_mono. by apply I.
Qed.

Lemma iso_snoc_submitted l p a :
  (forall o, Settled p o ∉ l) -> Iso l -> Iso (l ++ [Submitted p a]).
Proof.
  intros Hn I p' a' o Hs Ht.
  apply elem_of_snoc in Ht as [Ht|Ht]; [|done].
  apply elem_of_snoc in Hs as [Hs|[= -> ->]].
  - apply outcome_ok_mono. by apply I.
  - by destruct (Hn o).
Qed.

Lemma iso_snoc_settled l p o :
  (forall a, Submitted p a ∈ l -> outcome_ok (l ++ [Settled p o]) a p o) ->
  Iso l -> Iso (l ++ [Settled p o]).
Proof.
  intros Hok I p' a' o' Hs Ht.
  apply elem_of_snoc in Hs as [Hs|Hs]; [|done].
  apply elem_of_snoc in Ht as [Ht|[= -> ->]].
  - apply outcome_ok_mono. by apply I.
  - by apply Hok.
Qed.

Lemma loginv_nodup v :
  wf v -> LogInv v -> NoDup (submitted (v_log v)) /\ NoDup (started (v_log v)).
Proof.
  intros (Hnd & _) L. apply NoDup_cons in Hnd as [_ Hnd].
  rewrite (l_sub v L), (l_start v L). split; [done|].
  unfold chain in Hnd. rewrite app_assoc in Hnd.
  by apply NoDup_app in Hnd as (? & _).
Qed.

Lemma loginv_init : LogInv view0.
Proof.
  split; try done; cbn.
  - intros p o Hin. by apply elem_of_nil in Hin.
  - intros w a Hin. by apply elem_of_nil in Hin.
  - intros l1 p r l2 E. by destruct l1.
  - intros p a o Hin. by apply elem_of_nil in Hin.
  - intros e x Hin. by apply elem_of_nil in Hin.
Qed.

Lemma ids_snoc n n' l e :
  n <= n' ->
  (forall e x, e ∈ l -> x ∈ event_ids e -> x < n) ->
  (forall x, x ∈ event_ids e -> x < n') ->
  forall e' x, e' ∈ l ++ [e] -> x ∈ event_ids e' -> x < n'.
Proof.
  intros Hle Hl He e' x Hin Hx. apply elem_of_snoc in Hin as [Hin|E].
  - specialize (Hl e' x Hin Hx). lia.
  - subst e'. by apply He.
Qed.

Lemma loginv_call a v :
  wf v -> LogInv v -> LogInv (astep (Call (Some a)) v).
Proof.
  intros Hwf L. destruct (loginv_nodup v Hwf L) as [Ns Nt].
  destruct L as [Ls Lt Ld Lf Lw Lg Li Lx].
  split; cbn [astep v_next v_log v_done v_front v_waiting].
  - rewrite submitted_app, Ls. unfold chain.
    cbn [v_done v_front v_waiting]. by rewrite fmap_app, !app_assoc.
  - rewrite started_app, Lt. cbn. by rewrite app_nil_r.
  - intros p o Hin. destruct (Ld p o Hin) as [H1 H2]. split.
    + apply elem_of_app. by left.
    + intros q Hq. apply elem_of_snoc in Hq as [Hq|Hq]; [|done].
      apply elem_of_app. left. by apply H2.
  - destruct (v_front v) as [|p q|p q o]; [done|..]; rewrite !elem_of_app;
      tauto.
  - intros w a' Hin. apply elem_of_snoc in Hin as [Hin|[= -> ->]].
    + apply elem_of_app. left. by apply Lw.
    + apply elem_of_snoc. by right.
  - by apply gate_snoc_other.
  - apply iso_snoc_submitted; [|done]. intros o Hin.
    specialize (Lx _ (v_next v) Hin). cbn in Lx.
    specialize (Lx (list_elem_of_here _ _)). lia.
  - apply (ids_snoc (v_next v)); [lia|done|].
    intros x Hx. cbn in Hx. apply list_elem_of_singleton in Hx as ->. lia.
Qed.

Lemma loginv_complete x o v :
  wf v -> LogInv v -> LogInv (astep (Complete x o) v).
Proof.
  intros Hwf L. cbn [astep].
  destruct (v_front v) as [|p q|p q o'] eqn:Ef; try done.
  case_decide; [subst x|done].
  destruct (loginv_nodup v Hwf L) as [Ns Nt].
  destruct L as [Ls Lt Ld Lf Lw Lg Li Lx].
  destruct Hwf as (Hnd & Hlt & Hpos & Hq). rewrite Ef in *.
  destruct Hq as [Hq1 Hq2]. destruct Lf as [Lf1 Lf2].
  split; cbn [v_next v_log v_done v_front v_waiting].
  - rewrite submitted_app, Ls. cbn. rewrite app_nil_r.
    unfold chain. cbn [v_done v_front v_waiting]. by rewrite Ef.
  - rewrite started_app, Lt. cbn. by rewrite app_nil_r.
  - intros p' o' Hin. destruct (Ld p' o' Hin) as [H1 H2]. split.
    + apply elem_of_app. by left.
    + intros q' Hq'. apply elem_of_snoc in Hq' as [Hq'|Hq']; [|done].
      apply elem_of_app. left. by apply H2.
  - rewrite !elem_of_snoc. tauto.
  - intros w a' Hin. apply elem_of_app. left. by apply Lw.
  - by apply gate_snoc_other.
  - apply iso_snoc_settled; [|done]. intros a Hin. exfalso. apply Hq2.
    apply list_elem_of_further. rewrite <- Ls. apply elem_of_submitted. eauto.
  - apply (ids_snoc (v_next v)); [lia|done|].
    intros y Hy. cbn in Hy. apply list_elem_of_singleton in Hy as ->. done.
Qed.
Lemma loginv_sync v w a rest o :
  wf v -> LogInv v ->
  v_front v = Free -> v_waiting v = (w, a) :: rest ->
  outcome_ok [] a w o ->
  LogInv (mkView (v_next v) (v_done v ++ [(w, o)]) Free rest
                 (v_log v ++ [Started w None; Settled w o])).
Proof.
  intros Hwf L Ef Ew Hok. destruct (loginv_nodup v Hwf L) as [Ns Nt].
  destruct (wf_apart v Hwf) as (A0 & Ad & Af & Aw).
  destruct L as [Ls Lt Ld Lf Lw Lg Li Lx].
  destruct Hwf as (Hnd & Hlt & Hpos & Hq).
  assert (Hw : (w, a) ∈ v_waiting v) by (rewrite Ew; apply list_elem_of_here).
  assert (Hwc : w ∈ chain v).
  { unfold chain. rewrite !elem_of_app. right. right. rewrite Ew.
    apply list_elem_of_here. }
  assert (Hnot : forall r, Started w r ∉ v_log v).
  { intros r Hin. destruct (Ad w).
    - rewrite Ef, app_nil_r in Lt. rewrite <- Lt. apply elem_of_started. eauto.
    - rewrite Ew in *. by destruct (H0 (list_elem_of_here _ _)). }
  change [Started w None; Settled w o]
    with ([Started w None] ++ [Settled w o]).
  rewrite app_assoc.
  split; cbn [v_next v_log v_done v_front v_waiting].
  - rewrite !submitted_app, Ls. cbn. rewrite !app_nil_r.
    by rewrite <- (chain_start v w a rest o).
  - rewrite !started_app, Lt, Ef. cbn. by rewrite !app_nil_r, fmap_app.
  - intros p' o' Hin. apply elem_of_app in Hin as [Hin|Hin].
    + destruct (Ld p' o' Hin) as [H1 H2]. split.
      * rewrite !elem_of_app. tauto.
      * intros q' Hq'. rewrite !elem_of_snoc in Hq'.
        destruct Hq' as [[Hq'|Hq']|Hq']; try done.
        rewrite !elem_of_app. left. left. by apply H2.
    + apply list_elem_of_singleton in Hin as [= -> ->]. split.
      * apply elem_of_snoc. by right.
      * intros q' Hq'. rewrite !elem_of_snoc in Hq'.
        destruct Hq' as [[Hq'|Hq']|Hq']; try done. by destruct (Hnot (Some q')).
  - done.
  - intros w' a' Hin. rewrite !elem_of_app. left. left. apply Lw.
    rewrite Ew. by apply list_elem_of_further.
  - apply gate_snoc_other; [done|]. apply gate_snoc_started; [done|].
    intros p' Hp'. rewrite Lt, Ef, app_nil_r in Hp'.
    apply elem_of_fst_done in Hp' as (o' & Hp'). exists o'. by apply Ld.
  - apply iso_snoc_settled; [|by apply iso_snoc_other].
    intros a' Ha'. apply elem_of_snoc in Ha' as [Ha'|Ha']; [|done].
    rewrite (submitted_unique _ _ _ _ Ns Ha' (Lw _ _ Hw)).
    destruct a; cbn in *; try done. destruct Hok as (q & Hq' & _).
    by apply elem_of_nil in Hq'.
  - apply (ids_snoc (v_next v)); [lia| |].
    + apply (ids_snoc (v_next v)); [lia|done|].
      intros y Hy. cbn in Hy. apply list_elem_of_singleton in Hy as ->.
      by apply Hlt.
    + intros y Hy. cbn in Hy. apply list_elem_of_singleton in Hy as ->.
      by apply Hlt.
Qed.

Lemma loginv_tick v : wf v -> LogInv v -> LogInv (astep Microtask v).
Proof.
  intros Hwf L. cbn [astep].
  destruct (v_front v) as [|p q|p q o] eqn:Ef; [|done|].
  - destruct (v_waiting v) as [|[w a] rest] eqn:Ew; [done|].
    destruct a as [e|x|].
    + by apply (loginv_sync v w (Throws e) rest).
    + by apply (loginv_sync v w (Returns x) rest).
    + (* the action returns a promise of its own *)
      destruct (loginv_nodup v Hwf L) as [Ns Nt].
      destruct (wf_apart v Hwf) as (A0 & Ad & Af & Aw).
      destruct L as [Ls Lt Ld Lf Lw Lg Li Lx].
      destruct Hwf as (Hnd & Hlt & Hpos & Hq).
      assert (Hwc : w ∈ chain v).
      { unfold chain. rewrite !elem_of_app. right. right. rewrite Ew.
        apply list_elem_of_here. }
      split; cbn [v_next v_log v_done v_front v_waiting].
      * rewrite submitted_app, Ls. cbn. rewrite app_nil_r.
        unfold chain. cbn [v_done v_front v_waiting front_ids].
        by rewrite Ef, Ew.
      * rewrite started_app, Lt, Ef. cbn. by rewrite app_nil_r.
      * intros p' o' Hin. destruct (Ld p' o' Hin) as [H1 H2]. split.
        -- apply elem_of_app. by left.
        -- intros q' Hq'. apply elem_of_snoc in Hq' as [Hq'|[= -> ->]].
           ++ apply elem_of_app. left. by apply H2.
           ++ destruct (Ad w) as [_ Hn].
              ** apply list_elem_of_fmap. by exists (w, o').
              ** rewrite Ew in Hn. by destruct (Hn (list_elem_of_here _ _)).
      * split.
        -- apply elem_of_snoc. by right.
        -- apply elem_of_app. left. apply Lw. rewrite Ew.
           apply list_elem_of_here.
      * intros w' a' Hin. apply elem_of_app. left. apply Lw.
        rewrite Ew. by apply list_elem_of_further.
      * apply gate_snoc_started; [done|].
        intros p' Hp'. rewrite Lt, Ef, app_nil_r in Hp'.
        apply elem_of_fst_done in Hp' as (o' & Hp'). exists o'. by apply Ld.
      * by apply iso_snoc_other.
      * apply (ids_snoc (v_next v)); [lia|done|].
        intros y Hy. cbn in Hy.
        apply elem_of_cons in Hy as [->|Hy]; [apply Hlt in Hwc; lia|].
        apply list_elem_of_singleton in Hy as ->. lia.
  - (* the future follows the promise its action returned *)
    destruct (loginv_nodup v Hwf L) as [Ns Nt].
    destruct (wf_apart v Hwf) as (A0 & Ad & Af & Aw).
    destruct L as [Ls Lt Ld Lf Lw Lg Li Lx].
    destruct Hwf as (Hnd & Hlt & Hpos & Hq). rewrite Ef in *.
    destruct Lf as (Lf1 & Lf2 & Lf3).
    assert (Hpc : p ∈ chain v).
    { unfold chain. rewrite Ef, !elem_of_app. right. left.
      apply list_elem_of_here. }
    split; cbn [v_next v_log v_done v_front v_waiting].
    + rewrite submitted_app, Ls. cbn. rewrite app_nil_r.
      by rewrite <- (chain_adopt v p q o).
    + rewrite started_app, Lt. cbn. by rewrite !app_nil_r, fmap_app.
    + intros p' o' Hin. apply elem_of_app in Hin as [Hin|Hin].
      * destruct (Ld p' o' Hin) as [H1 H2]. split.
        -- apply elem_of_app. by left.
        -- intros q' Hq'. apply elem_of_snoc in Hq' as [Hq'|Hq']; [|done].
           apply elem_of_app. left. by apply H2.
      * apply list_elem_of_singleton in Hin as [= -> ->]. split.
        -- apply elem_of_snoc. by right.
        -- intros q' Hq'. apply elem_of_snoc in Hq' as [Hq'|Hq']; [|done].
           pose proof (started_unique _ _ _ _ Nt Hq' Lf1) as [= ->].
           apply elem_of_app. by left.
    + done.
    + intros w' a' Hin. apply elem_of_app. left. by apply Lw.
    + by apply gate_snoc_other.
    + apply iso_snoc_settled; [|done]. intros a Ha.
      rewrite (submitted_unique _ _ _ _ Ns Ha Lf2). cbn. exists q.
      split; apply elem_of_app; by left.
    + apply (ids_snoc (v_next v)); [lia|done|].
      intros y Hy. cbn in Hy. apply list_elem_of_singleton in Hy as ->.
      by apply Hlt.
Qed.

Lemma loginv_step i v : wf v -> LogInv v -> LogInv (astep i v).
Proof.
  intros Hwf L. destruct i as [[a|]|x o|].
  - by apply loginv_call.
  - done.
  - by apply loginv_complete.
  - by apply loginv_tick.
Qed.

(** *** Every run of the queue *)

Lemma reach_from inputs m v :
  Repr m v -> wf v -> LogInv v ->
  exists v', Repr (steps inputs m) v' /\ wf v' /\ LogInv v'.
Proof.
  revert m v. induction inputs as [|i inputs IH]; intros m v HR Hwf L.
  - by exists v.
  - cbn. apply (IH (step i m) (astep i v)).
    + by apply repr_step.
    + by apply wf_step.
    + by apply loginv_step.
Qed.

Lemma reach inputs :
  exists v, Repr (steps inputs taskQueue) v /\ wf v /\ LogInv v.
Proof. apply (reach_from inputs taskQueue view0); [apply repr_init|apply wf_init|apply loginv_init]. Qed.

Lemma astep_log i v : exists tr, v_log (astep i v) = v_log v ++ tr.
Proof.
  destruct i as [[a|]|x o|]; cbn [astep].
  - eauto.
  - exists []. by rewrite app_nil_r.
  - destruct (v_front v); try (exists []; by rewrite app_nil_r).
    case_decide; [eauto|]. exists []. by rewrite app_nil_r.
  - destruct (v_front v); try (exists []; by rewrite app_nil_r); [|eauto].
    destruct (v_waiting v) as [|[w []] rest]; eauto.
    exists []. by rewrite app_nil_r.
Qed.

(** Microtasks run out: the queue gets quiet. *)
Lemma drain_quiet n m v :
  Repr m v -> wf v -> LogInv v -> pendingTicks v <= n ->
  exists v', Repr (drain n m) v' /\ wf v' /\ LogInv v'
             /\ jobs (drain n m) = []
             /\ exists tr, v_log v' = v_log v ++ tr.
Proof.
  revert m v. induction n as [|n IH]; intros m v HR Hwf L Hn.
  - exists v. cbn [drain]. split_and!; try done.
    + rewrite (r_jobs _ _ HR). unfold view_jobs. unfold pendingTicks in Hn.
      destruct (v_front v); [|done|lia].
      destruct (v_waiting v); [done|]. cbn in Hn. lia.
    + exists []. by rewrite app_nil_r.
  - cbn [drain]. destruct (jobs m) as [|j js] eqn:Ej.
    + exists v. split_and!; try done. exists []. by rewrite app_nil_r.
    + assert (Hless : pendingTicks (astep Microtask v) <= n).
      { rewrite (r_jobs _ _ HR) in Ej. unfold view_jobs in Ej.
        unfold pendingTicks in *. cbn [astep].
        destruct (v_front v) as [|p q|p q o]; [|done|].
        - destruct (v_waiting v) as [|[w a] rest]; [done|].
          cbn in Hn. destruct a; cbn; lia.
        - cbn. lia. }
      destruct (IH (tick m) (astep Microtask v)) as (v' & HR' & Hwf' & L' & Hj & tr & Htr);
        [by apply repr_tick|by apply wf_step|by apply loginv_step|done|].
      exists v'. split_and!; try done.
      destruct (astep_log Microtask v) as (tr0 & Htr0).
      exists (tr0 ++ tr). by rewrite Htr, Htr0, app_assoc.
Qed.

Lemma pendingTicks_bound v :
  LogInv v -> pendingTicks v <= 2 * length (submitted (v_log v)) + 1.
Proof.
  intros L. rewrite (l_sub v L). unfold pendingTicks, chain.
  rewrite !length_app, !length_fmap. destruct (v_front v); lia.
Qed.

(** What a quiet queue looks like. *)
Lemma quiet_view m v :
  Repr m v -> LogInv v -> jobs m = [] ->
  started (v_log v) = submitted (v_log v)
  \/ exists p q, Started p (Some q) ∈ v_log v
                 /\ heap m !! q = Some (mkPromise None [Adopt p] true).
Proof.
  intros HR L Ej. rewrite (r_jobs _ _ HR) in Ej. unfold view_jobs in Ej.
  pose proof (r_front _ _ HR) as Rf. pose proof (l_front _ L) as Lf.
  rewrite (l_start v L), (l_sub v L). unfold chain.
  destruct (v_front v) as [|p q|p q o]; [|right|done].
  - left. destruct (v_waiting v) as [|[w a] rest]; [|done].
    cbn. by rewrite !app_nil_r.
  - exists p, q. by destruct Rf, Lf.
Qed.

(** Among the actions called in submission order, the ones submitted
    before an action are the ones called before it. *)
Lemma before_started (l l1 l2 : list qevent) p r p' :
  started l `prefix_of` submitted l -> NoDup (submitted l) ->
  l = l1 ++ Started p r :: l2 -> before (submitted l) p' p ->
  p' ∈ started l1.
Proof.
  intros [k Hpre] Hnd El (s1 & s2 & s3 & Es).
  assert (Est : started l = started l1 ++ p :: started l2).
  { rewrite El, started_app. done. }
  rewrite Est in Hpre.
  assert (Hp1 : submitted l !! length (started l1) = Some p).
  { rewrite Hpre, <- app_assoc. cbn. by apply list_lookup_middle. }
  assert (Hp2 : submitted l !! (length s1 + S (length s2)) = Some p).
  { rewrite Es. rewrite lookup_app_r by lia.
    replace (length s1 + S (length s2) - length s1) with (S (length s2)) by lia.
    cbn. by apply list_lookup_middle. }
  pose proof (NoDup_lookup _ _ _ _ Hnd Hp1 Hp2) as Hlen.
  assert (Hp' : submitted l !! length s1 = Some p').
  { rewrite Es. by apply list_lookup_middle. }
  rewrite Hpre, <- app_assoc in Hp'.
  rewrite lookup_app_l in Hp' by lia.
  by apply list_elem_of_lookup_2 in Hp'.
Qed.

(** C1. In every run of the queue the actions are called strictly in the
    order of their submission, each at most once; when an action is called,
    the future of every action submitted before it has settled, fulfilled or
    rejected, and so has the promise that action returned, if it returned
    one; the future of an action settles as its own action does (a throw or
    a rejected promise rejects that future and no other); and the queue is
    never stuck behind a rejection: once the microtasks have run, every
    submitted action has been called, unless the promise returned by the
    action called last is still pending. *)
Theorem queue_runs_actions_in_submission_order inputs :
  let m := steps inputs taskQueue in
  let l := log m in
  started l `prefix_of` submitted l
  /\ NoDup (submitted l)
  /\ (forall l1 p r l2 p',
        l = l1 ++ Started p r :: l2 -> before (submitted l) p' p ->
        exists o, Settled p' o ∈ l1
                  /\ forall q, Started p' (Some q) ∈ l1 -> Settled q o ∈ l1)
  /\ (forall p a o, Submitted p a ∈ l -> Settled p o ∈ l -> outcome_ok l a p o)
  /\ (let m' := drain (2 * length (submitted l) + 1) m in
      jobs m' = []
      /\ (exists tr, log m' = l ++ tr)
      /\ (started (log m') = submitted (log m')
          \/ exists p q, Started p (Some q) ∈ log m'
                         /\ heap m' !! q = Some (mkPromise None [Adopt p] true))).
Proof.
  intros m l. destruct (reach inputs) as (v & HR & Hwf & L).
  fold m in HR. pose proof (r_log _ _ HR) as El. fold l in El.
  destruct (loginv_nodup v Hwf L) as [Ns Nt]. rewrite <- El in Ns, Nt.
  assert (Hpre : started l `prefix_of` submitted l).
  { rewrite El, (l_start v L), (l_sub v L). unfold chain.
    exists (v_waiting v).*1. by rewrite app_assoc. }
  split_and!.
  - exact Hpre.
  - exact Ns.
  - intros l1 p r l2 p' E Hb. pose proof (l_gate v L) as G.
    rewrite <- El in G. apply (G l1 p r l2 E).
    by apply (before_started l l1 l2 p r p').
  - pose proof (l_iso v L) as I. by rewrite <- El in I.
  - assert (Hn : pendingTicks v <= 2 * length (submitted l) + 1).
    { rewrite El. by apply pendingTicks_bound. }
    destruct (drain_quiet _ m v HR Hwf L Hn)
      as (v' & HR' & Hwf' & L' & Hj & tr & Htr).
    apply and_assoc. split.
    + split; [done|]. exists tr. by rewrite (r_log _ _ HR'), Htr, El.
    + rewrite (r_log _ _ HR'). by apply (quiet_view _ v').
Qed.

(** The theorem above on [demo]: the second action is called only after
    the future of the first, which threw, has settled. *)
Lemma queue_runs_actions_in_submission_order_witness :
  let l := log (steps demo taskQueue) in
  l = take 5 l ++ Started 2 (Some 4) :: drop 6 l
  /\ before (submitted l) 1 2
  /\ exists o, Settled 1 o ∈ take 5 l.
Proof.
  intros l.
  assert (E : l = take 5 l ++ Started 2 (Some 4) :: drop 6 l)
    by (vm_compute; reflexivity).
  assert (B : before (submitted l) 1 2)
    by (exists [], [], [3]; vm_compute; reflexivity).
  destruct (queue_runs_actions_in_submission_order demo) as (_ & _ & G & _).
  destruct (G _ _ _ _ _ E B) as (o & Ho & _).
  split; [exact E|]. split; [exact B|]. by exists o.
Defined.

End TaskQueueFacts.

(** * More of the code *)

(** ** Version checks of unchanged files *)

Section Unchanged.

Context `{HostApi}.

Lemma set_statCache_id st : set_statCache (statCache st) st = st.
Proof. by destruct st. Qed.

(** A file whose cached stat is the one just read: nothing happens. *)
Lemma checkFile_fixed plugin path stat st :
  (forall s, stat = Some s -> statCache st !! path = Some s) ->
  checkFile plugin path stat st = st.
Proof.
  intros Hs. destruct stat as [s|]; [|done]. cbn.
  rewrite (Hs s eq_refl). rewrite bool_decide_eq_true_2 by done. cbn.
  rewrite insert_id by auto. apply set_statCache_id.
Qed.

(** A file whose modification time is the cached one: only the cache entry
    is refreshed. *)
Lemma checkFile_same_mtime plugin path stat st :
  (forall s old, stat = Some s -> statCache st !! path = Some old ->
                 mtime s = mtime old) ->
  checkFile plugin path stat st =
    match stat with
    | Some s => set_statCache (<[path := s]> (statCache st)) st
    | None => st
    end.
Proof.
  intros Hs. destruct stat as [s|]; [|done]. cbn.
  destruct (statCache st !! path) as [old|] eqn:E; [|done].
  by rewrite bool_decide_eq_true_2 by eauto.
Qed.

(** X5. [checkVersion] is idempotent: a second check of the same extension
    in the same world changes nothing, so one change of a file is reported
    once. *)
Theorem checkVersion_idempotent plugin st :
  checkVersion plugin (checkVersion plugin st) = checkVersion plugin st.
Proof.
  destruct (manifest_of plugin (app st)) as [m|] eqn:Hm.
  2:{ unfold checkVersion. rewrite Hm. cbn. rewrite Hm.
      destruct st. unfold set_pluginNames. cbn. f_equal. apply delete_delete_eq. }
  destruct (decide (dir m = "")) as [Hd|Hd].
  { unfold checkVersion. rewrite Hm. rewrite !bool_decide_eq_true_2 by done.
    cbn. rewrite Hm. rewrite bool_decide_eq_true_2 by done.
    destruct st. unfold set_pluginNames. cbn. f_equal. apply delete_delete_eq. }
  rewrite (checkVersion_unfold plugin m st Hm Hd). cbn zeta.
  set (p1 := dir m +:+ "/" +:+ "main.js"). set (p2 := dir m +:+ "/" +:+ "styles.css").
  set (st1 := checkFile plugin p1 (fs_stat (app st) p1) st).
  set (st2 := checkFile plugin p2 (fs_stat (app st) p2) st1).
  destruct (checkFile_frame plugin p1 (fs_stat (app st) p1) st) as (A1 & _).
  destruct (checkFile_frame plugin p2 (fs_stat (app st) p2) st1) as (A2 & _).
  destruct (checkFile_opt plugin p1 (fs_stat (app st) p1) st) as (_ & C1).
  destruct (checkFile_opt plugin p2 (fs_stat (app st) p2) st1) as (_ & C2).
  fold st1 in A1, C1. fold st2 in A2, C2. cbn zeta in A1, A2, C1, C2.
  assert (Hne : p1 <> p2) by apply trackedPaths_distinct.
  assert (Happ : app st2 = app st) by congruence.
  rewrite (checkVersion_unfold plugin m st2) by (by rewrite ?Happ).
  cbn zeta. fold p1 p2. rewrite Happ.
  assert (F1 : checkFile plugin p1 (fs_stat (app st) p1) st2 = st2).
  { apply checkFile_fixed. intros s Hs. rewrite C2.
    assert (statCache st1 !! p1 = Some s) by (rewrite C1, Hs; apply lookup_insert_eq).
    destruct (fs_stat (app st) p2); [by rewrite lookup_insert_ne|done]. }
  rewrite F1. apply checkFile_fixed. intros s Hs. rewrite C2, Hs.
  apply lookup_insert_eq.
Qed.

End Unchanged.

(** ** Rescans *)

Section Rescan.

Context `{HostApi}.

Lemma calm_refl st : calm st st.
Proof. by repeat split. Qed.

Lemma calm_trans st1 st2 st3 : calm st1 st2 -> calm st2 st3 -> calm st1 st3.
Proof.
  intros (A1 & B1 & C1 & D1 & E1) (A2 & B2 & C2 & D2 & E2).
  repeat split; congruence.
Qed.

Lemma checkFile_calm plugin path st :
  upToDate st ->
  let st' := checkFile plugin path (fs_stat (app st) path) st in
  calm st st' /\ upToDate st'.
Proof.
  intros Hu. cbn zeta. rewrite checkFile_same_mtime by (intros; symmetry; eauto using eq_sym).
  destruct (fs_stat (app st) path) as [s|] eqn:Es; [|by split; [apply calm_refl|]].
  split; [by repeat split|].
  intros p old s' Hc Hs. cbn in Hc, Hs.
  destruct (decide (path = p)) as [->|Hne].
  - rewrite lookup_insert_eq in Hc. congruence.
  - rewrite lookup_insert_ne in Hc by done. eauto.
Qed.

Lemma checkVersion_calm plugin st :
  upToDate st ->
  calm st (checkVersion plugin st) /\ upToDate (checkVersion plugin st).
Proof.
  intros Hu. unfold checkVersion.
  destruct (manifest_of plugin (app st)) as [m|]; [|by split].
  case_bool_decide; [by split|]. cbn [foldl trackedFiles].
  destruct (checkFile_calm plugin (dir m +:+ "/" +:+ "main.js") st Hu) as [C1 U1].
  cbn zeta in C1, U1.
  set (st1 := checkFile plugin (dir m +:+ "/" +:+ "main.js") _ st) in *.
  destruct (checkFile_calm plugin (dir m +:+ "/" +:+ "styles.css") st1 U1) as [C2 U2].
  split; [by eapply calm_trans|done].
Qed.

Lemma foldl_checkVersion_calm ps st :
  upToDate st ->
  let st' := foldl (fun st plugin => checkVersion plugin st) st ps in
  calm st st' /\ upToDate st'.
Proof.
  revert st. induction ps as [|p ps IH]; intros st Hu; cbn.
  - split; [apply calm_refl|done].
  - destruct (checkVersion_calm p st Hu) as [C1 U1].
    destruct (IH _ U1) as [C2 U2]. split; [by eapply calm_trans|done].
Qed.

End Rescan.

Section Watching.

Context `{HostApi}.

Lemma watchersOnly_refl a : watchersOnly a a.
Proof. by destruct a. Qed.

Lemma watchersOnly_trans a1 a2 a3 :
  watchersOnly a1 a2 -> watchersOnly a2 a3 -> watchersOnly a1 a3.
Proof. unfold watchersOnly. intros -> ->. by destruct a1. Qed.

Lemma set_app_emits_id st : set_app (app st) (emits [] st) = st.
Proof. destruct st. unfold set_app, emits. cbn. by rewrite app_nil_r. Qed.

Lemma watch_spec path st :
  watch path st = st
  \/ ((path ∉ watchers (app st)) /\ isFolder (app st) path
      /\ (watchNeeded (app st) || fs_symlink (app st) path) = true
      /\ watch path st =
           set_app (set_watchers (startWatchPath path (watchers (app st))) (app st))
                   (emit (HostStartWatch path) st)).
Proof.
  unfold watch. case_decide; [by left|].
  destruct (fs_stat (app st) path) as [s|] eqn:Es; [|by left].
  destruct (stat_type s) eqn:Et; [by left|].
  destruct (watchNeeded (app st) || fs_symlink (app st) path) eqn:En; [|by left].
  right. split_and!; try done. by exists s.
Qed.

Lemma watchesStarted_app tr1 tr2 :
  watchesStarted (tr1 ++ tr2) = watchesStarted tr1 ++ watchesStarted tr2.
Proof. apply omap_app. Qed.

Lemma enqueued_app tr1 tr2 : enqueued (tr1 ++ tr2) = enqueued tr1 ++ enqueued tr2.
Proof. apply omap_app. Qed.

(** The loop of [getPluginNames]: it starts watchers, on folders of the
    manifests only, and touches nothing else. *)
Lemma scan_watches ms plugins0 enabled0 st :
  let st1 := snd (foldl scanManifest (plugins0, enabled0, st) ms) in
  watchersOnly (app st) (app st1)
  /\ exists ws,
       st1 = set_app (app st1) (emits (HostStartWatch <$> ws) st)
       /\ Forall (fun path =>
            (exists m, m ∈ ms /\ dir m = path) /\ isFolder (app st) path
            /\ (watchNeeded (app st) || fs_symlink (app st) path) = true) ws.
Proof.
  induction ms as [|m ms IH] using rev_ind.
  - cbn. split; [apply watchersOnly_refl|]. exists []. split; [|done].
    cbn. by rewrite set_app_emits_id.
  - rewrite foldl_app. cbn [foldl].
    destruct (foldl scanManifest (plugins0, enabled0, st) ms) as [[plugins enabled] st1].
    cbn [snd] in IH. destruct IH as (W & ws & E & F).
    assert (F' : Forall (fun path =>
            (exists m0, m0 ∈ ms ++ [m] /\ dir m0 = path) /\ isFolder (app st) path
            /\ (watchNeeded (app st) || fs_symlink (app st) path) = true) ws).
    { eapply Forall_impl; [exact F|]. intros p ((m0 & Hin & Hd) & Hf & Hn).
      split; [|done]. exists m0. split; [apply elem_of_app; by left|done]. }
    unfold scanManifest. cbn [snd].
    destruct (watch_spec (dir m) st1) as [->|(Hw & Hf & Hn & ->)].
    + split; [done|]. by exists ws.
    + cbn [app set_app]. split.
      * eapply watchersOnly_trans; [exact W|]. unfold watchersOnly. by destruct (app st1).
      * exists (ws ++ [dir m]). split.
        -- rewrite E. unfold emit, emits, set_app. cbn.
           by rewrite fmap_app, app_assoc.
        -- apply Forall_app. split; [done|]. constructor; [|done].
           rewrite W in Hf, Hn. split_and!.
           ++ exists m. split; [|done]. apply elem_of_app; right.
              by apply list_elem_of_singleton.
           ++ destruct Hf as (s & Hs & Ht). by exists s.
           ++ exact Hn.
Qed.

End Watching.

Section RescanFacts.

Context `{HostApi}.

Lemma watchesStarted_fmap ws : watchesStarted (HostStartWatch <$> ws) = ws.
Proof. induction ws as [|w ws IH]; [done|]. cbn. f_equal. exact IH. Qed.

Lemma reloadRequests_watches ws : reloadRequests (HostStartWatch <$> ws) = [].
Proof. by induction ws. Qed.

Lemma enqueued_watches ws : enqueued (HostStartWatch <$> ws) = [].
Proof. by induction ws. Qed.

Lemma watchersOnly_stat a a' : watchersOnly a a' -> fs_stat a' = fs_stat a.
Proof. by intros ->. Qed.

Lemma requestReload_no_watch plugin st :
  exists tr, trace (requestReload plugin st) = trace st ++ tr
             /\ watchesStarted tr = [].
Proof.
  unfold requestReload. case_decide; [|exists []; by rewrite app_nil_r].
  destruct (pluginReloaders st !! plugin) as [d|]; cbn -[call];
    destruct (call _ _) as [[] d']; cbn.
  - by exists [Enqueued (d_action d')].
  - exists []. by rewrite app_nil_r.
  - exists [DebounceCreated (TReload plugin) 750; Enqueued (d_action d')].
    by rewrite <- app_assoc.
  - by exists [DebounceCreated (TReload plugin) 750].
Qed.

Lemma checkFile_no_watch plugin path stat st :
  exists tr, trace (checkFile plugin path stat st) = trace st ++ tr
             /\ watchesStarted tr = [].
Proof.
  destruct stat as [s|]; [|exists []; by rewrite app_nil_r]. cbn.
  destruct (match statCache st !! path with Some _ => _ | None => _ end).
  - destruct (requestReload_no_watch plugin (emit (CallRequestReload plugin) st))
      as (tr & E & W).
    exists (CallRequestReload plugin :: tr). cbn. rewrite E. cbn.
    by rewrite <- app_assoc.
  - exists []. by rewrite app_nil_r.
Qed.

Lemma checkVersion_no_watch plugin st :
  exists tr, trace (checkVersion plugin st) = trace st ++ tr
             /\ watchesStarted tr = [].
Proof.
  unfold checkVersion.
  destruct (manifest_of plugin (app st)) as [m|]; [|exists []; by rewrite app_nil_r].
  case_bool_decide; [exists []; by rewrite app_nil_r|]. cbn [foldl trackedFiles].
  set (st1 := checkFile plugin (dir m +:+ "/" +:+ "main.js") _ st).
  destruct (checkFile_no_watch plugin (dir m +:+ "/" +:+ "main.js")
              (fs_stat (app st) (dir m +:+ "/" +:+ "main.js")) st) as (tr1 & E1 & W1).
  fold st1 in E1.
  destruct (checkFile_no_watch plugin (dir m +:+ "/" +:+ "styles.css")
              (fs_stat (app st1) (dir m +:+ "/" +:+ "styles.css")) st1) as (tr2 & E2 & W2).
  exists (tr1 ++ tr2). rewrite E2, E1, <- app_assoc. split; [done|].
  by rewrite watchesStarted_app, W1, W2.
Qed.

Lemma checkVersions_no_watch st :
  exists tr, trace (checkVersions st) = trace st ++ tr /\ watchesStarted tr = [].
Proof.
  unfold checkVersions. generalize (snd <$> map_to_list (pluginNames st)).
  intros ps. revert st. induction ps as [|p ps IH]; intros st; cbn.
  - exists []. by rewrite app_nil_r.
  - destruct (checkVersion_no_watch p st) as (tr1 & E1 & W1).
    destruct (IH (checkVersion p st)) as (tr2 & E2 & W2).
    exists (tr1 ++ tr2). rewrite E2, E1, <- app_assoc. split; [done|].
    by rewrite watchesStarted_app, W1, W2.
Qed.

(** The two halves of a rescan: the loop over the manifests and the version
    checks. *)
Lemma getPluginNames_unfold st :
  getPluginNames st =
    let acc := foldl scanManifest (∅, ∅, st) (snd <$> manifests (app st)) in
    checkVersions (set_enabledPlugins (snd (fst acc))
                     (set_pluginNames (fst (fst acc)) (snd acc))).
Proof.
  unfold getPluginNames.
  by destruct (foldl scanManifest (∅, ∅, st) (snd <$> manifests (app st)))
    as [[plugins enabled] st1].
Qed.

Lemma getPluginNames_unchanged st :
  upToDate st ->
  let st' := getPluginNames st in
  reloadRequests (newEvents st st') = []
  /\ enqueued (newEvents st st') = []
  /\ queue st' = queue st
  /\ pluginReloaders st' = pluginReloaders st
  /\ upToDate st'.
Proof.
  intros Hu. cbn zeta. rewrite getPluginNames_unfold. cbn zeta.
  pose proof (scan_watches (snd <$> manifests (app st)) ∅ ∅ st) as Hs.
  destruct (foldl scanManifest (∅, ∅, st) (snd <$> manifests (app st)))
    as [[plugins enabled] st1].
  cbn [fst snd] in *. destruct Hs as (W & ws & E & _).
  assert (Ec : statCache st1 = statCache st) by (by rewrite E).
  assert (Eq : queue st1 = queue st) by (by rewrite E).
  assert (Er : pluginReloaders st1 = pluginReloaders st) by (by rewrite E).
  assert (Etr : trace st1 = trace st ++ (HostStartWatch <$> ws)) by (by rewrite E).
  clear E.
  set (st2 := set_enabledPlugins enabled (set_pluginNames plugins st1)).
  assert (U2 : upToDate st2).
  { intros p old s Hc Hs. apply (Hu p old s).
    - by rewrite <- Ec.
    - cbn in Hs. by rewrite (watchersOnly_stat _ _ W) in Hs. }
  destruct (foldl_checkVersion_calm (snd <$> map_to_list (pluginNames st2)) st2 U2)
    as ((A & T & Q & R & _) & U).
  fold (checkVersions st2) in A, T, Q, R, U.
  assert (Et : trace (checkVersions st2) = trace st ++ (HostStartWatch <$> ws)).
  { by rewrite T. }
  rewrite (newEvents_app _ _ _ Et). split_and!.
  - apply reloadRequests_watches.
  - apply enqueued_watches.
  - by rewrite Q.
  - by rewrite R.
  - exact U.
Qed.

(** X4. A rescan of files that did not change requests no reload: if
    every cached stat still has the modification time of its file (as on a
    fresh instance, whose cache is empty), [getPluginNames] calls
    [requestReload] for nothing, submits nothing to the queue, creates no
    reloader, and leaves the cache up to date. *)
Theorem rescan_of_unchanged_files_requests_nothing st :
  upToDate st ->
  let st' := getPluginNames st in
  reloadRequests (newEvents st st') = []
  /\ enqueued (newEvents st st') = []
  /\ queue st' = queue st
  /\ pluginReloaders st' = pluginReloaders st
  /\ upToDate st'.
Proof. apply getPluginNames_unchanged. Qed.

(** X20. Starting up reloads nothing: after the first scan of a freshly
    constructed instance and the loading of its settings, no reload has been
    requested, the queue is empty, no reloader exists, and the cache holds
    the current stat of every file it knows. *)
Theorem startup_reloads_nothing a ls t0 s :
  let st := step (LayoutReady s) (construct a ls t0) in
  settings st = s
  /\ reloadRequests (trace st) = [] /\ enqueued (trace st) = []
  /\ queue st = [] /\ pluginReloaders st = ∅
  /\ upToDate st.
Proof.
  cbn [step].
  assert (Hu : upToDate (construct a ls t0)).
  { intros path old s0 Hc. cbn in Hc. by rewrite lookup_empty in Hc. }
  destruct (getPluginNames_unchanged _ Hu) as (R & E & Q & P & U).
  cbn zeta in R, E, Q, P, U. unfold newEvents in R, E.
  change (length (trace (construct a ls t0))) with 0 in R, E.
  rewrite drop_0 in R, E.
  set (st1 := set_settings s (getPluginNames (construct a ls t0))).
  assert (U1 : upToDate st1) by exact U.
  destruct (watch_spec (pluginFolder (app st1)) st1) as [->|(_ & _ & _ & ->)].
  - by split_and!.
  - split_and!; try done.
    + cbn [trace set_app emit emits]. rewrite reloadRequests_app.
      unfold st1. cbn [trace set_settings]. by rewrite R.
    + cbn [trace set_app emit emits]. rewrite enqueued_app.
      unfold st1. cbn [trace set_settings]. by rewrite E.
Qed.

(** X9. The watchers a rescan starts are on directories of listed
    manifests that are folders, and only where the platform needs one or the
    directory is a symbolic link. *)
Theorem rescan_watches_only_plugin_folders st :
  Forall (fun path =>
            (exists m, m ∈ (snd <$> manifests (app st)) /\ dir m = path)
            /\ isFolder (app st) path
            /\ (watchNeeded (app st) || fs_symlink (app st) path) = true)
         (watchesStarted (newEvents st (getPluginNames st))).
Proof.
  rewrite getPluginNames_unfold. cbn zeta.
  pose proof (scan_watches (snd <$> manifests (app st)) ∅ ∅ st) as Hs.
  destruct (foldl scanManifest (∅, ∅, st) (snd <$> manifests (app st)))
    as [[plugins enabled] st1].
  cbn [fst snd] in *. destruct Hs as (W & ws & E & F).
  assert (Etr : trace st1 = trace st ++ (HostStartWatch <$> ws)) by (by rewrite E).
  clear E.
  set (st2 := set_enabledPlugins enabled (set_pluginNames plugins st1)).
  destruct (checkVersions_no_watch st2) as (tr & Et & Wt).
  assert (Et' : trace (checkVersions st2) = trace st ++ ((HostStartWatch <$> ws) ++ tr)).
  { rewrite Et. cbn. rewrite Etr. by rewrite <- app_assoc. }
  rewrite (newEvents_app _ _ _ Et'), watchesStarted_app, Wt, app_nil_r.
  by rewrite watchesStarted_fmap.
Qed.

End RescanFacts.

Lemma rescan_of_unchanged_files_requests_nothing_witness :
  let st := construct (fooApp 100) ∅ 0 in
  let st' := getPluginNames (H := okHost) st in
  reloadRequests (newEvents st st') = []
  /\ enqueued (newEvents st st') = []
  /\ queue st' = queue st
  /\ pluginReloaders st' = pluginReloaders st
  /\ upToDate st'.
Proof.
  apply (rescan_of_unchanged_files_requests_nothing (H := okHost)).
  intros path old s Hc. cbn in Hc. by rewrite lookup_empty in Hc.
Defined.

Section WatchOnce.

Context `{HostApi}.

(** The host registers the watcher it is asked to start and drops none. *)
Hypothesis startWatchPath_registers :
  forall path w, path ∈ startWatchPath path w /\ w ⊆ startWatchPath path w.

Lemma scan_watch_once ms plugins0 enabled0 st :
  let st1 := snd (foldl scanManifest (plugins0, enabled0, st) ms) in
  exists ws,
    trace st1 = trace st ++ (HostStartWatch <$> ws)
    /\ NoDup ws
    /\ (forall p, p ∈ ws -> (p ∉ watchers (app st)) /\ p ∈ watchers (app st1))
    /\ watchers (app st) ⊆ watchers (app st1).
Proof.
  induction ms as [|m ms IH] using rev_ind.
  - cbn. exists []. cbn. rewrite app_nil_r. split_and!; try done.
    + constructor.
    + by intros p ?%elem_of_nil.
  - rewrite foldl_app. cbn [foldl].
    destruct (foldl scanManifest (plugins0, enabled0, st) ms) as [[plugins enabled] st1].
    cbn [snd] in IH. destruct IH as (ws & E & Nd & Hws & Hsub).
    unfold scanManifest. cbn [snd].
    destruct (watch_spec (dir m) st1) as [->|(Hw & _ & _ & ->)].
    + by exists ws.
    + destruct (startWatchPath_registers (dir m) (watchers (app st1))) as [Hin Hkeep].
      exists (ws ++ [dir m]). cbn. rewrite E, fmap_app, <- app_assoc. split_and!.
      * done.
      * apply NoDup_app. split_and!; [done| |apply NoDup_singleton].
        intros p Hp Hp'. apply list_elem_of_singleton in Hp' as ->.
        apply Hw. by apply Hws.
      * intros p Hp. apply elem_of_app in Hp as [Hp|Hp].
        -- destruct (Hws p Hp) as [Hn Hy]. split; [done|]. by apply Hkeep.
        -- apply list_elem_of_singleton in Hp as ->. split; [|done].
           intros Hin'. apply Hw. by apply Hsub.
      * intros p Hp. by apply Hkeep, Hsub.
Qed.

(** X10. With a host that registers the watcher it is asked to start, a
    rescan starts at most one watcher per path, and none on a path that was
    already watched. *)
Theorem rescan_starts_each_watcher_once st :
  let st' := getPluginNames st in
  let ws := watchesStarted (newEvents st st') in
  NoDup ws
  /\ forall path, path ∈ ws ->
       (path ∉ watchers (app st)) /\ path ∈ watchers (app st').
Proof.
  cbn zeta. rewrite getPluginNames_unfold. cbn zeta.
  pose proof (scan_watch_once (snd <$> manifests (app st)) ∅ ∅ st) as Hs.
  destruct (foldl scanManifest (∅, ∅, st) (snd <$> manifests (app st)))
    as [[plugins enabled] st1].
  cbn [fst snd] in *. destruct Hs as (ws & E & Nd & Hws & _).
  set (st2 := set_enabledPlugins enabled (set_pluginNames plugins st1)).
  destruct (checkVersions_no_watch st2) as (tr & Et & Wt).
  destruct (checkVersions_extends st2) as (A & _).
  assert (Et' : trace (checkVersions st2) = trace st ++ ((HostStartWatch <$> ws) ++ tr)).
  { rewrite Et. cbn. rewrite E. by rewrite <- app_assoc. }
  rewrite (newEvents_app _ _ _ Et'), watchesStarted_app, Wt, app_nil_r.
  rewrite watchesStarted_fmap, A. done.
Qed.

End WatchOnce.

Lemma rescan_starts_each_watcher_once_witness :
  let st := construct (fooApp 100) ∅ 0 in
  let st' := getPluginNames (H := okHost) st in
  let ws := watchesStarted (newEvents st st') in
  NoDup ws
  /\ forall path, path ∈ ws ->
       (path ∉ watchers (app st)) /\ path ∈ watchers (app st').
Proof.
  apply (rescan_starts_each_watcher_once (H := okHost)).
  intros path w. cbn. split.
  - apply elem_of_union. left. by apply elem_of_singleton.
  - intros x Hx. apply elem_of_union. by right.
Defined.

Section Mapping.

Context `{HostApi}.

Lemma watch_forgets (names : gmap string string) (en : gset string) path st :
  watch path (set_enabledPlugins en (set_pluginNames names st))
  = set_enabledPlugins en (set_pluginNames names (watch path st)).
Proof.
  unfold watch. cbn [app set_enabledPlugins set_pluginNames].
  case_decide; [done|].
  destruct (fs_stat (app st) path) as [[[] ? ? ?]|]; try done. cbn.
  by destruct (watchNeeded (app st) || fs_symlink (app st) path).
Qed.

Lemma scan_forgets (names : gmap string string) (en : gset string) ms p0 e0 st :
  foldl scanManifest (p0, e0, set_enabledPlugins en (set_pluginNames names st)) ms
  = let acc := foldl scanManifest (p0, e0, st) ms in
    (fst (fst acc), snd (fst acc),
     set_enabledPlugins en (set_pluginNames names (snd acc))).
Proof.
  induction ms as [|m ms IH] using rev_ind; [done|].
  rewrite !foldl_app. cbn [foldl]. rewrite IH. cbn zeta.
  destruct (foldl scanManifest (p0, e0, st) ms) as [[plugins enabled] st1].
  cbn [fst snd]. unfold scanManifest. rewrite watch_forgets. done.
Qed.

(** X6. A rescan replaces the directory mapping and the opt-in set
    wholesale: its result does not depend on what they held before. *)
Theorem rescan_replaces_mapping_and_opt_in (names : gmap string string)
    (en : gset string) st :
  getPluginNames (set_enabledPlugins en (set_pluginNames names st))
  = getPluginNames st.
Proof.
  rewrite !getPluginNames_unfold. cbn zeta.
  change (app (set_enabledPlugins en (set_pluginNames names st))) with (app st).
  rewrite scan_forgets. cbn zeta.
  by destruct (foldl scanManifest (∅, ∅, st) (snd <$> manifests (app st)))
    as [[plugins enabled] st1].
Qed.







End Mapping.



Section EndToEnd.

Context `{HostApi}.




End EndToEnd.


(** ** What reaches the queue *)

Section OwnReload.

Context `{HostApi}.

Lemma submitsOwn_refl plugin st : submitsOwn plugin st st.
Proof. exists []. cbn. by rewrite !app_nil_r. Qed.

Lemma submitsOwn_trans plugin st1 st2 st3 :
  submitsOwn plugin st1 st2 -> submitsOwn plugin st2 st3 ->
  submitsOwn plugin st1 st3.
Proof.
  intros (tr1 & T1 & F1 & Q1) (tr2 & T2 & F2 & Q2). exists (tr1 ++ tr2).
  rewrite T2, T1, Q2, Q1, enqueued_app, !app_assoc. split_and!; try done.
  by apply Forall_app.
Qed.

Lemma requestReload_own plugin st :
  reloadersInv st ->
  let st' := requestReload plugin st in
  (enqueued (newEvents st st') = [] \/ enqueued (newEvents st st') = [TReload plugin])
  /\ submitsOwn plugin st st'.
Proof.
  intros Hinv. cbn zeta. unfold requestReload.
  case_decide.
  2:{ rewrite newEvents_same by done. split; [by left|apply submitsOwn_refl]. }
  destruct (pluginReloaders st !! plugin) as [d|] eqn:E; cbn -[call].
  - destruct (call_keeps (now st) d) as [Ka _].
    destruct (proj2 (Hinv plugin) d E) as [Ha _].
    destruct (call (now st) d) as [[] d']; cbn [snd] in Ka; cbn.
    + rewrite Ka, Ha.
      rewrite (newEvents_app _ _ [Enqueued (TReload plugin)]) by done.
      split; [by right|]. exists [Enqueued (TReload plugin)].
      split_and!; try done. by repeat constructor.
    + rewrite newEvents_same by done. split; [by left|].
      exists []. cbn. by rewrite !app_nil_r.
  - destruct (call_keeps (now st) (debounce (TReload plugin) 750)) as [Ka _].
    destruct (call (now st) (debounce (TReload plugin) 750)) as [[] d'];
      cbn [snd] in Ka; cbn.
    + rewrite Ka. cbn.
      rewrite (newEvents_app _ _ [DebounceCreated (TReload plugin) 750;
                                  Enqueued (TReload plugin)])
        by (cbn; by rewrite <- app_assoc).
      split; [by right|].
      exists [DebounceCreated (TReload plugin) 750; Enqueued (TReload plugin)].
      cbn. rewrite <- app_assoc. split_and!; try done. by repeat constructor.
    + rewrite (newEvents_app _ _ [DebounceCreated (TReload plugin) 750]) by done.
      split; [by left|]. exists [DebounceCreated (TReload plugin) 750].
      cbn. rewrite app_nil_r. split_and!; try done.
Qed.

Lemma checkFile_own plugin path stat st :
  reloadersInv st -> submitsOwn plugin st (checkFile plugin path stat st).
Proof.
  intros Hinv. destruct stat as [s|]; [|apply submitsOwn_refl]. cbn.
  destruct (match statCache st !! path with Some _ => _ | None => _ end).
  - assert (Hinv1 : reloadersInv (emit (CallRequestReload plugin) st)).
    { eapply quiet_inv; [|exact Hinv].
      apply (quiet_emits (app st) [CallRequestReload plugin] st).
      repeat constructor. discriminate. }
    destruct (requestReload_own plugin _ Hinv1) as [_ (tr & T & F & Q)].
    exists (CallRequestReload plugin :: tr). cbn. rewrite T, Q. cbn.
    rewrite <- app_assoc. by split_and!.
  - exists []. cbn. by rewrite !app_nil_r.
Qed.

Lemma checkVersion_own plugin st :
  reloadersInv st -> submitsOwn plugin st (checkVersion plugin st).
Proof.
  intros Hinv. unfold checkVersion.
  assert (Hdel : submitsOwn plugin st
                   (set_pluginNames (delete plugin (pluginNames st)) st)).
  { exists []. cbn. by rewrite !app_nil_r. }
  destruct (manifest_of plugin (app st)) as [m|]; [|done].
  case_bool_decide; [done|]. cbn [foldl trackedFiles].
  eapply submitsOwn_trans; [apply checkFile_own; exact Hinv|].
  apply checkFile_own. by apply checkFile_inv.
Qed.

(** X11. At any time of a run of the plugin, a reload request for an
    extension submits at most one action to the queue, the reload of that
    extension, and a version check of an extension submits reloads of that
    extension only; what is submitted goes to the end of the queue. *)
Theorem version_check_submits_only_own_reload a ls t0 inputs plugin :
  let st := steps inputs (construct a ls t0) in
  (let st' := requestReload plugin st in
   (enqueued (newEvents st st') = [] \/ enqueued (newEvents st st') = [TReload plugin])
   /\ queue st' = queue st ++ enqueued (newEvents st st'))
  /\ (let st' := checkVersion plugin st in
      Forall (fun t => t = TReload plugin) (enqueued (newEvents st st'))
      /\ queue st' = queue st ++ enqueued (newEvents st st')).
Proof.
  cbn zeta.
  assert (Hinv : reloadersInv (steps inputs (construct a ls t0)))
    by apply steps_inv, construct_inv.
  split.
  - destruct (requestReload_own plugin _ Hinv) as [Hc (tr & T & F & Q)].
    split; [exact Hc|]. by rewrite (newEvents_app _ _ _ T).
  - destruct (checkVersion_own plugin _ Hinv) as (tr & T & F & Q).
    by rewrite (newEvents_app _ _ _ T).
Qed.

End OwnReload.

(** ** The steps of a reload *)

Section ReloadSteps.

Context `{HostApi}.

Create Rewrite HintDb reloadShape.
#[local] Hint Rewrite shaped_emit shaped_emits shaped_set_app shaped_setItem
  shaped_removeItem shaped_showNotice shaped_shaped shaped_localStorage
  shaped_settings emit_shaped emits_shaped : reloadShape.

Lemma enableAndReopen_events plugin sTop sLeft active st :
  exists a rest,
    snd (enableAndReopen plugin sTop sLeft active st)
      = set_app a (emits (HostEnable plugin :: rest) st)
    /\ (rest = []
        \/ (active = true /\ shouldReopenActiveSettingsTab (settings st) = true
            /\ (rest = [HostOpenTab plugin]
                \/ exists t', rest = [HostOpenTab plugin;
                                      HostScrollTo t' sLeft sTop]))).
Proof.
  unfold enableAndReopen, mbind, M_bind, bind, host, gets, mret, M_ret, ret.
  destruct (enablePlugin plugin (app st)) as [[[]|e] a1].
  2:{ exists a1, []. split; [done|by left]. }
  cbn [app set_app emit emits settings].
  destruct active; cbn [andb].
  2:{ exists a1, []. split; [done|by left]. }
  destruct (settingShown a1); cbn [andb].
  2:{ exists a1, []. split; [done|by left]. }
  destruct (bool_decide (activeTab a1 = None)); cbn [andb].
  2:{ exists a1, []. split; [done|by left]. }
  destruct (shouldReopenActiveSettingsTab (settings st)) eqn:Es.
  2:{ exists a1, []. split; [done|by left]. }
  cbn [app set_app emit emits].
  destruct (openTabById plugin a1) as [[[t|]|e] a2].
  - cbn [app set_app emit emits].
    destruct (scrollTo t sLeft sTop a2) as [r a3].
    exists a3, [HostOpenTab plugin; HostScrollTo t sLeft sTop].
    split; [|right; split_and!; try done; right; by exists t].
    cbn. unfold set_app, emits. cbn. by rewrite <- !app_assoc.
  - exists a2, [HostOpenTab plugin].
    split; [|right; split_and!; try done; by left].
    cbn. unfold set_app, emits. cbn. by rewrite <- !app_assoc.
  - exists a2, [HostOpenTab plugin].
    split; [|right; split_and!; try done; by left].
    cbn. unfold set_app, emits. cbn. by rewrite <- !app_assoc.
Qed.


(** The flag and the offsets a reload captures before it disables the
    extension. *)
Lemma reload_events_fine plugin st :
  plugin ∈ hostEnabled (app st) ->
  exists a' tr,
    snd (reload plugin st) = set_app a' (emits tr st)
    /\ match disablePlugin plugin (app st) with
       | (Thrown e, _) => tr = [HostDisable plugin]
       | (Returned _, a1) =>
           exists rest,
             tr = reloadEvents plugin (apiVersion16 a1)
                    (shouldShowReloadNotice (settings st))
                    (localStorage st !! debugKey) (HostEnable plugin :: rest)
                    (fst (reload plugin st))
             /\ tabRestore plugin (shouldReopenActiveSettingsTab (settings st))
                  (activeTab (app st)) rest
       end.
Proof.
  intros He. rewrite (reload_unfold _ _ He).
  assert (Hcap : forall sTop sLeft active rest,
    match activeTab (app st) with
    | Some t => if bool_decide (tab_id t = plugin)
                then (scrollTop t, scrollLeft t, true)
                else (0%Z, 0%Z, false)
    | None => (0%Z, 0%Z, false)
    end = (sTop, sLeft, active) ->
    rest = []
    \/ (active = true /\ shouldReopenActiveSettingsTab (settings st) = true
        /\ (rest = [HostOpenTab plugin]
            \/ exists t', rest = [HostOpenTab plugin; HostScrollTo t' sLeft sTop])) ->
    tabRestore plugin (shouldReopenActiveSettingsTab (settings st))
      (activeTab (app st)) rest).
  { intros sTop sLeft active rest Hc [->|(-> & Hr & Hrest)]; [by left|]. right.
    split; [done|]. destruct (activeTab (app st)) as [t|]; [|by inversion Hc].
    case_bool_decide; [|by inversion Hc]. inversion Hc; subst. by exists t. }
  destruct (match activeTab (app st) with Some _ => _ | None => _ end)
    as [[sTop sLeft] active].
  specialize (Hcap sTop sLeft active).
  destruct (disablePlugin plugin (app st)) as [[[]|e] a1].
  2:{ exists a1, [HostDisable plugin]. done. }
  cbn zeta.
  set (st4 := if apiVersion16 a1 then _ else _).
  destruct (enableAndReopen_events plugin sTop sLeft active st4)
    as (a5 & rest & E5 & Hrest).
  assert (Hset : settings st4 = settings st).
  { subst st4. by destruct (apiVersion16 a1). }
  rewrite Hset in Hrest.
  destruct (enableAndReopen plugin sTop sLeft active st4) as [r st5].
  cbn [fst snd] in E5. subst st5 st4.
  exists a5. eexists. split; [|exists rest; split; [reflexivity|by apply Hcap]].
  pose proof (restore_localStorage (localStorage st) debugKey "1") as Hls.
  unfold reloadEvents, restoreWrite.
  destruct (apiVersion16 a1), (localStorage st !! debugKey) as [old|],
    r as [[]|e]; cbn [fst snd]; autorewrite with reloadShape; rewrite Hls;
    destruct (shouldShowReloadNotice (settings st));
    rewrite ?app_nil_r; repeat rewrite <- app_assoc; reflexivity.
Qed.

Lemma lifecycle_app tr1 tr2 : lifecycle (tr1 ++ tr2) = lifecycle tr1 ++ lifecycle tr2.
Proof. apply filter_app. Qed.

Lemma tabCalls_app tr1 tr2 : tabCalls (tr1 ++ tr2) = tabCalls tr1 ++ tabCalls tr2.
Proof. apply filter_app. Qed.

Lemma tabRestore_calls plugin reopen tab rest :
  tabRestore plugin reopen tab rest -> tabCalls rest = rest /\ lifecycle rest = [].
Proof.
  intros [->|(_ & t & _ & _ & [->|(t' & ->)])]; by split.
Qed.

Lemma reloadEvents_lifecycle plugin api16 show old rest r :
  lifecycle rest = [] ->
  lifecycle (reloadEvents plugin api16 show old (HostEnable plugin :: rest) r)
  = [HostDisable plugin] ++ (if api16 then [PatchInstalled plugin] else [])
    ++ [HostEnable plugin] ++ (if api16 then [PatchRemoved plugin] else []).
Proof.
  intros Hl. unfold reloadEvents.
  change (HostEnable plugin :: rest) with ([HostEnable plugin] ++ rest).
  rewrite !lifecycle_app, Hl.
  by destruct api16, old, r as [[]|e], show.
Qed.

Lemma reloadEvents_tabCalls plugin api16 show old rest r :
  tabCalls rest = rest ->
  tabCalls (reloadEvents plugin api16 show old (HostEnable plugin :: rest) r) = rest.
Proof.
  intros Hl. unfold reloadEvents.
  change (HostEnable plugin :: rest) with ([HostEnable plugin] ++ rest).
  rewrite !tabCalls_app, Hl.
  destruct api16, old, r as [[]|e], show; cbn; by rewrite ?app_nil_r.
Qed.

(** X12. A reload of an extension the host has enabled calls
    [disablePlugin] first; if that throws, nothing else of the cycle
    happens; otherwise [enablePlugin] is called exactly once, and on a host
    of API version 1.6 the sourcemap patch is installed before that call and
    removed after it, whether enabling succeeds or throws. *)
Theorem reload_disables_then_enables plugin st :
  plugin ∈ hostEnabled (app st) ->
  lifecycle (newEvents st (snd (reload plugin st)))
  = match disablePlugin plugin (app st) with
    | (Thrown _, _) => [HostDisable plugin]
    | (Returned _, a1) =>
        [HostDisable plugin]
        ++ (if apiVersion16 a1 then [PatchInstalled plugin] else [])
        ++ [HostEnable plugin]
        ++ (if apiVersion16 a1 then [PatchRemoved plugin] else [])
    end.
Proof.
  intros He. destruct (reload_events_fine plugin st He) as (a & tr & E & Hd).
  rewrite E, newEvents_emits.
  destruct (disablePlugin plugin (app st)) as [[[]|e] a1].
  - destruct Hd as (rest & -> & Hrest).
    apply reloadEvents_lifecycle. by apply (tabRestore_calls _ _ _ _ Hrest).
  - by subst tr.
Qed.

(** X13. A reload touches the settings panel only to put back what it
    found: it opens a tab only if the preference allows it and the tab of
    the reloaded extension was the active one before the reload, it opens
    that tab, and it scrolls it to the offsets captured before the extension
    was disabled. *)
Theorem reload_reopens_only_the_captured_tab plugin st :
  tabRestore plugin (shouldReopenActiveSettingsTab (settings st))
    (activeTab (app st))
    (tabCalls (newEvents st (snd (reload plugin st)))).
Proof.
  destruct (decide (plugin ∈ hostEnabled (app st))) as [He|He].
  2:{ rewrite (reload_skips_disabled _ _ He). cbn [snd].
      rewrite newEvents_same by done. by left. }
  destruct (reload_events_fine plugin st He) as (a & tr & E & Hd).
  rewrite E, newEvents_emits.
  destruct (disablePlugin plugin (app st)) as [[[]|e] a1].
  - destruct Hd as (rest & -> & Hrest).
    rewrite reloadEvents_tabCalls; [done|]. by apply (tabRestore_calls _ _ _ _ Hrest).
  - subst tr. by left.
Qed.

(** X14. The queue slot of a reload changes nothing of the plugin's own
    bookkeeping (cache, mapping, opt-in set, reloaders, queue, preferences),
    requests no reload and submits nothing to the queue, whether the reload
    succeeds or fails. *)
Theorem reload_leaves_plugin_state_alone plugin st :
  let st' := snd (reloadSlot plugin st) in
  statCache st' = statCache st /\ pluginNames st' = pluginNames st
  /\ enabledPlugins st' = enabledPlugins st
  /\ pluginReloaders st' = pluginReloaders st /\ reindexer st' = reindexer st
  /\ queue st' = queue st /\ settings st' = settings st
  /\ enqueued (newEvents st st') = [] /\ reloadRequests (newEvents st st') = [].
Proof.
  cbn zeta. rewrite reloadSlot_unfold.
  destruct (decide (plugin ∈ hostEnabled (app st))) as [He|He].
  2:{ rewrite (reload_skips_disabled _ _ He). cbn [snd].
      rewrite newEvents_same by done. done. }
  destruct (reload_events plugin st He) as (a & tr & E & Hd).
  assert (Hq : enqueued tr = [] /\ reloadRequests tr = []).
  { destruct (disablePlugin plugin (app st)) as [[[]|e] a1].
    - destruct Hd as (trb & Fb & ->). unfold reloadEvents.
      assert (Hb : enqueued trb = [] /\ reloadRequests trb = []).
      { clear -Fb. induction Fb as [|e trb He _ [IH1 IH2]]; [done|].
        destruct e; try discriminate He; done. }
      destruct Hb as [Hb1 Hb2].
      rewrite !enqueued_app, !reloadRequests_app, Hb1, Hb2.
      by destruct (apiVersion16 a1), (localStorage st !! debugKey),
        (fst (reload plugin st)) as [[]|e], (shouldShowReloadNotice (settings st)).
    - by destruct Hd as (_ & ->). }
  destruct Hq as [Hq1 Hq2].
  destruct (reload plugin st) as [[[]|e] st']; cbn [fst snd] in *; subst st'.
  - rewrite newEvents_emits. done.
  - rewrite (newEvents_app _ _ (tr ++ [ConsoleError e]))
      by (cbn; by rewrite <- app_assoc).
    rewrite enqueued_app, reloadRequests_app, Hq1, Hq2. done.
Qed.

End ReloadSteps.

Lemma reload_disables_then_enables_witness :
  lifecycle (newEvents fooState (snd (reload (H := okHost) "foo" fooState)))
  = [HostDisable "foo"; PatchInstalled "foo"; HostEnable "foo"; PatchRemoved "foo"].
Proof.
  apply (reload_disables_then_enables (H := okHost) "foo" fooState).
  vm_compute. reflexivity.
Defined.

(** A reload in the vault of [foo] with its settings tab open: the tab is
    reopened and scrolled back to where it was. *)
Example reload_reopens_tab :
  tabCalls (newEvents fooTabState (snd (reload (H := okHost) "foo" fooTabState)))
  = [HostOpenTab "foo"; HostScrollTo (mkTab "foo" 0 0) 5 30].
Proof. vm_compute. reflexivity. Qed.

(** ** Directory names and the sourcemap patch *)

Section Basename.

Lemma split_two sep a b :
  exists x y l, JS.split sep (a +:+ String sep b) = x :: y :: l.
Proof.
  induction a as [|c a (x & y & l & IH)].
  - rewrite append_nil. cbn. rewrite Ascii.eqb_refl.
    pose proof (split_nonempty sep b). destruct (JS.split sep b) as [|y l]; [done|].
    by exists "", y, l.
  - rewrite append_cons. cbn. rewrite IH. destruct (Ascii.eqb c sep); eauto.
Qed.

Lemma last_split_app sep a d :
  occurs sep d = false -> last (JS.split sep (a +:+ String sep d)) = Some d.
Proof.
  intros Hd. induction a as [|c a IH].
  - rewrite append_nil. cbn. rewrite Ascii.eqb_refl, (split_segment _ _ Hd). done.
  - rewrite append_cons. cbn.
    destruct (split_two sep a d) as (x & y & l & E). rewrite E in IH |- *.
    by destruct (Ascii.eqb c sep).
Qed.

(** Every string is a single segment or ends in a slash followed by one. *)
Lemma last_segment_exists s :
  exists d, segment d /\ (s = d \/ exists a, s = a +:+ "/" +:+ d).
Proof.
  induction s as [|c s (d & Hd & [->|(a & ->)])].
  - exists "". split; [done|by left].
  - destruct (Ascii.eqb c JS.slash) eqn:Ec.
    + apply Ascii.eqb_eq in Ec as ->. exists d. split; [done|]. right. by exists "".
    + exists (String c d). split; [|by left]. unfold segment in *. cbn.
      by rewrite Ec, Hd.
  - exists d. split; [done|]. right. by exists (String c a).
Qed.

Lemma basename_segment d : segment d -> basename d = d.
Proof. intros Hd. unfold basename, JS.pop. by rewrite (split_segment _ _ Hd). Qed.

Lemma basename_app a d : segment d -> basename (a +:+ "/" +:+ d) = d.
Proof.
  intros Hd. unfold basename, JS.pop. cbn [fst].
  change (a +:+ "/" +:+ d) with (a +:+ String JS.slash d).
  by rewrite (last_split_app _ _ _ Hd).
Qed.

(** X16. [dir.split("/").pop()] is the last segment of [dir]: it contains
    no slash, and [dir] is that segment or ends in a slash followed by
    it. *)
Theorem basename_is_last_segment s d :
  basename s = d <-> segment d /\ (s = d \/ exists a, s = a +:+ "/" +:+ d).
Proof.
  split.
  - intros <-. destruct (last_segment_exists s) as (d & Hd & Hs).
    assert (E : basename s = d).
    { destruct Hs as [->|(a & ->)]; [by apply basename_segment|by apply basename_app]. }
    rewrite E. by split.
  - intros (Hd & [->|(a & ->)]); [by apply basename_segment|by apply basename_app].
Qed.

End Basename.

Section EndsWith.

Lemma string_length_append (a b : string) :
  String.length (a +:+ b) = String.length a + String.length b.
Proof. induction a as [|c a IH]; [done|]. rewrite append_cons. cbn. by rewrite IH. Qed.

Lemma substring_full s : substring 0 (String.length s) s = s.
Proof. induction s as [|c s IH]; [done|]. cbn. by rewrite IH. Qed.

Lemma substring_append a b k :
  substring (String.length a) k (a +:+ b) = substring 0 k b.
Proof. induction a as [|c a IH]; [done|]. rewrite append_cons. cbn. exact IH. Qed.

Lemma substring_split s n k :
  n + k = String.length s -> s = substring 0 n s +:+ substring n k s.
Proof.
  revert n. induction s as [|c s IH]; intros n Hn.
  - cbn in Hn. assert (n = 0) as -> by lia. assert (k = 0) as -> by lia. done.
  - destruct n as [|n].
    + cbn in Hn. subst k. cbn. by rewrite substring_full.
    + cbn in Hn. cbn. rewrite append_cons. f_equal. apply IH. lia.
Qed.

Lemma endsWith_app pre suf : JS.endsWith suf (pre +:+ suf) = true.
Proof.
  unfold JS.endsWith. cbn zeta. rewrite string_length_append.
  apply andb_true_iff. split; [apply Nat.leb_le; lia|].
  replace (String.length pre + String.length suf - String.length suf)
    with (String.length pre) by lia.
  rewrite substring_append, substring_full. apply String.eqb_refl.
Qed.

Lemma endsWith_inv suf s :
  JS.endsWith suf s = true -> exists pre, s = pre +:+ suf.
Proof.
  unfold JS.endsWith. cbn zeta. intros Hs. apply andb_true_iff in Hs as [Hl He].
  apply Nat.leb_le in Hl. apply String.eqb_eq in He.
  exists (substring 0 (String.length s - String.length suf) s).
  rewrite (substring_split s (String.length s - String.length suf)
             (String.length suf)) at 1 by lia.
  by rewrite He.
Qed.

Lemma append_inv_tail (a b c : string) : a +:+ c = b +:+ c -> a = b.
Proof.
  intros E. assert (Hl : String.length a = String.length b).
  { apply (f_equal String.length) in E. rewrite !string_length_append in E. lia. }
  revert b E Hl. induction a as [|x a IH]; intros [|y b] E Hl; try done.
  rewrite !append_cons in E. injection E as -> E. f_equal. apply IH; [done|].
  cbn in Hl. lia.
Qed.

(** X15. The patched [read] appends the marker exactly to reads of
    [main.js] in a directory whose name is the id the patch was installed
    for; [main.js] of a directory with another name is read unchanged, and a
    rejected read stays rejected. *)
Theorem sourcemap_patch_applies_by_directory_name plugin old root d :
  segment d -> segment plugin ->
  patchedRead plugin old (root +:+ "/" +:+ d +:+ "/main.js")
  = (if bool_decide (d = plugin)
     then match old (root +:+ "/" +:+ d +:+ "/main.js") with
          | Returned txt => Returned (txt +:+ nosourcemap)
          | Thrown e => Thrown e
          end
     else old (root +:+ "/" +:+ d +:+ "/main.js")).
Proof.
  intros Hd Hp. unfold patchedRead. cbn zeta. case_bool_decide as E.
  - subst d. by rewrite (endsWith_app root ("/" +:+ plugin +:+ "/main.js")).
  - destruct (JS.endsWith _ _) eqn:Ee; [|done]. exfalso. apply E.
    apply endsWith_inv in Ee as (pre & Ee).
    assert (A : forall r x, r +:+ "/" +:+ x +:+ "/main.js"
                            = (r +:+ "/" +:+ x) +:+ "/main.js")
      by (intros; by rewrite !append_assoc).
    rewrite (A root d), (A pre plugin) in Ee.
    apply append_inv_tail in Ee.
    rewrite <- (basename_app root d Hd), <- (basename_app pre plugin Hp).
    by rewrite Ee.
Qed.

End EndsWith.

Lemma sourcemap_patch_applies_by_directory_name_witness :
  patchedRead "foo" (fun _ => Returned "code") fooMain
  = Returned ("code" +:+ nosourcemap).
Proof.
  apply (sourcemap_patch_applies_by_directory_name "foo" (fun _ => Returned "code")
           ".obsidian/plugins" "foo"); reflexivity.
Defined.

(** ** The stat cache over a run *)

Section Cache.

Context `{HostApi}.

Lemma grows_refl c : grows c c.
Proof. by exists []. Qed.

Lemma grows_trans c1 c2 c3 : grows c1 c2 -> grows c2 c3 -> grows c1 c3.
Proof.
  intros (l1 & F1 & ->) (l2 & F2 & ->). exists (l1 ++ l2).
  split; [by apply Forall_app|]. by rewrite foldl_app.
Qed.

Lemma grows_same (c c' : gmap string Stat) : c' = c -> grows c c'.
Proof. intros ->. apply grows_refl. Qed.

Lemma grows_keeps c c' path : grows c c' -> is_Some (c !! path) -> is_Some (c' !! path).
Proof.
  intros (l & _ & ->). revert c. induction l as [|[k v] l IH]; intros c Hc; [done|].
  cbn. apply IH. destruct (decide (k = path)) as [->|Hne].
  - rewrite lookup_insert_eq. eauto.
  - by rewrite lookup_insert_ne.
Qed.

Lemma grows_tracked c c' path :
  grows c c' -> is_Some (c' !! path) -> is_Some (c !! path) \/ trackedPath path.
Proof.
  intros (l & F & ->). revert c F.
  induction l as [|[k v] l IH]; intros c F Hc; [by left|].
  cbn in Hc. apply Forall_cons in F as [Hk F].
  destruct (IH _ F Hc) as [Hin|Ht]; [|by right].
  destruct (decide (k = path)) as [->|Hne]; [by right|].
  left. by rewrite lookup_insert_ne in Hin.
Qed.

Lemma checkFile_grows plugin path stat st :
  trackedPath path -> grows (statCache st) (statCache (checkFile plugin path stat st)).
Proof.
  intros Ht. destruct (checkFile_opt plugin path stat st) as (_ & ->).
  destruct stat as [s|]; [|apply grows_refl].
  exists [(path, s)]. split; [by constructor|done].
Qed.

Lemma checkVersion_grows plugin st :
  grows (statCache st) (statCache (checkVersion plugin st)).
Proof.
  unfold checkVersion.
  destruct (manifest_of plugin (app st)) as [m|]; [|apply grows_refl].
  case_bool_decide; [apply grows_refl|]. cbn [foldl trackedFiles].
  eapply grows_trans; apply checkFile_grows.
  - exists (dir m), "main.js". split; [apply list_elem_of_here|done].
  - exists (dir m), "styles.css".
    split; [apply list_elem_of_further, list_elem_of_here|done].
Qed.

Lemma checkVersions_grows st : grows (statCache st) (statCache (checkVersions st)).
Proof.
  unfold checkVersions. generalize (snd <$> map_to_list (pluginNames st)).
  intros ps. revert st. induction ps as [|p ps IH]; intros st; cbn.
  - apply grows_refl.
  - eapply grows_trans; [apply checkVersion_grows|apply IH].
Qed.

Lemma getPluginNames_grows st :
  grows (statCache st) (statCache (getPluginNames st)).
Proof.
  rewrite getPluginNames_unfold. cbn zeta.
  pose proof (scan_spec (snd <$> manifests (app st)) st) as Hs.
  destruct (foldl scanManifest (∅, ∅, st) (snd <$> manifests (app st)))
    as [[plugins enabled] st1].
  cbn [fst snd]. destruct Hs as (_ & _ & _ & _ & Hc).
  eapply grows_trans; [|apply checkVersions_grows]. by apply grows_same.
Qed.

Lemma reindexPlugins_cache st : statCache (reindexPlugins st) = statCache st.
Proof. unfold reindexPlugins. by destruct (call _ _) as [[] d]. Qed.

Lemma watch_cache path st : statCache (watch path st) = statCache st.
Proof. by destruct (watch_frame path st) as (_ & _ & _ & -> & _). Qed.

Lemma onFileChange_grows filename st :
  grows (statCache st) (statCache (onFileChange filename st)).
Proof.
  unfold onFileChange.
  destruct (negb _); [apply grows_refl|].
  destruct (JS.pop (JS.split JS.slash filename)) as [base path].
  destruct (JS.pop path) as [d path'].
  destruct (_ && _); [apply grows_same, watch_cache|].
  destruct (negb _); [apply grows_refl|].
  destruct (_ || _); [apply grows_same, reindexPlugins_cache|].
  destruct (_ && _); [apply grows_refl|].
  destruct (knownPlugin d st); [|apply grows_refl]. apply checkVersion_grows.
Qed.

Lemma runNext_grows st : grows (statCache st) (statCache (snd (runNext st))).
Proof.
  unfold runNext. destruct (queue st) as [|t rest]; [apply grows_refl|].
  destruct t as [|plugin]; cbn [runTask].
  - cbn. apply (getPluginNames_grows (set_queue rest st)).
  - rewrite reloadSlot_unfold.
    destruct (reload_frame plugin (set_queue rest st)) as (a & tr & E).
    destruct (reload plugin (set_queue rest st)) as [[[]|e] st1];
      cbn [fst snd] in *; subst st1; apply grows_refl.
Qed.

Lemma step_grows i st : grows (statCache st) (statCache (step i st)).
Proof.
  destruct i; cbn [step]; try apply grows_refl.
  - rewrite watch_cache. apply getPluginNames_grows.
  - apply onFileChange_grows.
  - apply grows_same, reindexPlugins_cache.
  - apply runNext_grows.
Qed.

Lemma steps_grows inputs st : grows (statCache st) (statCache (steps inputs st)).
Proof.
  unfold steps. revert st. induction inputs as [|i inputs IH]; intros st; cbn.
  - apply grows_refl.
  - eapply grows_trans; [apply step_grows|apply IH].
Qed.

(** X18. In every run of the plugin the stat cache only ever holds paths
    of tracked files, [<dir>/main.js] or [<dir>/styles.css]. *)
Theorem cache_holds_only_tracked_files a ls t0 inputs path :
  is_Some (statCache (steps inputs (construct a ls t0)) !! path) ->
  trackedPath path.
Proof.
  intros Hc.
  destruct (grows_tracked _ _ path (steps_grows inputs (construct a ls t0)) Hc)
    as [Hin|Ht]; [|done].
  cbn in Hin. rewrite lookup_empty in Hin. by destruct Hin.
Qed.

(** X19. No step of the plugin evicts an entry of the stat cache: a path
    that is cached stays cached over any run, whatever the host and the disk
    do. *)
Theorem cache_is_never_purged inputs st path :
  is_Some (statCache st !! path) ->
  is_Some (statCache (steps inputs st) !! path).
Proof. apply grows_keeps, steps_grows. Qed.

End Cache.

Lemma cache_holds_only_tracked_files_witness : trackedPath fooMain.
Proof.
  apply (cache_holds_only_tracked_files (H := okHost) (fooApp 100) ∅ 0
           [LayoutReady defaultSettings] fooMain).
  vm_compute. eauto.
Defined.

Lemma cache_is_never_purged_witness :
  is_Some (statCache (steps (H := okHost)
                        [HostChange (fun _ => emptyApp); ScanCommand; QueueSlot]
                        fooState) !! fooMain).
Proof.
  apply (cache_is_never_purged (H := okHost)). vm_compute. eauto.
Defined.

(** ** Settings *)

(** X17. A preference changed in the settings tab survives a restart:
    loading the data saved by the toggle gives back the settings the toggle
    left, in which the toggled preference has the new value and the other
    one is unchanged. *)
Theorem settings_survive_a_restart t value s :
  let '(s', data) := onChange t value s in
  loadSettings (Some data) = s'
  /\ match t with
     | ReopenToggle => shouldReopenActiveSettingsTab s' = value
                       /\ shouldShowReloadNotice s' = shouldShowReloadNotice s
     | NoticeToggle => shouldShowReloadNotice s' = value
                       /\ shouldReopenActiveSettingsTab s'
                          = shouldReopenActiveSettingsTab s
     end.
Proof. by destruct t, s. Qed.

(** ** More on the serialized task queue *)

Module TaskQueueRuns.

Import TaskQueue TaskQueueFacts.

Lemma elem_of_settledIds p l : p ∈ settledIds l <-> exists o, Settled p o ∈ l.
Proof.
  unfold settledIds. rewrite list_elem_of_omap. split.
  - intros ([] & Hin & Heq); simplify_eq. eauto.
  - intros (o & Hin). exists (Settled p o). done.
Qed.

Lemma filter_none {A} (P : A -> Prop) `{forall x, Decision (P x)} (l : list A) :
  (forall x, x ∈ l -> ~ P x) -> filter P l = [].
Proof.
  induction l as [|x l IH]; [done|]. intros Hn.
  rewrite filter_cons_False by (apply Hn; left).
  apply IH. intros y Hy. apply Hn. by right.
Qed.






Lemma steps_app i1 i2 m : steps (i1 ++ i2) m = steps i2 (steps i1 m).
Proof. unfold steps. apply foldl_app. Qed.

(** Draining is a run of microtasks. *)
Lemma drain_steps n m : exists k, drain n m = steps (replicate k Microtask) m.
Proof.
  revert m. induction n as [|n IH]; intros m.
  - by exists 0.
  - cbn [drain]. destruct (jobs m) as [|j js] eqn:Ej.
    + by exists 0.
    + destruct (IH (tick m)) as (k & Hk). exists (S k). by rewrite Hk.
Qed.

(** The actions under way: called, and their future not settled. *)
Lemma underWay_view v : LogInv v -> underWay (v_log v) `sublist_of` front_ids (v_front v).
Proof.
  intros L. unfold underWay. rewrite (l_start v L), filter_app.
  rewrite (filter_none _ (v_done v).*1).
  - cbn. apply sublist_filter.
  - intros p Hp Hn. apply Hn. apply elem_of_fst_done in Hp as (o & Ho).
    apply elem_of_settledIds. exists o. by apply (l_done v L).
Qed.

(** X1. At any point of any run of the queue, at most one action is under
    way: of the actions that have been called, at most one has a future
    that is not settled yet. *)
Theorem queue_runs_one_action_at_a_time inputs :
  length (underWay (log (steps inputs taskQueue))) <= 1.
Proof.
  destruct (reach inputs) as (v & HR & Hwf & L).
  rewrite (r_log _ _ HR).
  pose proof (sublist_length _ _ (underWay_view v L)) as Hl.
  destruct (v_front v); cbn in Hl; lia.
Qed.




Lemma settle_submitted p o m : submitted (log (settle p o m)) = submitted (log m).
Proof.
  unfold settle. destruct (heap m !! p) as [c|]; [|done].
  destruct (p_state c); [done|]. cbn. rewrite submitted_app. cbn. by rewrite app_nil_r.
Qed.

Lemma subscribe_log p r m : log (subscribe p r m) = log m.
Proof.
  unfold subscribe. destruct (heap m !! p) as [c|]; [|done]. by destruct (p_state c).
Qed.

Lemma tick_submitted m : submitted (log (tick m)) = submitted (log m).
Proof.
  unfold tick. destruct (jobs m) as [|[p a|p o] rest]; [done| |].
  - cbn [exec]. destruct a.
    + rewrite settle_submitted. cbn. rewrite submitted_app. cbn. by rewrite app_nil_r.
    + rewrite settle_submitted. cbn. rewrite submitted_app. cbn. by rewrite app_nil_r.
    + cbn. rewrite subscribe_log. cbn. rewrite submitted_app. cbn. by rewrite app_nil_r.
  - cbn [exec]. by rewrite settle_submitted.
Qed.

Lemma drain_submitted n m : submitted (log (drain n m)) = submitted (log m).
Proof.
  revert m. induction n as [|n IH]; intros m; [done|].
  cbn [drain]. destruct (jobs m); [done|]. by rewrite IH, tick_submitted.
Qed.

(** X3. When no submitted action returns a promise, running the microtasks
    calls every submitted action, and the future of each settles as its
    action did: rejected with what it threw, or fulfilled with what it
    returned.  An action that throws does not keep the later ones from
    running. *)
Theorem synchronous_actions_all_run inputs :
  let m := steps inputs taskQueue in
  (forall p a, Submitted p a ∈ log m -> synchronous a = true) ->
  let m' := drain (2 * length (submitted (log m)) + 1) m in
  started (log m') = submitted (log m)
  /\ forall p a, Submitted p a ∈ log m ->
       match a with
       | Throws e => Settled p (Rejected e) ∈ log m'
       | Returns x => Settled p (Fulfilled x) ∈ log m'
       | ReturnsPromise => False
       end.
Proof.
  intros m Hsync m'. destruct (reach inputs) as (v & HR & Hwf & L).
  fold m in HR.
  assert (Hn : pendingTicks v <= 2 * length (submitted (log m)) + 1).
  { rewrite (r_log _ _ HR). by apply pendingTicks_bound. }
  destruct (drain_quiet _ m v HR Hwf L Hn) as (v' & HR' & Hwf' & L' & Hj & tr & Htr).
  fold m' in HR', Hj.
  assert (Hsub : submitted tr = []).
  { pose proof (drain_submitted (2 * length (submitted (log m)) + 1) m) as E.
    fold m' in E. rewrite (r_log _ _ HR'), Htr, <- (r_log _ _ HR), submitted_app in E.
    rewrite <- (app_nil_r (submitted (log m))) in E at 2. by apply app_inv_head in E. }
  assert (Hback : forall p a, Submitted p a ∈ v_log v' -> Submitted p a ∈ log m).
  { intros p a. rewrite Htr, <- (r_log _ _ HR). intros [?|Hin]%elem_of_app; [done|].
    assert (p ∈ submitted tr) by (apply elem_of_submitted; eauto).
    rewrite Hsub in *. by apply elem_of_nil in H. }
  rewrite (r_jobs _ _ HR') in Hj. unfold view_jobs in Hj.
  pose proof (l_front _ L') as Lf.
  assert (Ef : v_front v' = Free /\ v_waiting v' = []).
  { destruct (v_front v') as [|p q|p q o]; [|exfalso|done].
    - split; [done|]. by destruct (v_waiting v') as [|[w a] rest].
    - destruct Lf as [_ Lf]. by apply Hback, Hsync in Lf. }
  destruct Ef as [Ef Ew].
  assert (Hchain : submitted (log m) = (v_done v').*1).
  { rewrite <- (drain_submitted (2 * length (submitted (log m)) + 1) m). fold m'.
    rewrite (r_log _ _ HR'), (l_sub v' L'). unfold chain. rewrite Ef, Ew. cbn.
    by rewrite app_nil_r. }
  split.
  - rewrite (r_log _ _ HR'), (l_start v' L'), Ef, Hchain. cbn. by rewrite app_nil_r.
  - intros p a Hin.
    assert (Hp : p ∈ (v_done v').*1).
    { rewrite <- Hchain. apply elem_of_submitted. eauto. }
    apply elem_of_fst_done in Hp as (o & Ho).
    destruct (l_done v' L' _ _ Ho) as [Hs _].
    assert (Hin' : Submitted p a ∈ v_log v').
    { rewrite Htr, <- (r_log _ _ HR). apply elem_of_app. by left. }
    pose proof (l_iso v' L' _ _ _ Hin' Hs) as Hok.
    rewrite (r_log _ _ HR'). unfold outcome_ok in Hok.
    destruct a; [by subst o|by subst o|by apply Hsync in Hin].
Qed.

Lemma synchronous_actions_all_run_witness :
  let m := steps [Call (Some (Throws 7)); Call (Some (Returns 1))] taskQueue in
  let m' := drain 5 m in
  started (log m') = submitted (log m)
  /\ Settled 1 (Rejected 7) ∈ log m' /\ Settled 2 (Fulfilled 1) ∈ log m'.
Proof.
  intros m m'.
  assert (Hs : forall p a, Submitted p a ∈ log m -> synchronous a = true).
  { intros p a Hin. vm_compute in Hin.
    apply elem_of_cons in Hin as [E|Hin]; [by simplify_eq|].
    apply list_elem_of_singleton in Hin. by simplify_eq. }
  destruct (synchronous_actions_all_run _ Hs) as [E A].
  split; [exact E|]. split.
  - apply (A 1 (Throws 7)). vm_compute. left.
  - apply (A 2 (Returns 1)). vm_compute. right. left.
Defined.

End TaskQueueRuns.
